(** * MoatMetrics: model residency, semantic cache and adaptive batching

    A shallow embedding of the MoatMetrics AI layer,

      - [AIMemoryManager]         (src/ai/memory_manager.py),
      - the model loading steps of [process_query] (src/ai/nl_analytics.py),
      - [AdaptiveBatchingEngine], [SemanticCacheEngine],
        [PrivacyPreservingEngine], [ModelCompressionEngine] and
        [AdvancedMLOptimizer]     (src/ai/advanced_ml_optimizer.py),

    followed by the properties proved about them.

    Conventions of the embedding.
      - A finite Python [float] is the rational number it denotes ([Q]),
        and floats are compared exactly. The memory manager decides what
        to unload by adding and subtracting sizes, so there the sums and
        differences are floats, rounded to binary64 as Python rounds
        them ([Py.float]). The other figures (times, averages, totals,
        similarities, confidences) are computed without rounding.
      - A Python [int] is an integer ([Z]); where the code converts an
        int to a float, the [OverflowError] of an int beyond the range of
        the floats is modelled.
      - A Python [dict] keeps insertion order, and the code sorts and
        iterates over dictionaries, so a dictionary is an association list
        in insertion order ([odict]).
      - [sorted] is a stable sort; it is modelled by a stable insertion
        sort driven by the strict comparison of the keys, as Python does.
      - [ModelInfo] objects are shared between [model_specs] and
        [loaded_models]; the manager therefore carries a store of objects
        and both dictionaries hold references into it.
      - Clock readings, what the Ollama probe does, the estimator and
        the text vectorizer are inputs of the operations.
      - The calls are modelled one at a time. Logging, locks and the
        writing of the checkpoint file do not change the modelled state
        and are left out. *)

From Stdlib Require Import QArith ZArith Lia Lqa Bool Ascii String.
From stdpp Require Import base list sorting strings gmap.

Open Scope string_scope.

(* ===================================================================== *)
(** * Python helpers: dictionaries, sorting and floats                    *)
(* ===================================================================== *)

Module Py.

(** A dictionary with string keys, in insertion order. *)
Definition odict (V : Type) : Type := list (string * V).

Fixpoint dict_get {V} (k : string) (d : odict V) : option V :=
  match d with
  | [] => None
  | (k', v) :: d' => if String.eqb k k' then Some v else dict_get k d'
  end.

Definition dict_mem {V} (k : string) (d : odict V) : bool :=
  match dict_get k d with Some _ => true | None => false end.

(** [d[k] = v]: an existing key keeps its position, a new key goes last. *)
Fixpoint dict_set {V} (k : string) (v : V) (d : odict V) : odict V :=
  match d with
  | [] => [(k, v)]
  | (k', v') :: d' =>
      if String.eqb k k' then (k, v) :: d' else (k', v') :: dict_set k v d'
  end.

(** [del d[k]] for a key that is present. *)
Fixpoint dict_del {V} (k : string) (d : odict V) : odict V :=
  match d with
  | [] => []
  | (k', v') :: d' =>
      if String.eqb k k' then d' else (k', v') :: dict_del k d'
  end.

Definition keys {V} (d : odict V) : list string := map fst d.
Definition values {V} (d : odict V) : list V := map snd d.

(** Stable insertion: [x] stood before every element of [l] in the input,
    so it passes only the elements strictly smaller than itself. *)
Fixpoint insert_stable {A} (lt : A -> A -> bool) (x : A) (l : list A) : list A :=
  match l with
  | [] => [x]
  | y :: l' => if lt y x then y :: insert_stable lt x l' else x :: l
  end.

(** [sorted(l, key=...)], where [lt a b] is [key(a) < key(b)]. *)
Definition sorted {A} (lt : A -> A -> bool) (l : list A) : list A :=
  fold_right (insert_stable lt) [] l.

(** [sum(l)] of numbers, added from the left without rounding. *)
Definition sum (l : list Q) : Q := fold_left Qplus l 0%Q.

Definition Qlt_bool (a b : Q) : bool := negb (Qle_bool b a).

(** The same sum, added from the right; used to reason about [sum]. *)
Fixpoint Qsum (l : list Q) : Q :=
  match l with
  | [] => 0%Q
  | x :: l' => (x + Qsum l')%Q
  end.

(** ** Floats

    A Python [float] is an IEEE 754 binary64 number: a rational, an
    infinity or [nan]. The result of an operation is the exact result
    rounded to the nearest number with 53 significant bits, ties to the
    even one; it is an infinity from [2^1024 - 2^970] on, and the
    numbers below [2^-1022] are spaced [2^-1074] apart. The sign of a
    zero is not kept: no operation modelled here tells the two zeros
    apart. *)
Inductive float : Type :=
| Fin (q : Q)
| PInf
| NInf
| NaN.

(** The integer nearest to a rational, the even one on a tie. *)
Definition round_half_even (q : Q) : Z :=
  let n := Qnum q in
  let d := Zpos (Qden q) in
  let f := (n / d)%Z in
  match (2 * (n mod d) ?= d)%Z with
  | Lt => f
  | Gt => (f + 1)%Z
  | Eq => if Z.even f then f else (f + 1)%Z
  end.

(** [floor(log2 a)] for a positive rational. *)
Definition ilog2 (a : Q) : Z :=
  let e := (Z.log2 (Qnum a) - Z.log2 (Zpos (Qden a)))%Z in
  if Qle_bool (2 ^ e) a then e else (e - 1)%Z.

(** Rounding to binary64. *)
Definition round64 (q : Q) : float :=
  if Qeq_bool q 0 then Fin 0
  else
    let a := if Qlt_bool q 0 then - q else q in
    let quantum := (2 ^ Z.max (ilog2 a - 52) (-1074))%Q in
    let r := (inject_Z (round_half_even (a / quantum)) * quantum)%Q in
    if Qle_bool (2 ^ 1024) r
    then (if Qlt_bool q 0 then NInf else PInf)
    else Fin (Qred (if Qlt_bool q 0 then - r else r)).

Definition fneg (x : float) : float :=
  match x with
  | Fin a => Fin (- a)
  | PInf => NInf
  | NInf => PInf
  | NaN => NaN
  end.

(** [x + y] *)
Definition fadd (x y : float) : float :=
  match x, y with
  | NaN, _ | _, NaN => NaN
  | PInf, NInf | NInf, PInf => NaN
  | PInf, _ | _, PInf => PInf
  | NInf, _ | _, NInf => NInf
  | Fin a, Fin b => round64 (a + b)
  end.

(** [x - y] *)
Definition fsub (x y : float) : float := fadd x (fneg y).

(** [x <= y] and [x < y]; a comparison with [nan] is false. *)
Definition fle (x y : float) : bool :=
  match x, y with
  | NaN, _ | _, NaN => false
  | NInf, _ | _, PInf => true
  | Fin a, Fin b => Qle_bool a b
  | _, _ => false
  end.

Definition flt (x y : float) : bool :=
  match x, y with
  | NaN, _ | _, NaN => false
  | PInf, _ | _, NInf => false
  | Fin a, Fin b => Qlt_bool a b
  | _, _ => true
  end.

(** [sum(l)] of floats: starts from the int 0 and adds from the left,
    rounding after every addition (the plain loop of CPython up to 3.11;
    later versions carry a correction term through the loop). *)
Definition fsum (l : list Q) : float :=
  fold_left (fun acc x => fadd acc (Fin x)) l (Fin 0).

(** The value of a decimal literal such as [0.6]: the float nearest to
    it. Every literal in the code is far from the infinities. *)
Definition lit (q : Q) : Q :=
  match round64 q with
  | Fin r => r
  | _ => q
  end.

(** [float(z)] for an int, as the arithmetic between an int and a float
    performs it: it raises [OverflowError] ([false] here) when the int
    rounds to [2^1024] or beyond. *)
Definition int_fits_float (z : Z) : bool :=
  (Z.abs z <? 2 ^ 1024 - 2 ^ 970)%Z.

(** The order a comparison [lt] sorts by: [b] is not strictly before [a]. *)
Definition le_of {A} (lt : A -> A -> bool) (a b : A) : Prop := lt b a = false.

End Py.

Import Py.

(* ===================================================================== *)
(** * AIMemoryManager (src/ai/memory_manager.py)                         *)
(* ===================================================================== *)

Module AIMemoryManager.

Local Open Scope Q_scope.

(** The dataclass [ModelInfo]. [status] is a plain string in the code
    ("unloaded", "loading", "loaded", "unloading"). The float fields
    hold finite floats, kept as the rationals they are. *)
Record ModelInfo : Type := mkModelInfo {
  name : string;
  size_gb : Q;
  last_used : Q;
  load_time : Q;
  usage_count : Z;
  priority : Z;
  status : string
}.

#[export] Instance ModelInfo_inhabited : Inhabited ModelInfo :=
  populate (mkModelInfo "" 0 0 0 0 0 "unloaded").

Definition set_status (s : string) (m : ModelInfo) : ModelInfo :=
  mkModelInfo (name m) (size_gb m) (last_used m) (load_time m)
              (usage_count m) (priority m) s.

Definition set_last_used (t : Q) (m : ModelInfo) : ModelInfo :=
  mkModelInfo (name m) (size_gb m) t (load_time m)
              (usage_count m) (priority m) (status m).

Definition set_load_time (t : Q) (m : ModelInfo) : ModelInfo :=
  mkModelInfo (name m) (size_gb m) (last_used m) t
              (usage_count m) (priority m) (status m).

Definition incr_usage_count (m : ModelInfo) : ModelInfo :=
  mkModelInfo (name m) (size_gb m) (last_used m) (load_time m)
              (usage_count m + 1) (priority m) (status m).

(** A reference to a [ModelInfo] object: an index into the object store. *)
Definition ref : Type := nat.

(** The fields of the manager that the operations below read or write.
    [objects] is the store of [ModelInfo] objects; the two dictionaries
    map a model name to a reference. *)
Record Manager : Type := mkManager {
  max_memory_gb : Q;
  objects : list ModelInfo;
  loaded_models : odict ref;
  model_specs : odict ref
}.

Definition with_objects (h : list ModelInfo) (st : Manager) : Manager :=
  mkManager (max_memory_gb st) h (loaded_models st) (model_specs st).

(** [model.status == "loaded"] for the object behind a reference. *)
Definition is_loaded (h : list ModelInfo) (r : ref) : bool :=
  String.eqb (status (h !!! r)) "loaded".

(** The references of [loaded_models] whose object has status "loaded",
    in dictionary order. *)
Definition loaded_refs (h : list ModelInfo) (d : odict ref) : list (string * ref) :=
  List.filter (fun e => is_loaded h (snd e)) d.

(** [_get_current_memory_usage]:
    [sum(model.size_gb for model in loaded_models.values()
         if model.status == "loaded")], a float sum in dictionary order. *)
Definition _get_current_memory_usage (st : Manager) : float :=
  fsum (map (fun e => size_gb (objects st !!! snd e))
            (loaded_refs (objects st) (loaded_models st))).

(** The sort key [(priority, last_used)] and Python's [<] on such tuples. *)
Definition key_lt (h : list ModelInfo) (a b : string * ref) : bool :=
  let ma := h !!! snd a in
  let mb := h !!! snd b in
  (priority ma <? priority mb)%Z
  || ((priority ma =? priority mb)%Z && Qlt_bool (last_used ma) (last_used mb)).

(** The [for] loop of [_free_memory_for_model]. It returns the store, the
    value of [freed_memory] when the loop is left, and the models it
    unloaded, in the order of the "Unloading ..." log lines. *)
Fixpoint unload_loop (current_usage target_usage : float)
    (models_to_unload : list (string * ref))
    (h : list ModelInfo) (freed_memory : float)
  : list ModelInfo * float * list (string * ref) :=
  match models_to_unload with
  | [] => (h, freed_memory, [])
  | (model_name, r) :: rest =>
      if fle (fsub current_usage freed_memory) target_usage
      then (h, freed_memory, [])
      else
        let '(h', freed', unloaded) :=
          unload_loop current_usage target_usage rest
            (alter (set_status "unloaded") r h)
            (fadd freed_memory (Fin (size_gb (h !!! r)))) in
        (h', freed', (model_name, r) :: unloaded)
  end.

(** [sorted([(name, model) ... if model.status == "loaded"],
            key=lambda x: (x[1].priority, x[1].last_used))]. *)
Definition models_to_unload (st : Manager) : list (string * ref) :=
  sorted (key_lt (objects st))
         (loaded_refs (objects st) (loaded_models st)).

(** [_free_memory_for_model(required_gb)]: the manager afterwards and the
    models unloaded, in order. *)
Definition _free_memory_for_model (required_gb : Q) (st : Manager)
  : Manager * list (string * ref) :=
  let current_usage := _get_current_memory_usage st in
  let target_usage := fsub (Fin (max_memory_gb st)) (Fin required_gb) in
  if fle current_usage target_usage then (st, [])
  else
    let '(h, _, unloaded) :=
      unload_loop current_usage target_usage (models_to_unload st)
                  (objects st) (Fin 0) in
    (with_objects h st, unloaded).

(** The "Check memory availability" step of [smart_model_load]. *)
Definition make_room (required_memory : Q) (st : Manager) : Manager :=
  let current_memory := _get_current_memory_usage st in
  if flt (Fin (max_memory_gb st)) (fadd current_memory (Fin required_memory))
  then fst (_free_memory_for_model required_memory st)
  else st.

(** What [await self.ollama.chat(...)] does: it returns, it raises an
    [Exception], or the call is left by something that is no [Exception]
    (the task is cancelled: [asyncio.CancelledError] is a
    [BaseException]), which [except Exception] does not catch. *)
Inductive probe : Type :=
| Responds
| Raises
| Interrupted.

(** What one call of [smart_model_load] reads from outside: the clock on
    the fast path, what the probe does, and the three clock readings
    around the probe. *)
Record Env : Type := mkEnv {
  t_touch : Q;
  chat : probe;
  t_start : Q;
  t_done : Q;
  t_used : Q
}.

(** The [try] block of [smart_model_load]: the object of the catalog is
    marked "loading", the probe runs, and the object is either updated and
    registered in [loaded_models] or marked "unloaded". The result is the
    returned bool, or [None] when the call does not return: an
    interrupted probe leaves the object "loading". *)
Definition probe_and_register (model_name : string) (model_info : ref)
    (env : Env) (st : Manager) : Manager * option bool :=
  let h_loading := alter (set_status "loading") model_info (objects st) in
  match chat env with
  | Responds =>
      let load := t_done env - t_start env in
      let h_loaded :=
        alter (set_status "loaded") model_info
          (alter incr_usage_count model_info
             (alter (set_load_time load) model_info
                (alter (set_last_used (t_used env)) model_info h_loading))) in
      (mkManager (max_memory_gb st) h_loaded
                 (dict_set model_name model_info (loaded_models st))
                 (model_specs st),
       Some true)
  | Raises =>
      (with_objects (alter (set_status "unloaded") model_info h_loading) st,
       Some false)
  | Interrupted => (with_objects h_loading st, None)
  end.

(** The entry of [loaded_models] that makes [smart_model_load] return at
    once: [model_name in loaded_models and
           loaded_models[model_name].status == "loaded"]. *)
Definition already_loaded (model_name : string) (st : Manager) : option ref :=
  match dict_get model_name (loaded_models st) with
  | Some r => if is_loaded (objects st) r then Some r else None
  | None => None
  end.

(** [smart_model_load(model_name)]: the new manager and the returned
    bool, or [None] when the call is left by the interruption of the
    probe. *)
Definition smart_model_load (model_name : string) (env : Env) (st : Manager)
  : Manager * option bool :=
  match already_loaded model_name st with
  | Some r =>
      (with_objects
         (alter incr_usage_count r
            (alter (set_last_used (t_touch env)) r (objects st))) st,
       Some true)
  | None =>
      match dict_get model_name (model_specs st) with
      | None => (st, Some false)
      | Some model_info =>
          let required_memory := size_gb (objects st !!! model_info) in
          probe_and_register model_name model_info env
            (make_room required_memory st)
      end
  end.

(** [get_optimal_model(task_type, urgency)]. Both branches return
    [model_name]; the first one only logs a different message. *)
Definition get_optimal_model (task_type urgency : string) (st : Manager)
  : string :=
  let model_name := "tinyllama" in
  if String.eqb urgency "high"
     && match dict_get model_name (loaded_models st) with
        | Some r => is_loaded (objects st) r
        | None => false
        end
  then model_name
  else model_name.

(** [__init__]: the catalog holds the one approved model, and
    [_load_state] creates one fresh object per entry of the checkpoint
    file. [max_memory_gb or self._detect_max_memory()] takes the detected
    value when the argument is [None] or zero. *)
Definition tinyllama_spec : ModelInfo :=
  mkModelInfo "tinyllama" (lit (6 # 10)) 0 0 0 1 "unloaded".

Fixpoint _load_state (entries : odict ModelInfo) (st : Manager) : Manager :=
  match entries with
  | [] => st
  | (n, m) :: rest =>
      _load_state rest
        (mkManager (max_memory_gb st) (objects st ++ [m])
                   (dict_set n (length (objects st)) (loaded_models st))
                   (model_specs st))
  end.

Definition init (max_memory_arg : option Q) (detected : Q)
    (state_file : odict ModelInfo) : Manager :=
  let budget :=
    match max_memory_arg with
    | Some q => if Qeq_bool q 0 then detected else q
    | None => detected
    end in
  _load_state state_file
    (mkManager budget [tinyllama_spec] [] [("tinyllama", 0%nat)]).

(** The managers reached after each call of a sequence of
    [smart_model_load] calls, whether the call returned or was
    interrupted. *)
Fixpoint run_loads (calls : list (string * Env)) (st : Manager)
  : list Manager :=
  match calls with
  | [] => []
  | (n, env) :: rest =>
      let st' := fst (smart_model_load n env st) in
      st' :: run_loads rest st'
  end.

(** What holds of every manager the code builds: a dictionary has one
    entry per key, a reference denotes an object of the store, distinct
    entries hold distinct objects, and an object of the catalog is
    registered in [loaded_models] under its own name only. *)
Record wf (st : Manager) : Prop := mkWf {
  wf_loaded_keys : NoDup (keys (loaded_models st));
  wf_loaded_refs : NoDup (values (loaded_models st));
  wf_specs_keys : NoDup (keys (model_specs st));
  wf_specs_refs : NoDup (values (model_specs st));
  wf_loaded_valid :
    forall n r, (n, r) ∈ loaded_models st -> (r < length (objects st))%nat;
  wf_specs_valid :
    forall n r, (n, r) ∈ model_specs st -> (r < length (objects st))%nat;
  wf_shared :
    forall n m r,
      (n, r) ∈ loaded_models st -> (m, r) ∈ model_specs st -> n = m
}.

(** Every model of the catalog fits in the budget on its own. *)
Definition catalog_fits (st : Manager) : Prop :=
  forall n r, (n, r) ∈ model_specs st ->
    0 <= size_gb (objects st !!! r) <= max_memory_gb st.

(** The sum of [size_gb] over the models of [loaded_models] with status
    "loaded": the sum itself, not the float the code computes for it. *)
Definition resident_gb (st : Manager) : Q :=
  sum (map (fun e => size_gb (objects st !!! snd e))
           (loaded_refs (objects st) (loaded_models st))).

(** The budget invariant. *)
Definition within_budget (st : Manager) : Prop :=
  resident_gb st <= max_memory_gb st.

(** ** The eviction without rounding

    The eviction steps as exact arithmetic would take them: the same
    loop, tests and order, on the sums themselves. They say when rounding
    is harmless: when the floats select the same models. *)
Fixpoint unload_loop_exact (current_usage target_usage : Q)
    (models_to_unload : list (string * ref))
    (h : list ModelInfo) (freed_memory : Q)
  : list ModelInfo * Q * list (string * ref) :=
  match models_to_unload with
  | [] => (h, freed_memory, [])
  | (model_name, r) :: rest =>
      if Qle_bool (current_usage - freed_memory) target_usage
      then (h, freed_memory, [])
      else
        let '(h', freed', unloaded) :=
          unload_loop_exact current_usage target_usage rest
            (alter (set_status "unloaded") r h)
            (freed_memory + size_gb (h !!! r)) in
        (h', freed', (model_name, r) :: unloaded)
  end.

Definition free_memory_exact (required_gb : Q) (st : Manager)
  : Manager * list (string * ref) :=
  let current_usage := resident_gb st in
  let target_usage := max_memory_gb st - required_gb in
  if Qle_bool current_usage target_usage then (st, [])
  else
    let '(h, _, unloaded) :=
      unload_loop_exact current_usage target_usage (models_to_unload st)
                        (objects st) 0 in
    (with_objects h st, unloaded).

Definition make_room_exact (required_memory : Q) (st : Manager) : Manager :=
  if Qlt_bool (max_memory_gb st) (resident_gb st + required_memory)
  then fst (free_memory_exact required_memory st)
  else st.

(** Rounding is harmless in a call when the eviction step frees the
    models it would free without rounding, and in a sequence of calls
    when it is harmless in each call, in the manager that call finds. *)
Definition harmless_call (model_name : string) (st : Manager) : Prop :=
  match already_loaded model_name st, dict_get model_name (model_specs st) with
  | None, Some model_info =>
      make_room (size_gb (objects st !!! model_info)) st
      = make_room_exact (size_gb (objects st !!! model_info)) st
  | _, _ => True
  end.

Fixpoint rounding_harmless (calls : list (string * Env)) (st : Manager)
  : Prop :=
  match calls with
  | [] => True
  | (n, env) :: rest =>
      harmless_call n st
      /\ rounding_harmless rest (fst (smart_model_load n env st))
  end.

(** The contribution of the object behind [r] to the memory usage. *)
Definition weight (h : list ModelInfo) (r : ref) : Q :=
  if is_loaded h r then size_gb (h !!! r) else 0.

(** The memory usage, added over all entries of the dictionary. *)
Definition usage_of (h : list ModelInfo) (d : odict ref) : Q :=
  Qsum (map (fun e => weight h (snd e)) d).

(** The store after the models of [log] have been set to "unloaded". *)
Definition unload_all (log : list (string * ref)) (h : list ModelInfo)
  : list ModelInfo :=
  fold_left (fun h e => alter (set_status "unloaded") (snd e) h) log h.

(** The declared sizes of the models of a list, added up. *)
Definition sizes (h : list ModelInfo) (l : list (string * ref)) : Q :=
  Qsum (map (fun e => size_gb (h !!! snd e)) l).

(** The value of [freed_memory] after the models of a list have been
    unloaded in turn. *)
Definition freed_after (h : list ModelInfo) (freed : float)
    (l : list (string * ref)) : float :=
  fold_left (fun acc e => fadd acc (Fin (size_gb (h !!! snd e)))) l freed.

(** The objects the [try] block can leave behind. *)
Definition loaded_obj (env : Env) : ModelInfo -> ModelInfo :=
  set_status "loaded" ∘ incr_usage_count
  ∘ set_load_time (t_done env - t_start env)
  ∘ set_last_used (t_used env) ∘ set_status "loading".

Definition failed_obj : ModelInfo -> ModelInfo :=
  set_status "unloaded" ∘ set_status "loading".


(** ** Example managers *)

(** Two resident models restored from a checkpoint: A (priority 1, last
    used at 10) and B (priority 2, last used at 20), one GB each, under a
    budget of 2.5 GB. *)
Definition model_A : ModelInfo := mkModelInfo "A" 1 10 0 3 1 "loaded".
Definition model_B : ModelInfo := mkModelInfo "B" 1 20 0 3 2 "loaded".

Definition two_models : Manager :=
  init (Some (25 # 10)) 8 [("A", model_A); ("B", model_B)].

(** Two resident models of equal priority; "old" was used first. *)
Definition equal_priority : Manager :=
  init (Some (25 # 10)) 8
       [("new", mkModelInfo "new" 1 20 0 3 2 "loaded");
        ("old", mkModelInfo "old" 1 10 0 3 2 "loaded")].

(** A budget of half a GB, smaller than the one approved model, with one
    resident model of 0.3 GB. *)
Definition tight_budget : Manager :=
  init (Some (5 # 10)) 8
       [("A", mkModelInfo "A" (lit (3 # 10)) 10 0 3 1 "loaded")].

(** The same small budget with no checkpoint file: the manager as
    [AIMemoryManager(max_memory_gb=0.5)] builds it. *)
Definition small_budget : Manager := init (Some (5 # 10)) 8 [].

(** A probe that succeeds, one that raises and one that is cancelled. *)
Definition probe_ok : Env := mkEnv 100 Responds 100 101 102.
Definition probe_raises : Env := mkEnv 200 Raises 200 201 202.
Definition probe_cancelled : Env := mkEnv 300 Interrupted 300 301 302.

(** A budget of 1.7 GB with X (0.1 GB) and Y (1.0 GB) resident: the
    approved model fits in exact arithmetic, and the floats disagree
    about it. *)
Definition rounded_budget : Manager :=
  init (Some (lit (17 # 10))) 8
       [("X", mkModelInfo "X" (lit (1 # 10)) 10 0 3 1 "loaded");
        ("Y", mkModelInfo "Y" 1 20 0 3 2 "loaded")].

(** A model that another call left "loading", beside a resident one,
    under the small budget. *)
Definition one_loading : Manager :=
  init (Some (5 # 10)) 8
       [("A", mkModelInfo "A" (lit (3 # 10)) 10 0 3 1 "loaded");
        ("L", mkModelInfo "L" (lit (3 # 10)) 20 0 3 1 "loading")].

(** ** Further operations of the manager *)

(** [check_model_availability(model_name)]:
    [model_name in self.model_specs]. *)
Definition check_model_availability (model_name : string) (st : Manager)
  : bool :=
  dict_mem model_name (model_specs st).

(** [_save_state()]: the object a successful write stores under
    'loaded_models',
    [{name: asdict(info) for name, info in self.loaded_models.items()}].
    [_load_state] reads that object back and ignores 'last_saved'. *)
Definition _save_state (st : Manager) : odict ModelInfo :=
  map (fun e => (fst e, objects st !!! snd e)) (loaded_models st).

(** [initialize()], given the answer of [check_ollama_status()]; the
    primary model is 'tinyllama'. *)
Definition initialize (ollama_status : bool) (env : Env) (st : Manager)
  : Manager * option bool :=
  if ollama_status then smart_model_load "tinyllama" env st
  else (st, Some false).

End AIMemoryManager.

(* ===================================================================== *)
(** * NaturalLanguageAnalytics.process_query (src/ai/nl_analytics.py)    *)
(* ===================================================================== *)

Module NaturalLanguageAnalytics.

Import AIMemoryManager.

(** How the model loading steps that open [process_query] end: with a
    model chosen and loaded; with the function's own
    [raise Exception("Failed to load tinyllama ...")], which its
    [except Exception] turns into the fallback answer; or with the
    interruption of a probe, which leaves [process_query]. *)
Inductive loading : Type :=
| Ready (model_name : string)
| GaveUp
| Aborted.

(** The model loading steps: the model chosen by
    [get_optimal_model("analytics", urgency)] is loaded; when that
    returns [False] 'tinyllama' is tried; when that returns [False] too
    the function raises. *)
Definition load_for_query (urgency : string) (env1 env2 : Env) (st : Manager)
  : Manager * loading :=
  let model_name := get_optimal_model "analytics" urgency st in
  let '(st1, success) := smart_model_load model_name env1 st in
  match success with
  | Some true => (st1, Ready model_name)
  | None => (st1, Aborted)
  | Some false =>
      let '(st2, success2) := smart_model_load "tinyllama" env2 st1 in
      match success2 with
      | Some true => (st2, Ready "tinyllama")
      | Some false => (st2, GaveUp)
      | None => (st2, Aborted)
      end
  end.

End NaturalLanguageAnalytics.

(* ===================================================================== *)
(** * AdaptiveBatchingEngine (src/ai/advanced_ml_optimizer.py)           *)
(* ===================================================================== *)

Module AdaptiveBatchingEngine.

Local Open Scope Q_scope.

(** How a call ends: it returns, or an exception leaves it. *)
Inductive outcome : Type := Returned | Raised.

(** An entry of [pending_requests]. The engine reads the payload only
    through [str(req['data'])], so [data] holds that rendering. *)
Record Request : Type := mkRequest {
  data : string;
  timestamp : Q;
  batch_id : Z
}.

(** A record of [batch_history]. *)
Record Sample : Type := mkSample {
  s_batch_size : Z;
  s_processing_time : Q;
  s_avg_query_length : Q;
  s_system_load : Q;
  s_memory_usage : Q;
  s_timestamp : Q
}.

(** The object held in [performance_model], seen through
    [predict([features])[0]]: [None] stands for a raised exception. *)
Definition Estimator : Type := list Q -> option Q.

(** A [Ridge] object on which [fit] has not completed: [predict] raises. *)
Definition unfitted_ridge : Estimator := fun _ => None.

(** [Ridge(alpha=1.0).fit(X, y)]: the fitted estimator, or [None] when
    [fit] raises. *)
Class Sklearn : Type := {
  ridge_fit : list (list Q) -> list Q -> option Estimator
}.

Record Engine : Type := mkEngine {
  max_batch_size : Z;
  max_wait_time : Q;
  pending_requests : list Request;
  batch_history : list Sample;
  performance_model : option Estimator
}.

(** [__init__(max_batch_size, max_wait_time)]. *)
Definition init (max_batch_size : Z) (max_wait_time : Q) : Engine :=
  mkEngine max_batch_size max_wait_time [] [] None.

Definition with_pending (p : list Request) (e : Engine) : Engine :=
  mkEngine (max_batch_size e) (max_wait_time e) p
           (batch_history e) (performance_model e).

Definition with_history (h : list Sample) (e : Engine) : Engine :=
  mkEngine (max_batch_size e) (max_wait_time e) (pending_requests e)
           h (performance_model e).

Definition with_model (m : option Estimator) (e : Engine) : Engine :=
  mkEngine (max_batch_size e) (max_wait_time e) (pending_requests e)
           (batch_history e) m.

(** [add_request(request_data)], with the clock reading [now]. *)
Definition add_request (request_data : string) (now : Q) (e : Engine)
  : Engine * Z :=
  let batch_id := Z.of_nat (length (pending_requests e)) in
  (with_pending
     (pending_requests e ++ [mkRequest request_data now batch_id]) e,
   batch_id).

(** [np.mean] of a list of lengths. *)
Definition mean (l : list Z) : Q :=
  sum (map inject_Z l) / inject_Z (Z.of_nat (length l)).

(** One round of the [for size in range(...)] loop: [best] is the pair
    [(best_size, best_efficiency)], with [None] for [float('inf')]. *)
Definition try_size (model : Estimator) (current_features : list Q)
    (best : Z * option Q) (size : Z) : Z * option Q :=
  let features := <[0%nat := inject_Z size]> current_features in
  match model features with
  | Some predicted_time =>
      let efficiency := predicted_time * inject_Z size in
      match snd best with
      | None => (size, Some efficiency)
      | Some best_efficiency =>
          if Qlt_bool efficiency best_efficiency
          then (size, Some efficiency)
          else best
      end
  | None => best
  end.

(** [_predict_optimal_batch_size], with the readings of
    [psutil.cpu_percent()] and [psutil.virtual_memory().percent]. *)
Definition _predict_optimal_batch_size (cpu mem : Q) (e : Engine) : Z :=
  let n := Z.of_nat (length (pending_requests e)) in
  match performance_model e, pending_requests e with
  | Some model, _ :: _ =>
      let current_features :=
        [ inject_Z n;
          mean (map (fun req => Z.of_nat (String.length (data req)))
                    (take 5 (pending_requests e)));
          cpu; mem ] in
      let stop := Z.min (n + 1) (max_batch_size e + 1) in
      fst (fold_left (try_size model current_features)
                     (seqZ 1 (stop - 1)) (1%Z, None))
  | _, _ => Z.min n (max_batch_size e)
  end.

(** The [while] loop of [get_optimal_batch]. *)
Fixpoint drain_loop (optimal_size : Z) (pending batch : list Request)
  : list Request * list Request :=
  match pending with
  | [] => (pending, batch)
  | req :: rest =>
      if (Z.of_nat (length batch) <? optimal_size)%Z
      then drain_loop optimal_size rest (batch ++ [req])
      else (pending, batch)
  end.

(** [get_optimal_batch()]: the engine afterwards and the batch. *)
Definition get_optimal_batch (cpu mem : Q) (e : Engine)
  : Engine * list Request :=
  match pending_requests e with
  | [] => (e, [])
  | _ :: _ =>
      let optimal_size := _predict_optimal_batch_size cpu mem e in
      let '(pending, batch) :=
        drain_loop optimal_size (pending_requests e) [] in
      (with_pending pending e, batch)
  end.

(** [deque(maxlen=100).append]. *)
Definition history_append (s : Sample) (h : list Sample) : list Sample :=
  if (100 <=? length h)%nat then drop 1 h ++ [s] else h ++ [s].

(** The training set built by [_train_performance_model]: one row
    [[batch_size, avg_query_length, system_load, memory_usage]] and one
    target [processing_time / batch_size] per record. *)
Definition features_of (history : list Sample) : list (list Q) :=
  map (fun r => [ inject_Z (s_batch_size r);
                  s_avg_query_length r;
                  s_system_load r;
                  s_memory_usage r ]) history.

Definition targets_of (history : list Sample) : list Q :=
  map (fun r => s_processing_time r / inject_Z (s_batch_size r)) history.

(** A record whose target [processing_time / batch_size] raises:
    [ZeroDivisionError] on a zero batch size, [OverflowError] on an int
    too large to be converted to a float. *)
Definition bad_batch_size (r : Sample) : bool :=
  (s_batch_size r =? 0)%Z || negb (int_fits_float (s_batch_size r)).

(** [_train_performance_model]. The targets are computed first, and the
    first record with a bad batch size ends the call, before the
    estimator is replaced; the new [Ridge] object is stored in
    [performance_model] before [fit] runs, and nothing catches what
    [fit] raises. *)
Definition _train_performance_model `{Sklearn} (e : Engine)
  : Engine * outcome :=
  if (length (batch_history e) <? 10)%nat then (e, Returned)
  else if existsb bad_batch_size (batch_history e)
  then (e, Raised)
  else
    match ridge_fit (features_of (batch_history e))
                    (targets_of (batch_history e)) with
    | Some fitted => (with_model (Some fitted) e, Returned)
    | None => (with_model (Some unfitted_ridge) e, Raised)
    end.

(** [record_batch_performance(batch_size, processing_time,
    avg_query_length)], with the [psutil] readings and the clock. *)
Definition record_batch_performance `{Sklearn}
    (batch_size : Z) (processing_time avg_query_length : Q)
    (cpu mem now : Q) (e : Engine) : Engine * outcome :=
  let record :=
    mkSample batch_size processing_time avg_query_length cpu mem now in
  let e1 := with_history (history_append record (batch_history e)) e in
  if (length (batch_history e1) mod 10 =? 0)%nat
  then _train_performance_model e1
  else (e1, Returned).

(** Interleavings of [add_request] and [get_optimal_batch] on one engine;
    [run] collects the numbers returned by the [add_request] calls. *)
Inductive op : Type :=
| Enqueue (request_data : string) (now : Q)
| Drain (cpu mem : Q).

Fixpoint run (ops : list op) (e : Engine) : Engine * list Z :=
  match ops with
  | [] => (e, [])
  | Enqueue d now :: rest =>
      let '(e1, id) := add_request d now e in
      let '(e2, ids) := run rest e1 in
      (e2, id :: ids)
  | Drain cpu mem :: rest => run rest (fst (get_optimal_batch cpu mem e))
  end.

(** ** The quantities the batch size prediction works with *)

(** [current_features] of [_predict_optimal_batch_size]. *)
Definition current_features (cpu mem : Q) (e : Engine) : list Q :=
  [ inject_Z (Z.of_nat (length (pending_requests e)));
    mean (map (fun req => Z.of_nat (String.length (data req)))
              (take 5 (pending_requests e)));
    cpu; mem ].

(** The sizes the loop tries:
    [range(1, min(len(pending_requests) + 1, max_batch_size + 1))]. *)
Definition candidate_sizes (e : Engine) : list Z :=
  seqZ 1 (Z.min (Z.of_nat (length (pending_requests e)) + 1)
                (max_batch_size e + 1) - 1).

(** [efficiency] for one size: the predicted time per item times the
    size, or [None] when the prediction raises. *)
Definition predicted_total (model : Estimator) (features : list Q)
    (size : Z) : option Q :=
  match model (<[0%nat := inject_Z size]> features) with
  | Some predicted_time => Some (predicted_time * inject_Z size)
  | None => None
  end.


(** ** Example engines *)

(** Three requests enqueued on an engine with the default settings. *)
Definition three_pending : Engine :=
  fst (add_request "q3" 3
    (fst (add_request "q2" 2
      (fst (add_request "q1" 1 (init 8 (1 # 2))))))).

(** The same queue, with an estimator whose every prediction raises. *)
Definition broken_model : Engine :=
  with_model (Some unfitted_ridge) three_pending.

(** One request enqueued on an engine built with [max_batch_size=0]. *)
Definition zero_batch_size : Engine :=
  fst (add_request "q1" 1 (init 0 (1 # 2))).

(** A regression whose [fit] always raises. *)
Definition failing_fit : Sklearn := {| ridge_fit := fun _ _ => None |}.

(** Nine recorded batches and three pending requests. *)
Definition nine_samples : Engine :=
  with_history (replicate 9 (mkSample 2 1 10 50 50 0)) three_pending.

(** An estimator whose predicted time per item falls with the batch
    size, and the three-request queue with it. *)
Definition falling_estimator : Estimator :=
  fun features =>
    match features with
    | size :: _ => Some (6 - 2 * size)
    | [] => None
    end.

Definition falling_model : Engine :=
  with_model (Some falling_estimator) three_pending.

(** A regression whose [fit] returns an estimator that predicts the same
    time per item for every row. *)
Definition constant_estimator : Estimator := fun _ => Some 1.

Definition constant_fit : Sklearn :=
  {| ridge_fit := fun _ _ => Some constant_estimator |}.

(** A full history: one hundred recorded batches. *)
Definition full_history : Engine :=
  with_history (replicate 100 (mkSample 2 1 10 50 50 0)) three_pending.


End AdaptiveBatchingEngine.

(* ===================================================================== *)
(** * SemanticCacheEngine (src/ai/advanced_ml_optimizer.py)              *)
(* ===================================================================== *)

Module SemanticCacheEngine.

Local Open Scope Q_scope.

(** The values found in a response dictionary ([Dict[str, Any]]). *)
Inductive Value : Type :=
| VNone
| VBool (b : bool)
| VInt (z : Z)
| VFloat (q : Q)
| VStr (s : string).

(** A response: equality of Python dictionaries ignores insertion order. *)
Abbreviation Response := (gmap string Value).

(** An embedding: the entries of a one-dimensional [np.ndarray]. *)
Abbreviation Embedding := (list Q).

(** The library calls the cache relies on. [None] or [false] stands for a
    raised exception. *)
Class TextOracle : Type := {
  Vectorizer : Type;
  (** [hashlib.md5(s.encode()).hexdigest()] *)
  md5_hexdigest : string -> string;
  (** [vectorizer.fit(docs)]: the vectorizer afterwards and whether the
      call returned. *)
  tfidf_fit : Vectorizer -> list string -> Vectorizer * bool;
  (** [vectorizer.transform([query]).toarray()[0]] *)
  tfidf_transform : Vectorizer -> string -> option Embedding;
  (** [np.linalg.norm(v)] *)
  linalg_norm : Embedding -> Q;
  (** [cosine_similarity(a.reshape(1, -1), b.reshape(1, -1))[0, 0]] *)
  cosine_similarity : Embedding -> Embedding -> option Q
}.

(** A value of [self.cache]. *)
Record CacheEntry : Type := mkCacheEntry {
  response : Response;
  timestamp : Q;
  access_count : Z;
  last_accessed : Q;
  query_sample : string
}.

(** The dataclass [QueryEmbedding]. *)
Record QueryEmbedding : Type := mkQueryEmbedding {
  embedding : Embedding;
  hash_key : string;
  qe_timestamp : Q;
  usage_count : Z;
  quality_score : Value
}.

Record Cache `{TextOracle} : Type := mkCache {
  cache_size : Z;
  similarity_threshold : Q;
  cache : odict CacheEntry;
  embeddings : odict QueryEmbedding;
  vectorizer : Vectorizer;
  is_vectorizer_fitted : bool
}.

(** [__init__(cache_size, similarity_threshold)], given the fresh
    [TfidfVectorizer]. *)
Definition init `{TextOracle} (cache_size : Z) (similarity_threshold : Q)
    (v : Vectorizer) : Cache :=
  mkCache _ cache_size similarity_threshold [] [] v false.

Definition with_cache `{TextOracle} (d : odict CacheEntry) (c : Cache)
  : Cache :=
  mkCache _ (cache_size c) (similarity_threshold c) d (embeddings c)
          (vectorizer c) (is_vectorizer_fitted c).

Definition with_vectorizer `{TextOracle} (v : Vectorizer) (fitted : bool)
    (c : Cache) : Cache :=
  mkCache _ (cache_size c) (similarity_threshold c) (cache c) (embeddings c)
          v fitted.

(** [str.lower] on ASCII letters. *)
Definition lower_ascii (a : ascii) : ascii :=
  let n := nat_of_ascii a in
  if ((65 <=? n) && (n <=? 90))%nat then ascii_of_nat (n + 32) else a.

Fixpoint lower (s : string) : string :=
  match s with
  | EmptyString => EmptyString
  | String a s' => String (lower_ascii a) (lower s')
  end.

(** [int(c, 16)] on a hexadecimal digit (a digest has no other character). *)
Definition hex_digit (a : ascii) : Z :=
  let n := nat_of_ascii a in
  if ((48 <=? n) && (n <=? 57))%nat then Z.of_nat (n - 48)
  else if ((97 <=? n) && (n <=? 102))%nat then Z.of_nat (n - 87)
  else if ((65 <=? n) && (n <=? 70))%nat then Z.of_nat (n - 55)
  else 0%Z.

(** The [except] branch of [_get_query_embedding]: sixteen digits of the
    digest of the lower-cased query. *)
Definition hash_embedding `{TextOracle} (query : string) : Embedding :=
  let hash_val := md5_hexdigest (lower query) in
  map (fun a => inject_Z (hex_digit a))
      (take 16 (list_ascii_of_string hash_val)).

(** [embedding / (np.linalg.norm(embedding) + 1e-8)] *)
Definition normalize `{TextOracle} (v : Embedding) : Embedding :=
  map (fun x => x / (linalg_norm v + (1 # 100000000))) v.

(** [_get_query_embedding(query)]: the cache afterwards (the vectorizer
    may have been fitted) and the embedding. *)
Definition _get_query_embedding `{TextOracle} (query : string) (c : Cache)
  : Cache * Embedding :=
  let bootstrap_queries :=
    [query; "what is the performance"; "show me data";
     "analyze results"; "get insights"] in
  let '(c1, fit_ok) :=
    if is_vectorizer_fitted c then (c, true)
    else
      let '(v, ok) := tfidf_fit (vectorizer c) bootstrap_queries in
      (with_vectorizer v ok c, ok) in
  if fit_ok then
    match tfidf_transform (vectorizer c1) query with
    | Some embedding => (c1, normalize embedding)
    | None => (c1, hash_embedding query)
    end
  else (c1, hash_embedding query).

(** The body of the loop of [_find_similar_queries]: the candidate a stored
    embedding gives rise to, if its similarity can be computed and
    reaches the threshold. *)
Definition candidate `{TextOracle} (query_embedding : Embedding)
    (threshold : Q) (kv : string * QueryEmbedding) : option (string * Q) :=
  match cosine_similarity query_embedding (embedding (snd kv)) with
  | Some similarity =>
      if Qle_bool threshold similarity then Some (fst kv, similarity)
      else None
  | None => None
  end.

(** The comparison behind [sorted(..., key=lambda x: x[1], reverse=True)]. *)
Definition by_similarity_desc (a b : string * Q) : bool :=
  Qlt_bool (snd b) (snd a).

(** [_find_similar_queries(query_embedding)]. *)
Definition _find_similar_queries `{TextOracle} (query_embedding : Embedding)
    (c : Cache) : list (string * Q) :=
  match embeddings c with
  | [] => []
  | _ :: _ =>
      let similarities :=
        omap (candidate query_embedding (similarity_threshold c))
             (embeddings c) in
      take 3 (sorted by_similarity_desc similarities)
  end.

Definition cache_key_of `{TextOracle} (query context_hash : string) : string :=
  md5_hexdigest (query ++ context_hash).

(** [entry['access_count'] += 1; entry['last_accessed'] = time.time()] *)
Definition touch (now : Q) (e : CacheEntry) : CacheEntry :=
  mkCacheEntry (response e) (timestamp e) (access_count e + 1) now
               (query_sample e).

(** The annotations added to a semantic hit. *)
Definition annotate (similarity : Q) (r : Response) : Response :=
  <["cache_type" := VStr "semantic"]>
    (<["cache_similarity" := VFloat similarity]> r).

(** The [for similar_key, similarity in similar_queries] loop. *)
Fixpoint semantic_loop `{TextOracle} (now : Q)
    (similar_queries : list (string * Q)) (c : Cache)
  : Cache * option Response :=
  match similar_queries with
  | [] => (c, None)
  | (similar_key, similarity) :: rest =>
      match dict_get similar_key (cache c) with
      | Some e =>
          (with_cache (dict_set similar_key (touch now e) (cache c)) c,
           Some (annotate similarity (response e)))
      | None => semantic_loop now rest c
      end
  end.

(** [get_cached_response(query, context_hash)], with the clock reading. *)
Definition get_cached_response `{TextOracle} (query context_hash : string)
    (now : Q) (c : Cache) : Cache * option Response :=
  let '(c1, query_embedding) := _get_query_embedding query c in
  let cache_key := cache_key_of query context_hash in
  match dict_get cache_key (cache c1) with
  | Some e =>
      (with_cache (dict_set cache_key (touch now e) (cache c1)) c1,
       Some (response e))
  | None =>
      semantic_loop now (_find_similar_queries query_embedding c1) c1
  end.

(** The loop of [_evict_lru_entries] over the oldest keys. *)
Fixpoint evict_keys `{TextOracle} (ks : list string) (c : Cache) : Cache :=
  match ks with
  | [] => c
  | cache_key :: rest =>
      evict_keys rest
        (mkCache _ (cache_size c) (similarity_threshold c)
                 (dict_del cache_key (cache c))
                 (if dict_mem cache_key (embeddings c)
                  then dict_del cache_key (embeddings c)
                  else embeddings c)
                 (vectorizer c) (is_vectorizer_fitted c))
  end.

(** The comparison behind [key=lambda x: x[1]['last_accessed']]. *)
Definition older (a b : string * CacheEntry) : bool :=
  Qlt_bool (last_accessed (snd a)) (last_accessed (snd b)).

(** The entries in the order [sorted(cache.items(), key=last_accessed)]. *)
Definition by_last_accessed (d : odict CacheEntry)
  : list (string * CacheEntry) :=
  sorted older d.

(** [_evict_lru_entries()]. *)
Definition _evict_lru_entries `{TextOracle} (c : Cache) : Cache :=
  match cache c with
  | [] => c
  | _ :: _ =>
      let sorted_entries := by_last_accessed (cache c) in
      let num_to_remove := Nat.max 1 (length sorted_entries / 5) in
      evict_keys (map fst (take num_to_remove sorted_entries)) c
  end.

(** The three clock readings of [cache_response]. *)
Record StoreClock : Type := mkStoreClock {
  t_entry : Q;
  t_access : Q;
  t_embedding : Q
}.

(** [cache_response(query, context_hash, response)]. *)
Definition cache_response `{TextOracle} (query context_hash : string)
    (resp : Response) (clk : StoreClock) (c : Cache) : Cache :=
  let '(c1, query_embedding) := _get_query_embedding query c in
  let cache_key := cache_key_of query context_hash in
  let c2 :=
    if (cache_size c1 <=? Z.of_nat (length (cache c1)))%Z
    then _evict_lru_entries c1 else c1 in
  mkCache _ (cache_size c2) (similarity_threshold c2)
    (dict_set cache_key
       (mkCacheEntry resp (t_entry clk) 1 (t_access clk)
                     (String.substring 0 100 query))
       (cache c2))
    (dict_set cache_key
       (mkQueryEmbedding query_embedding cache_key (t_embedding clk) 1
          (default (VFloat (1 # 2)) (resp !! "confidence")))
       (embeddings c2))
    (vectorizer c2) (is_vectorizer_fitted c2).

(** What holds of every cache the code builds: a dictionary has one entry
    per key, and every stored embedding has its cache entry. *)
Record cache_wf `{TextOracle} (c : Cache) : Prop := mkCacheWf {
  wf_cache_keys : NoDup (keys (cache c));
  wf_embedding_keys : NoDup (keys (embeddings c));
  wf_sync : forall k, k ∈ keys (embeddings c) -> k ∈ keys (cache c)
}.

(** ** Example caches *)

(** A stand-in for the libraries: the digest is the text itself, the
    vectorizer has no state and never raises, and every pair of
    embeddings has cosine similarity 0.80. *)
Definition flat_similarity : TextOracle := {|
  Vectorizer := unit;
  md5_hexdigest := fun s => s;
  tfidf_fit := fun v _ => (v, true);
  tfidf_transform :=
    fun _ q => Some [inject_Z (Z.of_nat (String.length q)); 1];
  linalg_norm := fun _ => 1;
  cosine_similarity := fun _ _ => Some (8 # 10)
|}.

Definition answer (s : string) : Response := <["answer" := VStr s]> ∅.

Definition at_time (t : Q) : StoreClock := mkStoreClock t t t.

(** Two stored responses, with the default threshold 0.85 and with the
    threshold lowered to 0.75. *)
Definition two_entries (threshold : Q) : @Cache flat_similarity :=
  cache_response "margin by client" "ctx" (answer "a2") (at_time 2)
    (cache_response "profit margin" "ctx" (answer "a1") (at_time 1)
       (@init flat_similarity 1000 threshold tt)).

(** A cache of capacity five that holds five entries, stored at times
    3, 1, 5, 2 and 4. *)
Definition full_cache : @Cache flat_similarity :=
  cache_response "q4" "" (answer "a4") (at_time 4)
    (cache_response "q2" "" (answer "a2") (at_time 2)
       (cache_response "q5" "" (answer "a5") (at_time 5)
          (cache_response "q1" "" (answer "a1") (at_time 1)
             (cache_response "q3" "" (answer "a3") (at_time 3)
                (@init flat_similarity 5 (85 # 100) tt))))).


(** A cache of capacity ten that holds ten entries, stored at times
    3, 1, 5, 2, 4, 8, 6, 10, 7 and 9. *)
Definition ten_entries : @Cache flat_similarity :=
  fold_left
    (fun c qt => cache_response (fst qt) "" (answer (fst qt))
                   (at_time (snd qt)) c)
    [("q3", 3); ("q1", 1); ("q5", 5); ("q2", 2); ("q4", 4);
     ("q8", 8); ("q6", 6); ("q10", 10); ("q7", 7); ("q9", 9)]
    (@init flat_similarity 10 (85 # 100) tt).

(** ** A cache in use *)

(** The two public operations, with the clock readings they take. *)
Inductive cache_op : Type :=
| Store (query context_hash : string) (resp : Response) (clk : StoreClock)
| Lookup (query context_hash : string) (now : Q).

Definition step `{TextOracle} (c : Cache) (o : cache_op) : Cache :=
  match o with
  | Store query context_hash resp clk =>
      cache_response query context_hash resp clk c
  | Lookup query context_hash now =>
      fst (get_cached_response query context_hash now c)
  end.

(** A sequence of calls on one cache, first call first. *)
Definition run_ops `{TextOracle} (ops : list cache_op) (c : Cache) : Cache :=
  fold_left step ops c.

(** What the operations maintain: the two dictionaries hold the same keys
    in the same order, once each; the cache holds at most
    [max(cache_size, 1)] entries; every entry has been accessed at least
    once. *)
Record cache_inv `{TextOracle} (c : Cache) : Prop := mkCacheInv {
  inv_keys_sync : keys (embeddings c) = keys (cache c);
  inv_keys_nodup : NoDup (keys (cache c));
  inv_capacity : (Z.of_nat (length (cache c)) <= Z.max (cache_size c) 1)%Z;
  inv_accessed : Forall (fun kv => (1 <= access_count (snd kv))%Z) (cache c)
}.


(** ** Statistics *)

(** The library calls of [get_cache_stats]: [np.mean] of the quality
    scores ([None] when it raises; the result may be [nan]) and
    [len(pickle.dumps(self.cache))]. *)
Class StatsOracle : Type := {
  Stat : Type;
  np_mean : list Value -> option Stat;
  pickle_size : odict CacheEntry -> Z
}.

(** The dictionary [get_cache_stats] returns: the two-key one of an empty
    cache, or the four-key one. *)
Inductive CacheStats `{StatsOracle} : Type :=
| NoEntries
| Stats (size : Z) (total_accesses : Z) (avg_quality_score : Stat)
        (memory_usage_mb : Q).

Definition get_cache_stats `{TextOracle} `{StatsOracle} (c : Cache)
  : option CacheStats :=
  match cache c with
  | [] => Some NoEntries
  | _ :: _ =>
      let total_accesses :=
        fold_left Z.add (map access_count (values (cache c))) 0%Z in
      match np_mean (map quality_score (values (embeddings c))) with
      | Some avg_similarity =>
          Some (Stats (Z.of_nat (length (cache c))) total_accesses
                  avg_similarity
                  (inject_Z (pickle_size (cache c)) / inject_Z (1024 * 1024)))
      | None => None
      end
  end.

(** A stand-in for the statistics: the mean is not looked at, and it
    raises on a score that is not a number. *)
Definition plain_stats : StatsOracle := {|
  Stat := unit;
  np_mean := fun scores =>
    if forallb (fun v => match v with
                         | VNone | VStr _ => false
                         | _ => true
                         end) scores
    then Some tt else None;
  pickle_size := fun d => Z.of_nat (length d)
|}.


End SemanticCacheEngine.

(* ===================================================================== *)
(** * PrivacyPreservingEngine (src/ai/advanced_ml_optimizer.py)          *)
(* ===================================================================== *)

Module PrivacyPreservingEngine.

Import SemanticCacheEngine.
Local Open Scope Q_scope.

(** A value drawn by [np.random.laplace]: a number, an infinity or
    [nan]. *)
Inductive float64 : Type :=
| Finite (q : Q)
| PosInf
| NegInf
| NaN.

Record Engine : Type := mkEngine {
  epsilon : Q;
  delta : Q;
  privacy_budget : Q
}.

(** [__init__(epsilon, delta)]. *)
Definition init (epsilon delta : Q) : Engine := mkEngine epsilon delta 1.

(** [isinstance(v, (int, float))]: the number a value stands for, if it
    is one. A [bool] is an [int]. *)
Definition numeric (v : Value) : option Q :=
  match v with
  | VBool b => Some (if b then 1 else 0)
  | VInt z => Some (inject_Z z)
  | VFloat q => Some q
  | VNone | VStr _ => None
  end.

(** [confidence + noise] raises [OverflowError] for an int too large to
    be converted to a float. *)
Definition overflows (v : Value) : bool :=
  match v with
  | VInt z => negb (int_fits_float z)
  | _ => false
  end.

(** [confidence + noise], for a confidence that can be converted. *)
Definition add_noise (confidence : Q) (noise : float64) : float64 :=
  match noise with
  | Finite n => Finite (confidence + n)
  | other => other
  end.

(** [max(0.0, min(1.0, x))]: [min] keeps [1.0] unless [x < 1.0], and
    [max] keeps [0.0] unless the result is above it. *)
Definition clamp (x : float64) : Q :=
  match x with
  | Finite q =>
      let m := if Qlt_bool q 1 then q else 1 in
      if Qlt_bool 0 m then m else 0
  | PosInf | NaN => 1
  | NegInf => 0
  end.

(** [max(0, self.privacy_budget - self.epsilon)] *)
Definition spend (p : Engine) : Engine :=
  let rest := privacy_budget p - epsilon p in
  mkEngine (epsilon p) (delta p) (if Qlt_bool 0 rest then rest else 0).

(** [add_differential_privacy_noise(response)], given what
    [np.random.laplace(0, noise_scale)] does. The result is [None] when
    the draw or the addition raises, which leaves the engine and the
    response as they were. The response is changed in place, so the
    result is the caller's dictionary. *)
Definition add_differential_privacy_noise (draw : option float64)
    (resp : Response) (p : Engine) : option (Engine * Response) :=
  match resp !! "confidence" with
  | None => Some (p, resp)
  | Some v =>
      match numeric v with
      | Some confidence =>
          match draw with
          | Some noise =>
              if overflows v then None
              else
                Some (spend p,
                      <["privacy_epsilon" := VFloat (epsilon p)]>
                        (<["privacy_applied" := VBool true]>
                           (<["confidence" :=
                                VFloat (clamp (add_noise confidence noise))]>
                              resp)))
          | None => None
          end
      | None => Some (spend p, resp)
      end
  end.

(** ** Example *)

Definition confident (c : Q) : Response :=
  <["confidence" := VFloat c]> (answer "a1").

End PrivacyPreservingEngine.

(* ===================================================================== *)
(** * ModelCompressionEngine (src/ai/advanced_ml_optimizer.py)           *)
(* ===================================================================== *)

Module ModelCompressionEngine.

Local Open Scope Q_scope.

(** The dictionary [simulate_quantization_effects] returns. *)
Record Quantization : Type := mkQuantization {
  original_size_gb : Q;
  compressed_size_gb : Q;
  compression_ratio : Q;
  accuracy_retention : Q;
  speedup_factor : Q;
  memory_saved_gb : Q;
  quantization_bits : Z
}.

(** [simulate_quantization_effects(model_size_gb, quantization_bits)];
    [None] is a [ZeroDivisionError]: that of [32 / 0], or that of
    [model_size_gb / compression_ratio] when [32 / quantization_bits]
    has been rounded to zero, which happens from [2^1080] on. The
    figures are given as exact arithmetic gives them. *)
Definition simulate_quantization_effects (model_size_gb : Q)
    (quantization_bits : Z) : option Quantization :=
  let original_bits := 32%Z in
  if (quantization_bits =? 0)%Z then None
  else if (2 ^ 1080 <=? Z.abs quantization_bits)%Z then None
  else
    let compression_ratio :=
      inject_Z original_bits / inject_Z quantization_bits in
    let compressed_size := model_size_gb / compression_ratio in
    let '(accuracy_retention, speedup_factor) :=
      if (quantization_bits =? 8)%Z then (95 # 100, 2)
      else if (quantization_bits =? 4)%Z then (85 # 100, 4)
      else (1, 1) in
    Some (mkQuantization model_size_gb compressed_size compression_ratio
            accuracy_retention speedup_factor
            (model_size_gb - compressed_size) quantization_bits).

(** The dictionary [optimize_inference_path] returns. *)
Record InferencePath : Type := mkInferencePath {
  optimization : string;
  reason : string;
  expected_speedup : string
}.

(** [optimize_inference_path(query_complexity, model_size)]. *)
Definition optimize_inference_path (query_complexity model_size : Q)
  : InferencePath :=
  if Qlt_bool query_complexity (3 # 10) && Qlt_bool 2 model_size then
    mkInferencePath "early_exit"
      "Simple query detected, using early exit layers" "2x"
  else if Qlt_bool (8 # 10) query_complexity then
    mkInferencePath "full_precision"
      "Complex query requires full model precision" "1x"
  else
    mkInferencePath "quantized_inference"
      "Balanced query complexity, using quantized path" "1.5x".

End ModelCompressionEngine.

(* ===================================================================== *)
(** * AdvancedMLOptimizer (src/ai/advanced_ml_optimizer.py)              *)
(* ===================================================================== *)

Module AdvancedMLOptimizer.

Import SemanticCacheEngine ModelCompressionEngine.
Local Open Scope Q_scope.

(** Text the optimizer obtains from library calls: the four [re.sub]
    passes of [PrivacyPreservingEngine.sanitize_query], and [str()] of
    the request dictionary handed to the batching engine. *)
Class QueryOracle : Type := {
  sanitize_query : string -> string;
  request_text : string -> string -> Q -> string
}.

(** The engines [optimize_query] reads and writes. *)
Record Optimizer `{TextOracle} : Type := mkOptimizer {
  batching_engine : AdaptiveBatchingEngine.Engine;
  cache_engine : Cache;
  privacy_engine : PrivacyPreservingEngine.Engine
}.

(** [__init__(cache_size)], given the fresh [TfidfVectorizer]. *)
Definition init `{TextOracle} (cache_size : Z) (v : Vectorizer) : Optimizer :=
  mkOptimizer _ (AdaptiveBatchingEngine.init 8 (1 # 2))
    (SemanticCacheEngine.init cache_size (85 # 100) v)
    (PrivacyPreservingEngine.init 1 (1 # 100000)).

(** The dictionary [optimize_query] returns: the one of a cache hit
    (['optimization_applied': 'semantic_cache_hit', 'cache_hit': True])
    or the one of a miss (['cache_miss': True]). *)
Inductive Plan : Type :=
| CacheHit (response : Response) (processing_time : Q)
| CacheMiss (sanitized_query : string) (optimization_path : InferencePath)
            (batch_id : Z) (preprocessing_time : Q).

(** The clock readings of one call of [optimize_query]. *)
Record QueryClock : Type := mkQueryClock {
  t_start : Q;
  t_lookup : Q;
  t_request : Q;
  t_return : Q
}.

(** [optimize_query(query, context_hash, model_complexity)]. The test
    [if cached_response:] takes an empty dictionary for no response. *)
Definition optimize_query `{TextOracle} `{QueryOracle}
    (query context_hash : string) (model_complexity : Q)
    (clk : QueryClock) (o : Optimizer) : Optimizer * Plan :=
  let start_time := t_start clk in
  let sanitized_query := sanitize_query query in
  let '(c1, cached_response) :=
    get_cached_response sanitized_query context_hash (t_lookup clk)
      (cache_engine o) in
  let miss :=
    let optimization_path :=
      optimize_inference_path model_complexity (6 # 10) in
    let '(b1, batch_id) :=
      AdaptiveBatchingEngine.add_request
        (request_text sanitized_query context_hash model_complexity)
        (t_request clk) (batching_engine o) in
    (mkOptimizer _ b1 c1 (privacy_engine o),
     CacheMiss sanitized_query optimization_path batch_id
       (t_return clk - start_time)) in
  match cached_response with
  | Some resp =>
      if (size resp =? 0)%nat then miss
      else
        (mkOptimizer _ (batching_engine o) c1 (privacy_engine o),
         CacheHit resp (t_return clk - start_time))
  | None => miss
  end.

(** [_calculate_cache_hit_rate()]; [None] when [get_cache_stats]
    raises. *)
Definition _calculate_cache_hit_rate `{TextOracle} `{StatsOracle}
    (c : Cache) : option Q :=
  match get_cache_stats c with
  | None => None
  | Some NoEntries => Some 0
  | Some (Stats size total_accesses _ _) =>
      if (size =? 0)%Z then Some 0
      else
        let rate := inject_Z total_accesses / inject_Z (Z.max 1 size) in
        Some (if Qlt_bool rate 1 then rate else 1)
  end.

(** ** Examples *)

(** A stand-in that leaves a query as it is and describes a request by
    its query. *)
Definition plain_queries : QueryOracle := {|
  sanitize_query := fun q => q;
  request_text := fun q _ _ => q
|}.

(** An optimizer whose cache holds an empty response for
    ["profit margin"]. *)
Definition empty_response_cached : @Optimizer flat_similarity :=
  mkOptimizer flat_similarity (AdaptiveBatchingEngine.init 8 (1 # 2))
    (cache_response "profit margin" "ctx" ∅ (at_time 1)
       (@SemanticCacheEngine.init flat_similarity 1000 (85 # 100) tt))
    (PrivacyPreservingEngine.init 1 (1 # 100000)).

End AdvancedMLOptimizer.

(* ===================================================================== *)
(** * Facts about the Python helpers                                     *)
(* ===================================================================== *)

Module PyFacts.

Local Open Scope Q_scope.

Lemma Qlt_bool_true (a b : Q) : Qlt_bool a b = true <-> a < b.
Proof.
  unfold Qlt_bool. rewrite negb_true_iff. split.
  - intros H. apply Qnot_le_lt. intros Hle.
    apply Qle_bool_iff in Hle. congruence.
  - intros H. destruct (Qle_bool b a) eqn:E; [|reflexivity].
    apply Qle_bool_iff in E. lra.
Qed.

Lemma Qlt_bool_false (a b : Q) : Qlt_bool a b = false <-> b <= a.
Proof.
  unfold Qlt_bool. rewrite negb_false_iff. apply Qle_bool_iff.
Qed.

Lemma Qle_bool_false (a b : Q) : Qle_bool a b = false <-> b < a.
Proof.
  split.
  - intros H. apply Qnot_le_lt. intros Hle.
    apply Qle_bool_iff in Hle. congruence.
  - intros H. destruct (Qle_bool a b) eqn:E; [|reflexivity].
    apply Qle_bool_iff in E. lra.
Qed.

(** The forms used to settle a comparison of constants by computation. *)
Lemma Qle_by_bool (a b : Q) : Qle_bool a b = true -> a <= b.
Proof. apply Qle_bool_iff. Qed.

Lemma Qlt_by_bool (a b : Q) : Qlt_bool a b = true -> a < b.
Proof. apply Qlt_bool_true. Qed.

Lemma fold_left_Qplus (l : list Q) (a : Q) :
  fold_left Qplus l a == a + Qsum l.
Proof.
  revert a. induction l as [|x l IH]; intros a; simpl.
  - lra.
  - rewrite IH. lra.
Qed.

Lemma sum_Qsum (l : list Q) : sum l == Qsum l.
Proof. unfold sum. rewrite fold_left_Qplus. lra. Qed.

Lemma Qsum_Permutation (l1 l2 : list Q) : l1 ≡ₚ l2 -> Qsum l1 == Qsum l2.
Proof.
  induction 1; simpl; try lra.
Qed.

Section Dict.
Context {V : Type}.
Implicit Types (d : odict V) (k : string) (v : V).

Lemma dict_get_set_eq k v d : dict_get k (dict_set k v d) = Some v.
Proof.
  induction d as [|[k' v'] d IH]; simpl.
  - by rewrite String.eqb_refl.
  - destruct (String.eqb k k') eqn:E; simpl.
    + by rewrite String.eqb_refl.
    + by rewrite E.
Qed.

Lemma dict_get_set_ne k k' v d :
  k <> k' -> dict_get k' (dict_set k v d) = dict_get k' d.
Proof.
  intros Hne. induction d as [|[k0 v0] d IH]; simpl.
  - destruct (String.eqb k' k) eqn:E; [|done].
    apply String.eqb_eq in E. congruence.
  - destruct (String.eqb k k0) eqn:E; simpl.
    + apply String.eqb_eq in E. subst k0.
      destruct (String.eqb k' k) eqn:E'; [|done].
      apply String.eqb_eq in E'. congruence.
    + by rewrite IH.
Qed.

Lemma dict_get_Some_elem k v d : dict_get k d = Some v -> (k, v) ∈ d.
Proof.
  induction d as [|[k' v'] d IH]; simpl; [done|].
  destruct (String.eqb k k') eqn:E.
  - apply String.eqb_eq in E. intros [= ->]. subst. left.
  - intros H. right. auto.
Qed.

Lemma dict_get_None_keys k d : dict_get k d = None <-> k ∉ keys d.
Proof.
  unfold keys. induction d as [|[k' v'] d IH]; simpl.
  - split; [intros _; apply not_elem_of_nil | done].
  - rewrite not_elem_of_cons. destruct (String.eqb k k') eqn:E.
    + apply String.eqb_eq in E. split; [done | intros [? _]; done].
    + apply String.eqb_neq in E. rewrite IH. tauto.
Qed.

Lemma elem_dict_get k v d : NoDup (keys d) -> (k, v) ∈ d -> dict_get k d = Some v.
Proof.
  unfold keys. induction d as [|[k' v'] d IH]; simpl; intros Hnd Hin.
  - by apply elem_of_nil in Hin.
  - apply NoDup_cons in Hnd as [Hk Hnd].
    apply elem_of_cons in Hin as [[= -> ->]|Hin].
    + by rewrite String.eqb_refl.
    + destruct (String.eqb k k') eqn:E.
      * apply String.eqb_eq in E. subst k'. exfalso. apply Hk.
        apply list_elem_of_fmap. by exists (k, v).
      * auto.
Qed.

Lemma length_dict_set_new k v d :
  dict_get k d = None -> length (dict_set k v d) = S (length d).
Proof.
  induction d as [|[k' v'] d IH]; simpl; [done|].
  destruct (String.eqb k k'); [done|]. simpl. auto.
Qed.

Lemma length_dict_set_old k v d :
  is_Some (dict_get k d) -> length (dict_set k v d) = length d.
Proof.
  induction d as [|[k' v'] d IH]; simpl.
  - by intros [? ?].
  - destruct (String.eqb k k'); [done|]. simpl. auto.
Qed.

(** Assigning to a key rewrites the entry in place or appends one. *)
Lemma dict_set_shape k v d :
  (exists d1 v0 d2, d = (d1 ++ (k, v0) :: d2)%list /\ (k ∉ keys d1)
                    /\ dict_set k v d = (d1 ++ (k, v) :: d2)%list)
  \/ ((k ∉ keys d) /\ dict_set k v d = (d ++ [(k, v)])%list).
Proof.
  unfold keys. induction d as [|[k' v'] d IH]; simpl.
  - right. split; [apply not_elem_of_nil | done].
  - destruct (String.eqb k k') eqn:E.
    + apply String.eqb_eq in E. subst k'. left.
      exists [], v', d. simpl. split; [done|]. split; [apply not_elem_of_nil|done].
    + apply String.eqb_neq in E.
      destruct IH as [(d1 & v0 & d2 & -> & Hk & ->)|[Hk ->]].
      * left. exists ((k', v') :: d1), v0, d2. simpl.
        split; [done|]. split; [|done].
        rewrite not_elem_of_cons. done.
      * right. split; [|done]. rewrite not_elem_of_cons. done.
Qed.

Lemma keys_dict_set_old k v d :
  is_Some (dict_get k d) -> keys (dict_set k v d) = keys d.
Proof.
  unfold keys. induction d as [|[k' v'] d IH]; simpl.
  - by intros [? ?].
  - destruct (String.eqb k k') eqn:E; simpl.
    + apply String.eqb_eq in E. by subst.
    + intros H. by rewrite IH.
Qed.

Lemma keys_dict_set_new k v d :
  dict_get k d = None -> keys (dict_set k v d) = (keys d ++ [k])%list.
Proof.
  unfold keys. induction d as [|[k' v'] d IH]; simpl; [done|].
  destruct (String.eqb k k') eqn:E; [done|]. simpl.
  intros H. by rewrite IH.
Qed.

Lemma NoDup_keys_dict_set k v d : NoDup (keys d) -> NoDup (keys (dict_set k v d)).
Proof.
  intros Hnd. destruct (dict_get k d) eqn:E.
  - by rewrite keys_dict_set_old.
  - rewrite keys_dict_set_new by done.
    apply NoDup_app. split; [done|]. split.
    + intros x Hx Hx'. apply list_elem_of_singleton in Hx'. subst x.
      by apply dict_get_None_keys in E.
    + apply NoDup_singleton.
Qed.

Lemma NoDup_values_key d k1 k2 v :
  NoDup (values d) -> (k1, v) ∈ d -> (k2, v) ∈ d -> k1 = k2.
Proof.
  unfold values. induction d as [|[k0 v0] d IH]; simpl; intros Hnd H1 H2.
  - by apply elem_of_nil in H1.
  - apply NoDup_cons in Hnd as [Hv Hnd].
    apply elem_of_cons in H1 as [E1|H1];
      apply elem_of_cons in H2 as [E2|H2]; simplify_eq; try done.
    + exfalso. apply Hv. apply list_elem_of_fmap. by exists (k2, v0).
    + exfalso. apply Hv. apply list_elem_of_fmap. by exists (k1, v0).
    + eauto.
Qed.

Lemma elem_dict_set k v d k' v' :
  (k', v') ∈ dict_set k v d -> (k', v') = (k, v) \/ (k', v') ∈ d.
Proof.
  destruct (dict_set_shape k v d) as [(d1 & v0 & d2 & -> & _ & ->)|[_ ->]].
  - rewrite !elem_of_app, !elem_of_cons. tauto.
  - rewrite elem_of_app, list_elem_of_singleton. tauto.
Qed.


Lemma dict_get_del_ne k k' d :
  k <> k' -> dict_get k' (dict_del k d) = dict_get k' d.
Proof.
  intros Hne. induction d as [|[k0 v0] d IH]; simpl; [done|].
  destruct (String.eqb k k0) eqn:E; simpl.
  - apply String.eqb_eq in E. subst k0.
    destruct (String.eqb k' k) eqn:E'; [|done].
    apply String.eqb_eq in E'. congruence.
  - by rewrite IH.
Qed.

Lemma elem_dict_del k d e : e ∈ dict_del k d -> e ∈ d.
Proof.
  induction d as [|[k0 v0] d IH]; simpl; [done|].
  destruct (String.eqb k k0).
  - intros. by right.
  - intros Hin. apply elem_of_cons in Hin as [->|Hin]; [left|right; auto].
Qed.

Lemma keys_dict_del_subseteq k d : keys (dict_del k d) ⊆ keys d.
Proof.
  intros k' Hk'. unfold keys in *.
  apply list_elem_of_fmap in Hk' as (e & -> & He).
  apply list_elem_of_fmap. exists e. split; [done|]. by apply elem_dict_del in He.
Qed.

Lemma NoDup_keys_dict_del k d : NoDup (keys d) -> NoDup (keys (dict_del k d)).
Proof.
  unfold keys. induction d as [|[k0 v0] d IH]; simpl; intros Hnd; [done|].
  apply NoDup_cons in Hnd as [Hk0 Hnd].
  destruct (String.eqb k k0); simpl; [done|].
  apply NoDup_cons. split; [|auto].
  intros Hin. apply Hk0. by apply (keys_dict_del_subseteq k d).
Qed.

Lemma dict_get_del_eq k d :
  NoDup (keys d) -> dict_get k (dict_del k d) = None.
Proof.
  unfold keys. induction d as [|[k0 v0] d IH]; simpl; intros Hnd; [done|].
  apply NoDup_cons in Hnd as [Hk0 Hnd].
  destruct (String.eqb k k0) eqn:E; simpl.
  - apply String.eqb_eq in E. subst k0. by apply dict_get_None_keys.
  - rewrite E. auto.
Qed.

Lemma length_dict_del k d :
  k ∈ keys d -> S (length (dict_del k d)) = length d.
Proof.
  unfold keys. induction d as [|[k0 v0] d IH]; simpl; intros Hin.
  - by apply elem_of_nil in Hin.
  - destruct (String.eqb k k0) eqn:E; simpl; [done|].
    apply String.eqb_neq in E.
    apply elem_of_cons in Hin as [?|Hin]; [done|]. by rewrite IH.
Qed.

Lemma dict_mem_keys k d : dict_mem k d = true <-> k ∈ keys d.
Proof.
  unfold dict_mem. destruct (dict_get k d) eqn:E.
  - split; [|done]. intros _.
    destruct (decide (k ∈ keys d)) as [|Hn]; [done|].
    apply dict_get_None_keys in Hn. congruence.
  - apply dict_get_None_keys in E. split; [done|]. intros. done.
Qed.

(** Deleting a list of keys one after the other. *)
Lemma del_all_get ks k d :
  NoDup (keys d) ->
  dict_get k (fold_left (fun d k => dict_del k d) ks d)
  = if bool_decide (k ∈ ks) then None else dict_get k d.
Proof.
  revert d. induction ks as [|k0 ks IH]; intros d Hnd; cbn [fold_left].
  - case_bool_decide as Hk; [by apply elem_of_nil in Hk | done].
  - rewrite IH by by apply NoDup_keys_dict_del.
    case_bool_decide as Hks; case_bool_decide as Hkks; try done.
    + exfalso. apply Hkks. by right.
    + apply elem_of_cons in Hkks as [->|?]; [|done].
      by apply dict_get_del_eq.
    + apply dict_get_del_ne. intros ->. apply Hkks. left.
Qed.

Lemma del_all_length ks d :
  NoDup (keys d) -> NoDup ks -> ks ⊆ keys d ->
  (length (fold_left (fun d k => dict_del k d) ks d) + length ks)%nat
  = length d.
Proof.
  revert d. induction ks as [|k0 ks IH]; intros d Hnd Hks Hsub; simpl.
  - lia.
  - apply NoDup_cons in Hks as [Hk0 Hks].
    rewrite <- (length_dict_del k0 d) by (apply Hsub; left).
    rewrite <- (IH (dict_del k0 d)); [lia| by apply NoDup_keys_dict_del |done|].
    intros k Hk.
    assert (Hne : k <> k0) by (intros ->; done).
    assert (Hin : k ∈ keys d) by (apply Hsub; by right).
    destruct (dict_get k (dict_del k0 d)) eqn:E.
    + apply dict_get_Some_elem in E. unfold keys.
      apply list_elem_of_fmap. by exists (k, v).
    + rewrite dict_get_del_ne in E by done.
      by apply dict_get_None_keys in E.
Qed.

Lemma del_all_NoDup ks d :
  NoDup (keys d) -> NoDup (keys (fold_left (fun d k => dict_del k d) ks d)).
Proof.
  revert d. induction ks as [|k0 ks IH]; intros d Hnd; simpl; [done|].
  apply IH. by apply NoDup_keys_dict_del.
Qed.

Lemma dict_del_absent k d : k ∉ keys d -> dict_del k d = d.
Proof.
  unfold keys. induction d as [|[k0 v0] d IH]; simpl; intros Hk; [done|].
  apply not_elem_of_cons in Hk as [Hne Hk].
  apply String.eqb_neq in Hne. rewrite Hne. by rewrite IH.
Qed.

Lemma elem_keys_get k d :
  k ∈ keys d <-> dict_get k d <> None.
Proof.
  split.
  - intros Hin Hnone. by apply dict_get_None_keys in Hnone.
  - intros Hsome. destruct (decide (k ∈ keys d)) as [|Hn]; [done|].
    by apply dict_get_None_keys in Hn.
Qed.

Lemma keys_dict_set_elem k k' v d :
  k' ∈ keys (dict_set k v d) <-> k' = k \/ k' ∈ keys d.
Proof.
  rewrite !elem_keys_get. destruct (decide (k' = k)) as [->|Hne].
  - rewrite dict_get_set_eq. split; [by left | done].
  - rewrite dict_get_set_ne by done. split; [by right | by intros [?|?]].
Qed.


End Dict.

Section Sorted.
Context {A : Type} (lt : A -> A -> bool).

Hypothesis lt_asym : forall a b, lt a b = true -> lt b a = false.
Hypothesis le_trans : forall a b c, le_of lt a b -> le_of lt b c -> le_of lt a c.

Lemma insert_stable_Permutation (x : A) (l : list A) :
  insert_stable lt x l ≡ₚ x :: l.
Proof.
  induction l as [|y l IH]; simpl; [done|].
  destruct (lt y x); [|done].
  rewrite IH. apply perm_swap.
Qed.

Lemma sorted_Permutation (l : list A) : sorted lt l ≡ₚ l.
Proof.
  induction l as [|x l IH]; simpl; [done|].
  rewrite insert_stable_Permutation. by rewrite IH.
Qed.

Lemma insert_stable_StronglySorted (x : A) (l : list A) :
  StronglySorted (le_of lt) l -> StronglySorted (le_of lt) (insert_stable lt x l).
Proof.
  induction l as [|y l IH]; simpl; intros Hs.
  - repeat constructor.
  - apply StronglySorted_inv in Hs as [Hs Hy].
    destruct (lt y x) eqn:E.
    + constructor; [by apply IH|].
      rewrite insert_stable_Permutation. constructor; [|done].
      by apply lt_asym.
    + constructor; [by constructor|].
      constructor; [done|].
      eapply Forall_impl; [exact Hy|].
      intros z Hz. by apply le_trans with y.
Qed.

Lemma sorted_StronglySorted (l : list A) : StronglySorted (le_of lt) (sorted lt l).
Proof.
  induction l as [|x l IH]; simpl; [constructor|].
  by apply insert_stable_StronglySorted.
Qed.

(** In a sorted list, an element strictly before another one stands
    to its left. *)
Lemma StronglySorted_lt_before (l : list A) (x y : A) :
  StronglySorted (le_of lt) l -> x ∈ l -> y ∈ l -> lt y x = true ->
  exists l1 l2 l3, l = (l1 ++ y :: l2 ++ x :: l3)%list.
Proof.
  induction l as [|z l IH]; intros Hs Hx Hy Hlt.
  - by apply elem_of_nil in Hx.
  - apply StronglySorted_inv in Hs as [Hs Hz].
    rewrite Forall_forall in Hz.
    apply elem_of_cons in Hx as [->|Hx].
    + (* [x] is the head: [y] cannot stand after it, nor be it *)
      apply elem_of_cons in Hy as [->|Hy].
      * rewrite (lt_asym _ _ Hlt) in Hlt. discriminate.
      * specialize (Hz _ Hy).
        unfold le_of in Hz. congruence.
    + apply elem_of_cons in Hy as [->|Hy].
      * apply list_elem_of_split in Hx as (l2 & l3 & ->).
        by exists [], l2, l3.
      * destruct (IH Hs Hx Hy Hlt) as (l1 & l2 & l3 & ->).
        by exists (z :: l1), l2, l3.
Qed.

End Sorted.


End PyFacts.

(* ===================================================================== *)
(** * Properties of AIMemoryManager                                      *)
(* ===================================================================== *)

Module AIMemoryManagerProps.

Import PyFacts AIMemoryManager.
Local Open Scope list_scope.
Local Open Scope Q_scope.

Implicit Types (h : list ModelInfo) (d : odict ref) (r : ref)
               (st : Manager).

Lemma is_loaded_valid h r : is_loaded h r = true -> (r < length h)%nat.
Proof.
  unfold is_loaded. intros H.
  destruct (decide (r < length h)%nat) as [|Hge]; [done|].
  rewrite list_lookup_total_alt, lookup_ge_None_2 in H by lia.
  done.
Qed.

(** Reading the store after one object has been rewritten: the object
    itself, a reference that denotes nothing, or another object. *)
Ltac alter_lookup :=
  match goal with
  | |- context [alter ?f ?r ?h !!! ?r'] =>
      destruct (decide (r = r')) as [<-|?];
      [ destruct (decide (r < length h)%nat);
        [ rewrite !list_lookup_total_alter_eq by done
        | rewrite !list_lookup_total_alt, list_lookup_alter_eq;
          rewrite lookup_ge_None_2 by lia ]
      | rewrite !list_lookup_total_alter_ne by done ]
  end.

Lemma usage_eq st :
  resident_gb st == usage_of (objects st) (loaded_models st).
Proof.
  unfold resident_gb, usage_of, loaded_refs.
  rewrite sum_Qsum.
  induction (loaded_models st) as [|[n r] d IH]; simpl; [reflexivity|].
  unfold weight at 1. simpl. destruct (is_loaded (objects st) r); simpl.
  - rewrite IH. reflexivity.
  - rewrite IH. lra.
Qed.

Lemma usage_of_app h d1 d2 :
  usage_of h (d1 ++ d2) == usage_of h d1 + usage_of h d2.
Proof.
  unfold usage_of. induction d1 as [|e d1 IH]; simpl; [lra|].
  rewrite IH. lra.
Qed.

Lemma usage_of_ext h h' d :
  (forall r, r ∈ values d -> weight h' r = weight h r) ->
  usage_of h' d = usage_of h d.
Proof.
  unfold usage_of, values. induction d as [|[n r] d IH]; simpl; intros H; [done|].
  rewrite H by left. rewrite IH; [done|].
  intros r' Hr'. apply H. by right.
Qed.

Lemma weight_alter_ne h (f : ModelInfo -> ModelInfo) r r' :
  r <> r' -> weight (alter f r h) r' = weight h r'.
Proof.
  intros Hne. unfold weight, is_loaded.
  by rewrite list_lookup_total_alter_ne.
Qed.

Lemma usage_of_alter_notin h (f : ModelInfo -> ModelInfo) r d :
  r ∉ values d -> usage_of (alter f r h) d = usage_of h d.
Proof.
  intros Hr. apply usage_of_ext. intros r' Hr'.
  apply weight_alter_ne. intros ->. done.
Qed.

(** Changing a field other than [size_gb] and [status] leaves every
    weight as it is. *)
Lemma weight_alter_same h (f : ModelInfo -> ModelInfo) r r' :
  (forall m, size_gb (f m) = size_gb m) ->
  (forall m, status (f m) = status m) ->
  weight (alter f r h) r' = weight h r'.
Proof.
  intros Hsize Hstatus. unfold weight, is_loaded.
  alter_lookup; by rewrite ?Hsize, ?Hstatus.
Qed.

Lemma size_alter_gen h (f : ModelInfo -> ModelInfo) r r' :
  (forall m, size_gb (f m) = size_gb m) ->
  size_gb (alter f r h !!! r') = size_gb (h !!! r').
Proof. intros Hf. alter_lookup; by rewrite ?Hf. Qed.

Lemma size_alter_status h s r r' :
  size_gb (alter (set_status s) r h !!! r') = size_gb (h !!! r').
Proof. by apply size_alter_gen. Qed.

Lemma is_loaded_unload h r :
  is_loaded (alter (set_status "unloaded") r h) r = false.
Proof.
  unfold is_loaded.
  destruct (decide (r < length h)%nat) as [Hlt|Hge].
  - by rewrite list_lookup_total_alter_eq by done.
  - rewrite !list_lookup_total_alt, list_lookup_alter_eq.
    by rewrite lookup_ge_None_2 by lia.
Qed.

Lemma usage_of_unload h d r :
  NoDup (values d) -> r ∈ values d -> is_loaded h r = true ->
  usage_of (alter (set_status "unloaded") r h) d
  == usage_of h d - size_gb (h !!! r).
Proof.
  unfold values. induction d as [|[n r0] d IH]; simpl; intros Hnd Hin Hl.
  - by apply elem_of_nil in Hin.
  - apply NoDup_cons in Hnd as [Hr0 Hnd].
    unfold usage_of. simpl. fold (usage_of (alter (set_status "unloaded") r h) d).
    fold (usage_of h d).
    destruct (decide (r = r0)) as [<-|Hne].
    + rewrite usage_of_alter_notin by done.
      unfold weight at 1 2. rewrite is_loaded_unload, Hl. lra.
    + apply elem_of_cons in Hin as [?|Hin]; [done|].
      rewrite weight_alter_ne by done. rewrite IH by done. lra.
Qed.

Lemma sizes_alter_status h s r l :
  sizes (alter (set_status s) r h) l = sizes h l.
Proof.
  unfold sizes. f_equal. apply map_ext. intros e. apply size_alter_status.
Qed.

Lemma size_unload_all log h r :
  size_gb (unload_all log h !!! r) = size_gb (h !!! r).
Proof.
  revert h. induction log as [|e log IH]; intros h; simpl; [done|].
  unfold unload_all in *. simpl. rewrite IH. apply size_alter_status.
Qed.

Lemma length_unload_all log h : length (unload_all log h) = length h.
Proof.
  revert h. induction log as [|e log IH]; intros h; simpl; [done|].
  unfold unload_all in *. simpl. rewrite IH. apply length_alter.
Qed.

Lemma lookup_unload_all_notin log h r :
  r ∉ map snd log -> unload_all log h !!! r = h !!! r.
Proof.
  revert h. induction log as [|e log IH]; intros h Hr; simpl; [done|].
  simpl in Hr. apply not_elem_of_cons in Hr as [Hne Hr].
  unfold unload_all in *. simpl. rewrite IH by done.
  by apply list_lookup_total_alter_ne.
Qed.

Lemma status_unload_all log h r :
  status (unload_all log h !!! r) = status (h !!! r)
  \/ status (unload_all log h !!! r) = "unloaded".
Proof.
  revert h. induction log as [|e log IH]; intros h; simpl; [by left|].
  unfold unload_all in *. simpl.
  destruct (IH (alter (set_status "unloaded") (snd e) h)) as [->| ->]; [|by right].
  destruct (decide (snd e = r)) as [<-|Hne].
  - destruct (decide (snd e < length h)%nat) as [Hlt|Hge].
    + right. by rewrite list_lookup_total_alter_eq by done.
    + left. rewrite !list_lookup_total_alt, list_lookup_alter_eq.
      by rewrite lookup_ge_None_2 by lia.
  - left. by rewrite list_lookup_total_alter_ne.
Qed.

Lemma is_loaded_unload_all_mono log h r :
  is_loaded (unload_all log h) r = true -> is_loaded h r = true.
Proof.
  unfold is_loaded. destruct (status_unload_all log h r) as [->| ->]; done.
Qed.

Lemma is_loaded_unload_all_in log h r :
  r ∈ map snd log -> is_loaded (unload_all log h) r = false.
Proof.
  revert h. induction log as [|e log IH]; intros h Hr; simpl in *.
  - by apply elem_of_nil in Hr.
  - unfold unload_all in *. simpl.
    destruct (decide (r ∈ map snd log)) as [Hin|Hnin]; [by apply IH|].
    apply elem_of_cons in Hr as [->|?]; [|done].
    unfold is_loaded.
    pose proof (lookup_unload_all_notin log
                  (alter (set_status "unloaded") (snd e) h) (snd e) Hnin) as E.
    unfold unload_all in E. rewrite E. apply is_loaded_unload.
Qed.

Lemma usage_of_unload_all h d log :
  NoDup (values d) -> NoDup (map snd log) ->
  (forall e, e ∈ log -> snd e ∈ values d /\ is_loaded h (snd e) = true) ->
  usage_of (unload_all log h) d == usage_of h d - sizes h log.
Proof.
  intros Hd. revert h. induction log as [|e log IH]; intros h Hnd Hlog.
  - unfold sizes. simpl. lra.
  - simpl in Hnd. apply NoDup_cons in Hnd as [He Hnd].
    destruct (Hlog e) as [Hin Hl]; [left|].
    change (unload_all (e :: log) h)
      with (unload_all log (alter (set_status "unloaded") (snd e) h)).
    rewrite IH; [|done|].
    + rewrite usage_of_unload by done.
      rewrite sizes_alter_status. unfold sizes. simpl. lra.
    + intros e' He'. destruct (Hlog e') as [Hin' Hl']; [by right|].
      split; [done|]. unfold is_loaded.
      rewrite list_lookup_total_alter_ne; [done|].
      intros Heq. apply He. rewrite Heq.
      apply list_elem_of_fmap. by exists e'.
Qed.

(** The float loop unloads a prefix of the list it is given. *)
Lemma unload_loop_shape cur tgt todo h freed :
  exists freed' log,
    unload_loop cur tgt todo h freed = (unload_all log h, freed', log)
    /\ (exists rest, todo = log ++ rest).
Proof.
  revert h freed. induction todo as [|[n r] todo IH]; intros h freed; simpl.
  - exists freed, []. split; [done|]. by exists [].
  - destruct (fle (fsub cur freed) tgt).
    + exists freed, []. split; [done|]. by eexists.
    + destruct (IH (alter (set_status "unloaded") r h)
                   (fadd freed (Fin (size_gb (h !!! r)))))
        as (freed' & log & -> & [rest ->]).
      exists freed', ((n, r) :: log). split; [done|]. by exists rest.
Qed.

Lemma unload_loop_spec cur tgt todo h freed :
  exists h' freed' log,
    unload_loop_exact cur tgt todo h freed = (h', freed', log)
    /\ h' = unload_all log h
    /\ freed' == freed + sizes h log
    /\ (exists rest, todo = log ++ rest)
    /\ (log = todo \/ cur - freed' <= tgt).
Proof.
  revert h freed. induction todo as [|[n r] todo IH]; intros h freed; simpl.
  - exists h, freed, []. unfold sizes. simpl.
    repeat split; [lra | by exists [] | by left].
  - destruct (Qle_bool (cur - freed) tgt) eqn:E.
    + exists h, freed, []. unfold sizes. simpl.
      repeat split; [lra | by eexists | right].
      by apply Qle_bool_iff.
    + destruct (IH (alter (set_status "unloaded") r h)
                   (freed + size_gb (h !!! r)))
        as (h' & freed' & log & -> & -> & Hf & [rest ->] & Hstop).
      exists (unload_all log (alter (set_status "unloaded") r h)), freed',
             ((n, r) :: log).
      repeat split.
      * rewrite Hf, sizes_alter_status. unfold sizes. simpl. lra.
      * by exists rest.
      * destruct Hstop as [Heq|Hle]; [left; by f_equal | by right].
Qed.
Lemma key_lt_asym h a b : key_lt h a b = true -> key_lt h b a = false.
Proof.
  unfold key_lt.
  set (pa := priority (h !!! snd a)). set (pb := priority (h !!! snd b)).
  set (ta := last_used (h !!! snd a)). set (tb := last_used (h !!! snd b)).
  destruct (Z.ltb_spec pa pb), (Z.ltb_spec pb pa),
           (Z.eqb_spec pa pb), (Z.eqb_spec pb pa); simpl; try lia; try done.
  intros Hab. apply Qlt_bool_true in Hab. apply Qlt_bool_false. lra.
Qed.

Lemma key_le_trans h a b c :
  le_of (key_lt h) a b -> le_of (key_lt h) b c -> le_of (key_lt h) a c.
Proof.
  unfold le_of, key_lt.
  set (pa := priority (h !!! snd a)). set (pb := priority (h !!! snd b)).
  set (pc := priority (h !!! snd c)).
  set (ta := last_used (h !!! snd a)). set (tb := last_used (h !!! snd b)).
  set (tc := last_used (h !!! snd c)).
  destruct (Z.ltb_spec pb pa), (Z.ltb_spec pc pb), (Z.ltb_spec pc pa),
           (Z.eqb_spec pb pa), (Z.eqb_spec pc pb), (Z.eqb_spec pc pa);
    simpl; try lia; try done.
  intros Hq1 Hq2. apply Qlt_bool_false in Hq1, Hq2. apply Qlt_bool_false. lra.
Qed.

Lemma models_to_unload_Permutation st :
  models_to_unload st ≡ₚ loaded_refs (objects st) (loaded_models st).
Proof. apply sorted_Permutation. Qed.

Lemma models_to_unload_sorted st :
  StronglySorted (le_of (key_lt (objects st))) (models_to_unload st).
Proof.
  apply sorted_StronglySorted.
  - apply key_lt_asym.
  - apply key_le_trans.
Qed.

Lemma elem_loaded_refs h d e :
  e ∈ loaded_refs h d <-> e ∈ d /\ is_loaded h (snd e) = true.
Proof.
  unfold loaded_refs. rewrite !list_elem_of_In, filter_In. done.
Qed.

Lemma sizes_loaded_refs h d : sizes h (loaded_refs h d) == usage_of h d.
Proof.
  unfold sizes, usage_of, loaded_refs.
  induction d as [|[n r] d IH]; simpl; [reflexivity|].
  unfold weight at 1. simpl. destruct (is_loaded h r); simpl; rewrite IH; lra.
Qed.

Lemma sizes_Permutation h l1 l2 : l1 ≡ₚ l2 -> sizes h l1 == sizes h l2.
Proof.
  intros Hp. unfold sizes. apply Qsum_Permutation. by apply fmap_Permutation.
Qed.

Lemma NoDup_loaded_refs h d :
  NoDup (values d) -> NoDup (map snd (loaded_refs h d)).
Proof.
  unfold values, loaded_refs. induction d as [|[n r] d IH]; simpl; intros Hnd.
  - constructor.
  - apply NoDup_cons in Hnd as [Hr Hnd].
    destruct (is_loaded h r); simpl; [|by apply IH].
    apply NoDup_cons. split; [|by apply IH].
    intros Hin. apply Hr. apply list_elem_of_fmap in Hin as (e & -> & He).
    apply list_elem_of_In, filter_In in He as [He _].
    apply list_elem_of_fmap. exists e. split; [done|]. by apply list_elem_of_In.
Qed.

(** What [_free_memory_for_model] does: it unloads a prefix of the sorted
    list of loaded models, and stops either with enough headroom or with
    nothing left to unload. *)
Lemma free_memory_spec req st :
  NoDup (values (loaded_models st)) ->
  exists log,
    free_memory_exact req st
    = (with_objects (unload_all log (objects st)) st, log)
    /\ (exists rest, models_to_unload st = log ++ rest)
    /\ usage_of (unload_all log (objects st)) (loaded_models st)
       == usage_of (objects st) (loaded_models st) - sizes (objects st) log
    /\ (usage_of (unload_all log (objects st)) (loaded_models st) + req
        <= max_memory_gb st
        \/ log = models_to_unload st).
Proof.
  intros Hnd. unfold free_memory_exact.
  destruct (Qle_bool (resident_gb st) (max_memory_gb st - req))
    eqn:E.
  - exists []. apply Qle_bool_iff in E. rewrite usage_eq in E.
    split; [by destruct st|].
    split; [by eexists|].
    unfold sizes. simpl. split; [lra|]. left. lra.
  - destruct (unload_loop_spec (resident_gb st)
                (max_memory_gb st - req) (models_to_unload st)
                (objects st) 0)
      as (h' & freed' & log & Hrun & -> & Hf & [rest Hrest] & Hstop).
    rewrite Hrun. exists log.
    split; [done|]. split; [by exists rest|].
    assert (Hu : usage_of (unload_all log (objects st)) (loaded_models st)
                 == usage_of (objects st) (loaded_models st)
                    - sizes (objects st) log).
    { apply usage_of_unload_all; [done| |].
      - pose proof (NoDup_loaded_refs (objects st) _ Hnd) as Hl.
        rewrite <- models_to_unload_Permutation, Hrest in Hl.
        rewrite map_app in Hl. by apply NoDup_app in Hl as [? _].
      - intros e He.
        assert (He' : e ∈ models_to_unload st).
        { rewrite Hrest. apply elem_of_app. by left. }
        rewrite models_to_unload_Permutation in He'.
        apply elem_loaded_refs in He' as [Hin Hl]. split; [|done].
        apply list_elem_of_fmap. by exists e. }
    split; [done|].
    destruct Hstop as [->|Hle]; [by right|left].
    rewrite Hu. rewrite usage_eq in Hle. lra.
Qed.
Lemma usage_all_unloaded st log :
  NoDup (values (loaded_models st)) ->
  usage_of (unload_all log (objects st)) (loaded_models st)
  == usage_of (objects st) (loaded_models st) - sizes (objects st) log ->
  log = models_to_unload st ->
  usage_of (unload_all log (objects st)) (loaded_models st) == 0.
Proof.
  intros Hnd Hu ->. rewrite Hu.
  rewrite (sizes_Permutation _ _ _ (models_to_unload_Permutation st)).
  rewrite sizes_loaded_refs. lra.
Qed.

(** The "Check memory availability" step, summarised. *)
Lemma make_room_spec req st :
  NoDup (values (loaded_models st)) ->
  exists log,
    make_room_exact req st = with_objects (unload_all log (objects st)) st
    /\ (exists rest, models_to_unload st = log ++ rest)
    /\ (usage_of (unload_all log (objects st)) (loaded_models st) + req
        <= max_memory_gb st
        \/ (log = models_to_unload st
            /\ usage_of (unload_all log (objects st)) (loaded_models st) == 0)).
Proof.
  intros Hnd. unfold make_room_exact.
  destruct (Qlt_bool (max_memory_gb st) (resident_gb st + req))
    eqn:E.
  - destruct (free_memory_spec req st Hnd) as (log & -> & Hpre & Hu & Hstop).
    exists log. split; [done|]. split; [done|].
    destruct Hstop as [?|Hall]; [by left|right].
    split; [done|]. by apply usage_all_unloaded.
  - exists []. split; [by destruct st|]. split; [by eexists|].
    left. apply Qlt_bool_false in E. rewrite usage_eq in E. exact E.
Qed.

Lemma wf_with_objects st h' :
  wf st -> length h' = length (objects st) -> wf (with_objects h' st).
Proof.
  intros [] Hlen. constructor; simpl; try done.
  - intros n r Hin. rewrite Hlen. eauto.
  - intros n r Hin. rewrite Hlen. eauto.
Qed.

Lemma already_loaded_None name st :
  already_loaded name st = None ->
  forall r, (name, r) ∈ loaded_models st -> NoDup (keys (loaded_models st)) ->
            is_loaded (objects st) r = false.
Proof.
  unfold already_loaded. intros H r Hin Hnd.
  rewrite (elem_dict_get _ _ _ Hnd Hin) in H.
  by destruct (is_loaded (objects st) r).
Qed.

(** The catalog object is referenced from [loaded_models] under its own
    name only; so writing it there keeps the references distinct. *)
Lemma NoDup_values_dict_set d name rs :
  NoDup (keys d) -> NoDup (values d) ->
  (forall n, (n, rs) ∈ d -> n = name) ->
  NoDup (values (dict_set name rs d)).
Proof.
  intros Hk Hv Hown.
  assert (Hnot : forall d0, d0 ⊆ d -> name ∉ keys d0 -> rs ∉ values d0).
  { intros d0 Hsub Hname Hin. unfold values in Hin.
    apply list_elem_of_fmap in Hin as ([n r] & -> & Hin). simpl in *.
    apply Hname. unfold keys. apply list_elem_of_fmap.
    exists (n, r). split; [|done]. simpl. symmetry. apply Hown. by apply Hsub. }
  destruct (dict_set_shape name rs d) as [(d1 & v0 & d2 & -> & Hn1 & ->)|[Hn ->]].
  - unfold keys, values in *. rewrite !map_app in *. simpl in *.
    apply NoDup_app in Hk as (_ & _ & Hk2). apply NoDup_cons in Hk2 as [Hn2 _].
    apply NoDup_app in Hv as (Hv1 & Hv12 & Hv2). apply NoDup_cons in Hv2 as [_ Hv2].
    apply NoDup_app. split; [done|]. split.
    + intros x Hx1 Hx2. apply elem_of_cons in Hx2 as [->|Hx2].
      * revert Hx1. apply (Hnot d1); [|done].
        intros e He. apply elem_of_app. by left.
      * apply (Hv12 x Hx1). by right.
    + apply NoDup_cons. split; [|done].
      apply (Hnot d2); [|done].
      intros e He. apply elem_of_app. right. by right.
  - unfold values. rewrite map_app. simpl. apply NoDup_app.
    split; [done|]. split; [|apply NoDup_singleton].
    intros x Hx Hx'. apply list_elem_of_singleton in Hx'. subst x.
    revert Hx. by apply (Hnot d).
Qed.
Lemma usage_of_cons h n r d :
  usage_of h ((n, r) :: d) = weight h r + usage_of h d.
Proof. reflexivity. Qed.

Lemma own_ref_notin d d0 name rs :
  (forall n, (n, rs) ∈ d -> n = name) ->
  d0 ⊆ d -> name ∉ keys d0 -> rs ∉ values d0.
Proof.
  intros Hown Hsub Hname Hin. unfold values in Hin.
  apply list_elem_of_fmap in Hin as ([n r] & -> & Hin). simpl in *.
  apply Hname. unfold keys. apply list_elem_of_fmap.
  exists (n, r). split; [|done]. simpl. symmetry. apply Hown. by apply Hsub.
Qed.

Lemma weight_alter_eq h (f : ModelInfo -> ModelInfo) r :
  (r < length h)%nat ->
  weight (alter f r h) r
  = if String.eqb (status (f (h !!! r))) "loaded"
    then size_gb (f (h !!! r)) else 0.
Proof.
  intros Hlt. unfold weight, is_loaded.
  by rewrite list_lookup_total_alter_eq by done.
Qed.

Lemma probe_and_register_eq name rs env st :
  probe_and_register name rs env st
  = match chat env with
    | Responds =>
        (mkManager (max_memory_gb st)
           (alter (loaded_obj env) rs (objects st))
           (dict_set name rs (loaded_models st)) (model_specs st), Some true)
    | Raises =>
        (with_objects (alter failed_obj rs (objects st)) st, Some false)
    | Interrupted =>
        (with_objects (alter (set_status "loading") rs (objects st)) st, None)
    end.
Proof.
  unfold probe_and_register, loaded_obj, failed_obj.
  destruct (chat env); by rewrite ?list_alter_alter_eq.
Qed.

Lemma probe_usage_ok name rs env st :
  wf st -> dict_get name (model_specs st) = Some rs ->
  already_loaded name st = None -> chat env = Responds ->
  usage_of (objects (fst (probe_and_register name rs env st)))
           (loaded_models (fst (probe_and_register name rs env st)))
  == usage_of (objects st) (loaded_models st) + size_gb (objects st !!! rs).
Proof.
  intros Hwf Hspec Hnot Hok. rewrite probe_and_register_eq, Hok. simpl.
  destruct Hwf as [Hk Hv Hsk Hsv Hval Hsval Hsh].
  apply dict_get_Some_elem in Hspec.
  assert (Hown : forall n, (n, rs) ∈ loaded_models st -> n = name) by eauto.
  assert (Hrs : (rs < length (objects st))%nat) by eauto.
  assert (Hw : weight (alter (loaded_obj env) rs (objects st)) rs
               = size_gb (objects st !!! rs)).
  { by rewrite weight_alter_eq. }
  assert (Hnl : forall r, (name, r) ∈ loaded_models st ->
                          weight (objects st) r = 0).
  { intros r Hin. unfold weight.
    by rewrite (already_loaded_None _ _ Hnot r Hin Hk). }
  destruct (dict_set_shape name rs (loaded_models st))
    as [(d1 & v0 & d2 & Hd & Hn1 & ->)|[Hn ->]].
  - assert (E : weight (objects st) v0 = 0).
    { apply Hnl. rewrite Hd. apply elem_of_app. right. left. }
    assert (Hn2 : name ∉ keys d2).
    { rewrite Hd in Hk. unfold keys in *. rewrite map_app in Hk. simpl in Hk.
      apply NoDup_app in Hk as (_ & _ & Hk2).
      by apply NoDup_cons in Hk2 as [? _]. }
    assert (Hs1 : d1 ⊆ loaded_models st).
    { intros e He. rewrite Hd. apply elem_of_app. by left. }
    assert (Hs2 : d2 ⊆ loaded_models st).
    { intros e He. rewrite Hd. apply elem_of_app. right. by right. }
    rewrite Hd, !usage_of_app, !usage_of_cons, Hw, E.
    rewrite !usage_of_alter_notin; [lra| |].
    + by apply (own_ref_notin (loaded_models st) d2 name).
    + by apply (own_ref_notin (loaded_models st) d1 name).
  - rewrite usage_of_app, usage_of_cons, Hw. unfold usage_of at 2. simpl.
    rewrite usage_of_alter_notin; [lra|].
    by apply (own_ref_notin (loaded_models st) _ name).
Qed.

Lemma probe_usage_fail name rs env st :
  wf st -> dict_get name (model_specs st) = Some rs ->
  already_loaded name st = None -> chat env <> Responds ->
  usage_of (objects (fst (probe_and_register name rs env st)))
           (loaded_models (fst (probe_and_register name rs env st)))
  = usage_of (objects st) (loaded_models st).
Proof.
  intros Hwf Hspec Hnot Hok. rewrite probe_and_register_eq.
  destruct Hwf as [Hk Hv Hsk Hsv Hval Hsval Hsh].
  apply dict_get_Some_elem in Hspec.
  assert (Hgen : forall f : ModelInfo -> ModelInfo,
            (forall m, String.eqb (status (f m)) "loaded" = false) ->
            usage_of (alter f rs (objects st)) (loaded_models st)
            = usage_of (objects st) (loaded_models st)).
  { intros f Hf. apply usage_of_ext. intros r Hr.
    destruct (decide (rs = r)) as [<-|Hne]; [|by apply weight_alter_ne].
    rewrite weight_alter_eq by eauto. rewrite Hf.
    unfold values in Hr. apply list_elem_of_fmap in Hr as ([n r] & -> & Hin).
    simpl. assert (n = name) as -> by eauto.
    unfold weight. by rewrite (already_loaded_None _ _ Hnot r Hin Hk). }
  destruct (chat env); [done| |]; simpl; by apply Hgen.
Qed.

Lemma probe_frame name rs env st :
  let st' := fst (probe_and_register name rs env st) in
  max_memory_gb st' = max_memory_gb st
  /\ model_specs st' = model_specs st
  /\ length (objects st') = length (objects st)
  /\ (forall r, size_gb (objects st' !!! r) = size_gb (objects st !!! r)).
Proof.
  simpl. rewrite probe_and_register_eq.
  destruct (chat env); simpl; repeat split;
    try apply length_alter; intros r; by apply size_alter_gen.
Qed.

Lemma probe_wf name rs env st :
  wf st -> dict_get name (model_specs st) = Some rs ->
  wf (fst (probe_and_register name rs env st)).
Proof.
  intros Hwf Hspec. rewrite probe_and_register_eq.
  destruct (chat env); simpl.
  - destruct Hwf as [Hk Hv Hsk Hsv Hval Hsval Hsh].
    apply dict_get_Some_elem in Hspec.
    constructor; simpl; try done.
    + by apply NoDup_keys_dict_set.
    + apply NoDup_values_dict_set; eauto.
    + intros n r Hin. rewrite length_alter.
      apply elem_dict_set in Hin as [[= -> ->]|Hin]; eauto.
    + intros n r Hin. rewrite length_alter. eauto.
    + intros n m r Hin Hm.
      apply elem_dict_set in Hin as [[= -> ->]|Hin]; [|eauto].
      by apply (NoDup_values_key (model_specs st) _ _ rs).
  - apply wf_with_objects; [done|]. apply length_alter.
  - apply wf_with_objects; [done|]. apply length_alter.
Qed.
(** ** The managers built by [__init__] are well formed *)

Lemma load_state_inv entries st :
  wf st ->
  wf (_load_state entries st)
  /\ max_memory_gb (_load_state entries st) = max_memory_gb st
  /\ model_specs (_load_state entries st) = model_specs st
  /\ (forall r, (r < length (objects st))%nat ->
                objects (_load_state entries st) !!! r = objects st !!! r).
Proof.
  revert st. induction entries as [|[n m] entries IH]; intros st Hwf; simpl.
  - done.
  - set (st1 := mkManager _ _ _ _).
    assert (Hwf1 : wf st1).
    { destruct Hwf as [Hk Hv Hsk Hsv Hval Hsval Hsh].
      assert (Hfresh : forall n', (n', length (objects st)) ∉ loaded_models st).
      { intros n' Hin. apply Hval in Hin. lia. }
      constructor; simpl; try done.
      - by apply NoDup_keys_dict_set.
      - apply NoDup_values_dict_set; [done|done|].
        intros n' Hin. by apply Hfresh in Hin.
      - intros n' r Hin. rewrite length_app. simpl.
        apply elem_dict_set in Hin as [[= -> ->]|Hin]; [lia|].
        apply Hval in Hin. lia.
      - intros n' r Hin. rewrite length_app. simpl.
        apply Hsval in Hin. lia.
      - intros n' m' r Hin Hm.
        apply elem_dict_set in Hin as [[= -> ->]|Hin]; [|eauto].
        apply Hsval in Hm. lia. }
    destruct (IH st1 Hwf1) as (Hw & Hm & Hs & Hobj).
    split; [done|]. split; [done|]. split; [done|].
    intros r Hr. rewrite Hobj by (simpl; rewrite length_app; lia).
    simpl. by rewrite lookup_total_app_l.
Qed.

Lemma catalog_only_wf budget :
  wf (mkManager budget [tinyllama_spec] [] [("tinyllama", 0%nat)]).
Proof.
  constructor; simpl.
  - constructor.
  - constructor.
  - apply NoDup_singleton.
  - apply NoDup_singleton.
  - intros n r Hin. by apply elem_of_nil in Hin.
  - intros n r Hin. apply list_elem_of_singleton in Hin. inversion Hin. lia.
  - intros n m r Hin. by apply elem_of_nil in Hin.
Qed.

Lemma init_wf arg detected state_file : wf (init arg detected state_file).
Proof. unfold init. apply load_state_inv, catalog_only_wf. Qed.

Lemma init_catalog_fits arg detected state_file :
  lit (6 # 10) <= max_memory_gb (init arg detected state_file) ->
  catalog_fits (init arg detected state_file).
Proof.
  unfold init.
  set (st0 := mkManager _ _ _ _).
  destruct (load_state_inv state_file st0 (catalog_only_wf _))
    as (_ & Hm & Hs & Hobj).
  intros Hle n r Hin. rewrite Hs in Hin. simpl in Hin.
  apply list_elem_of_singleton in Hin. inversion Hin; subst.
  rewrite Hobj by (simpl; lia).
  change (size_gb ([tinyllama_spec] !!! 0%nat)) with (lit (6 # 10)).
  split; [|exact Hle]. apply Qle_by_bool. vm_compute. reflexivity.
Qed.
(** ** C1: the budget invariant *)

Lemma catalog_fits_frame st st' :
  max_memory_gb st' = max_memory_gb st ->
  model_specs st' = model_specs st ->
  (forall r, size_gb (objects st' !!! r) = size_gb (objects st !!! r)) ->
  catalog_fits st -> catalog_fits st'.
Proof.
  intros Hm Hs Hsz Hfit n r Hin. rewrite Hs in Hin.
  rewrite Hm, Hsz. by apply (Hfit n).
Qed.

Lemma already_loaded_unload_all name st log :
  already_loaded name st = None ->
  already_loaded name (with_objects (unload_all log (objects st)) st) = None.
Proof.
  unfold already_loaded. simpl.
  destruct (dict_get name (loaded_models st)) as [r|]; [|done].
  destruct (is_loaded (objects st) r) eqn:E; [done|]. intros _.
  destruct (is_loaded (unload_all log (objects st)) r) eqn:E'; [|done].
  apply is_loaded_unload_all_mono in E'. congruence.
Qed.

(** The managers [make_room] can return: a prefix of the sorted list of
    loaded models has been unloaded. *)
Lemma free_memory_shape req st :
  exists log,
    _free_memory_for_model req st
    = (with_objects (unload_all log (objects st)) st, log)
    /\ (exists rest, models_to_unload st = log ++ rest).
Proof.
  unfold _free_memory_for_model.
  destruct (fle _ _).
  - exists []. split; [by destruct st|]. by eexists.
  - destruct (unload_loop_shape (_get_current_memory_usage st)
                (fsub (Fin (max_memory_gb st)) (Fin req))
                (models_to_unload st) (objects st) (Fin 0))
      as (freed' & log & -> & Hpre).
    by exists log.
Qed.

Lemma make_room_shape req st :
  exists log,
    make_room req st = with_objects (unload_all log (objects st)) st
    /\ (exists rest, models_to_unload st = log ++ rest).
Proof.
  unfold make_room.
  destruct (flt _ _).
  - destruct (free_memory_shape req st) as (log & -> & Hpre). by exists log.
  - exists []. split; [by destruct st|]. by eexists.
Qed.

(** Every manager reached from [__init__] by [smart_model_load] calls is
    well formed. *)
Lemma smart_model_load_wf name env st :
  wf st -> wf (fst (smart_model_load name env st)).
Proof.
  intros Hwf. unfold smart_model_load.
  destruct (already_loaded name st) as [r|]; simpl.
  - apply wf_with_objects; [done|]. by rewrite !length_alter.
  - destruct (dict_get name (model_specs st)) as [rs|] eqn:Hspec; [|done].
    destruct (make_room_shape (size_gb (objects st !!! rs)) st)
      as (log & -> & _).
    apply probe_wf; [|done].
    apply wf_with_objects; [done|]. apply length_unload_all.
Qed.

(** One call of [smart_model_load] keeps the manager well formed, the
    catalog within the budget, and the residents within the budget. *)
Lemma smart_model_load_inv name env st :
  wf st -> catalog_fits st -> within_budget st -> harmless_call name st ->
  wf (fst (smart_model_load name env st))
  /\ catalog_fits (fst (smart_model_load name env st))
  /\ within_budget (fst (smart_model_load name env st)).
Proof.
  intros Hwf Hfit Hbud Hharm. unfold smart_model_load, harmless_call in *.
  destruct (already_loaded name st) as [r|] eqn:Hal; simpl.
  - (* already loaded: only [last_used] and [usage_count] change *)
    split; [|split].
    + apply wf_with_objects; [done|]. by rewrite !length_alter.
    + apply (catalog_fits_frame st); try done.
      intros r'. simpl. by rewrite !size_alter_gen.
    + unfold within_budget in *. rewrite usage_eq in *. simpl.
      erewrite usage_of_ext; [exact Hbud|].
      intros r' _. by rewrite !weight_alter_same.
  - destruct (dict_get name (model_specs st)) as [rs|] eqn:Hspec; simpl;
      [|done].
    set (req := size_gb (objects st !!! rs)) in *.
    destruct (make_room_spec req st (wf_loaded_refs _ Hwf))
      as (log & Hroom & _ & Hstop).
    rewrite Hharm, Hroom.
    set (st1 := with_objects (unload_all log (objects st)) st) in *.
    assert (Hwf1 : wf st1).
    { apply wf_with_objects; [done|]. apply length_unload_all. }
    assert (Hal1 : already_loaded name st1 = None)
      by by apply already_loaded_unload_all.
    assert (Hspec1 : dict_get name (model_specs st1) = Some rs) by done.
    assert (Hfit1 : catalog_fits st1).
    { apply (catalog_fits_frame st); try done.
      intros r. apply size_unload_all. }
    destruct (probe_frame name rs env st1) as (Hm & Hs & Hlen & Hsz).
    assert (Hreq : 0 <= req <= max_memory_gb st).
    { apply (Hfit name). by apply dict_get_Some_elem. }
    assert (Hsz1 : size_gb (objects st1 !!! rs) = req)
      by apply size_unload_all.
    split; [by apply probe_wf|]. split.
    + by apply (catalog_fits_frame st1).
    + unfold within_budget. rewrite usage_eq, Hm. simpl.
      destruct (chat env) eqn:Hok.
      * rewrite probe_usage_ok, Hsz1 by done. simpl.
        destruct Hstop as [Hle|[_ Hz]]; [done|]. rewrite Hz. lra.
      * rewrite probe_usage_fail by (done || congruence). simpl.
        destruct Hstop as [Hle|[_ Hz]]; [lra|]. rewrite Hz. lra.
      * rewrite probe_usage_fail by (done || congruence). simpl.
        destruct Hstop as [Hle|[_ Hz]]; [lra|]. rewrite Hz. lra.
Qed.




(** ** C2: a load for which eviction cannot make room *)

Lemma status_after_unload log h r :
  (forall e, e ∈ log -> is_loaded h (snd e) = true) ->
  is_loaded (unload_all log h) r = false ->
  status (unload_all log h !!! r)
  = if is_loaded h r then "unloaded" else status (h !!! r).
Proof.
  intros Hlog Hafter.
  destruct (is_loaded h r) eqn:El.
  - destruct (status_unload_all log h r) as [Heq|Heq]; [|done].
    unfold is_loaded in *. rewrite Heq in Hafter. congruence.
  - rewrite lookup_unload_all_notin; [done|].
    intros Hin. apply list_elem_of_fmap in Hin as (e & -> & He).
    apply Hlog in He. congruence.
Qed.

(** C2 (amended). When the headroom is still short after the eviction
    step and no loaded model is left to unload, [smart_model_load] goes
    on with the probe: it returns what the probe returns, with the
    requested model "loaded" and registered, or "unloaded"; only an
    interrupted probe leaves the call without a result and the model
    "loading". Every other model of [loaded_models] that was loaded is
    "unloaded" afterwards, and one that was not keeps its status. *)
Theorem load_without_headroom name env st rs :
  wf st ->
  already_loaded name st = None ->
  dict_get name (model_specs st) = Some rs ->
  flt (Fin (max_memory_gb st))
      (fadd (_get_current_memory_usage
               (make_room (size_gb (objects st !!! rs)) st))
            (Fin (size_gb (objects st !!! rs)))) = true ->
  (forall n r, (n, r) ∈ loaded_models st ->
     is_loaded (objects (make_room (size_gb (objects st !!! rs)) st)) r
     = false) ->
  snd (smart_model_load name env st)
  = match chat env with
    | Responds => Some true
    | Raises => Some false
    | Interrupted => None
    end
  /\ status (objects (fst (smart_model_load name env st)) !!! rs)
     = match chat env with
       | Responds => "loaded"
       | Raises => "unloaded"
       | Interrupted => "loading"
       end
  /\ loaded_models (fst (smart_model_load name env st))
     = match chat env with
       | Responds => dict_set name rs (loaded_models st)
       | _ => loaded_models st
       end
  /\ (forall n r, (n, r) ∈ loaded_models st -> n <> name ->
        status (objects (fst (smart_model_load name env st)) !!! r)
        = if is_loaded (objects st) r then "unloaded"
          else status (objects st !!! r)).
Proof.
  intros Hwf Hal Hspec Hshort Hnone. unfold smart_model_load.
  rewrite Hal, Hspec. simpl.
  set (req := size_gb (objects st !!! rs)) in *.
  destruct (make_room_shape req st) as (log & Hroom & [rest Hpre]).
  rewrite Hroom in *. simpl in Hnone.
  rewrite probe_and_register_eq.
  apply dict_get_Some_elem in Hspec.
  assert (Hrs : (rs < length (unload_all log (objects st)))%nat).
  { rewrite length_unload_all. by apply (wf_specs_valid _ Hwf name). }
  assert (Hlog : forall e, e ∈ log -> is_loaded (objects st) (snd e) = true).
  { intros e He.
    assert (He' : e ∈ loaded_refs (objects st) (loaded_models st)).
    { rewrite <- models_to_unload_Permutation, Hpre.
      apply elem_of_app. by left. }
    by apply elem_loaded_refs in He' as [_ ?]. }
  assert (Hothers : forall n r, (n, r) ∈ loaded_models st -> n <> name ->
            forall f : ModelInfo -> ModelInfo,
            status (alter f rs (unload_all log (objects st)) !!! r)
            = if is_loaded (objects st) r then "unloaded"
              else status (objects st !!! r)).
  { intros n r Hin Hne f.
    assert (rs <> r).
    { intros <-. apply Hne. by apply (wf_shared _ Hwf n name rs). }
    rewrite list_lookup_total_alter_ne by done.
    apply status_after_unload; [done|]. by apply (Hnone n). }
  destruct (chat env); simpl.
  - split; [done|]. split; [|split; [done|]].
    + by rewrite list_lookup_total_alter_eq.
    + intros n r Hin Hne. by apply (Hothers n).
  - split; [done|]. split; [|split; [done|]].
    + by rewrite list_lookup_total_alter_eq.
    + intros n r Hin Hne. by apply (Hothers n).
  - split; [done|]. split; [|split; [done|]].
    + by rewrite list_lookup_total_alter_eq.
    + intros n r Hin Hne. by apply (Hothers n).
Qed.

Lemma load_without_headroom_witness :
  snd (smart_model_load "tinyllama" probe_cancelled one_loading) = None
  /\ status (objects (fst (smart_model_load "tinyllama" probe_cancelled
                             one_loading)) !!! 0%nat) = "loading"
  /\ loaded_models (fst (smart_model_load "tinyllama" probe_cancelled
                           one_loading))
     = loaded_models one_loading
  /\ (forall n r, (n, r) ∈ loaded_models one_loading -> n <> "tinyllama" ->
        status (objects (fst (smart_model_load "tinyllama" probe_cancelled
                                one_loading)) !!! r)
        = if is_loaded (objects one_loading) r then "unloaded"
          else status (objects one_loading !!! r)).
Proof.
  apply (load_without_headroom "tinyllama" probe_cancelled one_loading 0%nat).
  - apply init_wf.
  - reflexivity.
  - reflexivity.
  - vm_compute. reflexivity.
  - intros n r Hin. vm_compute in Hin.
    apply elem_of_cons in Hin as [[= -> ->]|Hin]; [vm_compute; reflexivity|].
    apply list_elem_of_singleton in Hin as [= -> ->]. vm_compute. reflexivity.
Defined.

(** In [tight_budget], after the eviction step the approved model still
    does not fit and nothing is left to unload; the call does not fail,
    it returns [True] with the model loaded, and the manager has
    changed. *)
Lemma no_resource_exhausted :
  flt (Fin (max_memory_gb tight_budget))
      (fadd (_get_current_memory_usage
               (make_room (lit (6 # 10)) tight_budget))
            (Fin (lit (6 # 10)))) = true
  /\ smart_model_load "tinyllama" probe_ok tight_budget
     = (mkManager (5 # 10)
          [mkModelInfo "tinyllama" (lit (6 # 10)) 102 (101 - 100) 1 1 "loaded";
           mkModelInfo "A" (lit (3 # 10)) 10 0 3 1 "unloaded"]
          [("A", 1%nat); ("tinyllama", 0%nat)]
          [("tinyllama", 0%nat)],
        Some true)
  /\ fst (smart_model_load "tinyllama" probe_ok tight_budget) <> tight_budget.
Proof.
  split; [|split].
  - vm_compute. reflexivity.
  - vm_compute. reflexivity.
  - intros H. apply (f_equal loaded_models) in H. vm_compute in H. discriminate.
Qed.
(** ** C3: the order of eviction *)

Lemma free_memory_log_prefix req st :
  exists rest, models_to_unload st = snd (_free_memory_for_model req st) ++ rest.
Proof.
  destruct (free_memory_shape req st) as (log & -> & Hpre). done.
Qed.

(** C3 (amended). The models are unloaded in ascending order of
    [(priority, last_used)]: when a resident model [X] is unloaded, every
    resident model [Y] with a smaller priority number, or with the same
    priority and an older [last_used], has been unloaded before it. *)
Theorem eviction_order req st X Y :
  X ∈ loaded_refs (objects st) (loaded_models st) ->
  Y ∈ loaded_refs (objects st) (loaded_models st) ->
  (priority (objects st !!! snd Y) < priority (objects st !!! snd X))%Z
  \/ (priority (objects st !!! snd Y) = priority (objects st !!! snd X)
      /\ last_used (objects st !!! snd Y) < last_used (objects st !!! snd X)) ->
  X ∈ snd (_free_memory_for_model req st) ->
  exists l1 l2 l3,
    snd (_free_memory_for_model req st) = l1 ++ Y :: l2 ++ X :: l3.
Proof.
  intros HX HY Hkey Hin.
  assert (Hlt : key_lt (objects st) Y X = true).
  { unfold key_lt. destruct Hkey as [Hp|[Hp Ht]].
    - apply Z.ltb_lt in Hp. by rewrite Hp.
    - rewrite Hp, Z.eqb_refl. apply Qlt_bool_true in Ht. rewrite Ht.
      apply orb_true_r. }
  destruct (free_memory_log_prefix req st) as [rest Hpre].
  pose proof (models_to_unload_sorted st) as Hs. rewrite Hpre in Hs.
  assert (HY' : Y ∈ snd (_free_memory_for_model req st) ++ rest).
  { rewrite <- Hpre, models_to_unload_Permutation. done. }
  apply elem_of_app in HY' as [HY'|HY'].
  - apply (StronglySorted_lt_before (key_lt (objects st))); try done.
    + apply key_lt_asym.
    + by apply StronglySorted_app_1_l in Hs.
  - pose proof (StronglySorted_app_1_elem_of _ _ _ _ _ Hs Hin HY') as Hle.
    unfold le_of in Hle. congruence.
Qed.

Lemma eviction_order_witness :
  exists l1 l2 l3,
    snd (_free_memory_for_model 2 two_models)
    = l1 ++ ("A", 1%nat) :: l2 ++ ("B", 2%nat) :: l3.
Proof.
  apply (eviction_order 2 two_models ("B", 2%nat) ("A", 1%nat)).
  - vm_compute. right. left.
  - vm_compute. left.
  - left. vm_compute. reflexivity.
  - vm_compute. right. left.
Defined.

(** With A (priority 1, last used at 10) and B (priority 2, last used at
    20) resident and the approved model needing less than B's space, the
    load unloads A and nothing else: B stays loaded. Among models of equal
    priority the older one goes first. *)
Lemma priority_one_evicted_first :
  snd (_free_memory_for_model (lit (6 # 10)) two_models) = [("A", 1%nat)]
  /\ map status (objects (fst (smart_model_load "tinyllama" probe_ok two_models)))
     = ["loaded"; "unloaded"; "loaded"]
  /\ snd (_free_memory_for_model (lit (6 # 10)) equal_priority)
     = [("old", 2%nat)].
Proof. repeat split; vm_compute; reflexivity. Qed.

(** ** C10: the selected model *)

(** C10. [get_optimal_model] returns "tinyllama" for every task type,
    every urgency and every manager. *)
Theorem get_optimal_model_constant task_type urgency st :
  get_optimal_model task_type urgency st = "tinyllama".
Proof.
  unfold get_optimal_model.
  by destruct (String.eqb urgency "high" && _).
Qed.

(** ** Further properties of the manager *)

(** The usage is read off the loaded flags and the sizes alone. *)
Lemma usage_same_flags st h' :
  (forall r, is_loaded h' r = is_loaded (objects st) r) ->
  (forall r, size_gb (h' !!! r) = size_gb (objects st !!! r)) ->
  _get_current_memory_usage (with_objects h' st) = _get_current_memory_usage st.
Proof.
  intros Hl Hs. unfold _get_current_memory_usage. simpl. f_equal.
  unfold loaded_refs.
  induction (loaded_models st) as [|[n r] d IH]; simpl; [done|].
  rewrite Hl. destruct (is_loaded (objects st) r); simpl; by rewrite ?Hs, IH.
Qed.

Lemma is_loaded_alter_same h (f : ModelInfo -> ModelInfo) r r' :
  (forall m, status (f m) = status m) ->
  is_loaded (alter f r h) r' = is_loaded h r'.
Proof.
  intros Hf. unfold is_loaded. alter_lookup; by rewrite ?Hf.
Qed.

Lemma already_loaded_Some name st r :
  already_loaded name st = Some r ->
  dict_get name (loaded_models st) = Some r /\ is_loaded (objects st) r = true.
Proof.
  unfold already_loaded.
  destruct (dict_get name (loaded_models st)) as [r0|]; [|done].
  destruct (is_loaded (objects st) r0) eqn:E; [|done].
  by intros [= <-].
Qed.

(** X1. A model that is already loaded is reused: the call returns
    [True] whatever the probe would do, the object gains one use and the
    new [last_used], no other object and no dictionary changes, and the
    memory usage is the same. *)
Theorem reuse_loaded_model name env st r :
  already_loaded name st = Some r ->
  snd (smart_model_load name env st) = Some true
  /\ loaded_models (fst (smart_model_load name env st)) = loaded_models st
  /\ model_specs (fst (smart_model_load name env st)) = model_specs st
  /\ objects (fst (smart_model_load name env st)) !!! r
     = incr_usage_count (set_last_used (t_touch env) (objects st !!! r))
  /\ (forall r', r' <> r ->
        objects (fst (smart_model_load name env st)) !!! r'
        = objects st !!! r')
  /\ _get_current_memory_usage (fst (smart_model_load name env st))
     = _get_current_memory_usage st.
Proof.
  intros Hal. unfold smart_model_load. rewrite Hal. simpl.
  apply already_loaded_Some in Hal as [_ Hl].
  apply is_loaded_valid in Hl.
  repeat split.
  - rewrite list_lookup_total_alter_eq by by rewrite length_alter.
    by rewrite list_lookup_total_alter_eq.
  - intros r' Hne. by rewrite !list_lookup_total_alter_ne.
  - apply usage_same_flags.
    + intros r'. by rewrite !is_loaded_alter_same.
    + intros r'. by rewrite !size_alter_gen.
Qed.

Lemma reuse_loaded_model_witness :
  snd (smart_model_load "A" probe_raises two_models) = Some true
  /\ objects (fst (smart_model_load "A" probe_raises two_models)) !!! 1%nat
     = mkModelInfo "A" 1 200 0 4 1 "loaded".
Proof.
  destruct (reuse_loaded_model "A" probe_raises two_models 1%nat eq_refl)
    as (Hok & _ & _ & Hobj & _).
  split; [exact Hok|]. exact (eq_trans Hobj eq_refl).
Defined.

(** What a call that reaches the probe returns. *)
Lemma smart_model_load_probe name env st rs :
  already_loaded name st = None ->
  dict_get name (model_specs st) = Some rs ->
  exists log,
    smart_model_load name env st
    = match chat env with
      | Responds =>
          (mkManager (max_memory_gb st)
             (alter (loaded_obj env) rs (unload_all log (objects st)))
             (dict_set name rs (loaded_models st)) (model_specs st),
           Some true)
      | Raises =>
          (with_objects
             (alter failed_obj rs (unload_all log (objects st))) st,
           Some false)
      | Interrupted =>
          (with_objects
             (alter (set_status "loading") rs (unload_all log (objects st)))
             st,
           None)
      end.
Proof.
  intros Hal Hspec. unfold smart_model_load. rewrite Hal, Hspec.
  destruct (make_room_shape (size_gb (objects st !!! rs)) st)
    as (log & -> & _).
  exists log. by rewrite probe_and_register_eq.
Qed.

Lemma success_is_loaded name env st :
  wf st -> snd (smart_model_load name env st) = Some true ->
  exists r, already_loaded name (fst (smart_model_load name env st)) = Some r.
Proof.
  intros Hwf Hok.
  destruct (already_loaded name st) as [r|] eqn:Hal.
  - exists r. unfold smart_model_load. rewrite Hal. simpl.
    apply already_loaded_Some in Hal as [Hget Hl].
    unfold already_loaded. simpl. rewrite Hget.
    by rewrite !is_loaded_alter_same, Hl.
  - destruct (dict_get name (model_specs st)) as [rs|] eqn:Hspec.
    + destruct (smart_model_load_probe name env st rs Hal Hspec)
        as [log Hrun]. rewrite Hrun in *.
      destruct (chat env); [|done|done]. simpl.
      exists rs. unfold already_loaded. simpl.
      rewrite dict_get_set_eq. unfold is_loaded.
      rewrite list_lookup_total_alter_eq; [done|].
      rewrite length_unload_all.
      apply (wf_specs_valid _ Hwf name). by apply dict_get_Some_elem.
    + unfold smart_model_load in Hok. by rewrite Hal, Hspec in Hok.
Qed.

(** X2. After a call that returned [True] the model is registered in
    [loaded_models] with status "loaded", so the next call for it returns
    [True] as well, even when the probe would raise. *)
Theorem load_then_reuse name env env' st :
  wf st -> snd (smart_model_load name env st) = Some true ->
  (exists r, already_loaded name (fst (smart_model_load name env st)) = Some r)
  /\ snd (smart_model_load name env' (fst (smart_model_load name env st)))
     = Some true.
Proof.
  intros Hwf Hok. destruct (success_is_loaded name env st Hwf Hok) as [r Hr].
  split; [by exists r|]. unfold smart_model_load at 1. by rewrite Hr.
Qed.

Lemma load_then_reuse_witness :
  snd (smart_model_load "tinyllama" probe_raises
         (fst (smart_model_load "tinyllama" probe_ok two_models)))
  = Some true.
Proof.
  apply (load_then_reuse "tinyllama" probe_ok probe_raises two_models).
  - apply init_wf.
  - reflexivity.
Defined.
Lemma free_memory_objects req st :
  fst (_free_memory_for_model req st)
  = with_objects (unload_all (snd (_free_memory_for_model req st)) (objects st))
                 st.
Proof.
  by destruct (free_memory_shape req st) as (log & -> & _).
Qed.

Lemma free_memory_accounting req st :
  NoDup (values (loaded_models st)) ->
  resident_gb (fst (_free_memory_for_model req st))
  == resident_gb st
     - sizes (objects st) (snd (_free_memory_for_model req st)).
Proof.
  intros Hnd.
  destruct (free_memory_shape req st) as (log & -> & [rest Hrest]).
  rewrite !usage_eq. simpl.
  apply usage_of_unload_all; [done| |].
  - pose proof (NoDup_loaded_refs (objects st) _ Hnd) as Hl.
    rewrite <- models_to_unload_Permutation, Hrest in Hl.
    rewrite map_app in Hl. by apply NoDup_app in Hl as [? _].
  - intros e He.
    assert (He' : e ∈ models_to_unload st).
    { rewrite Hrest. apply elem_of_app. by left. }
    rewrite models_to_unload_Permutation in He'.
    apply elem_loaded_refs in He' as [Hin Hl]. split; [|done].
    apply list_elem_of_fmap. by exists e.
Qed.

Lemma freed_after_alter h s r freed l :
  freed_after (alter (set_status s) r h) freed l = freed_after h freed l.
Proof.
  revert freed. induction l as [|e l IH]; intros freed; simpl; [done|].
  by rewrite size_alter_status, IH.
Qed.

Lemma unload_loop_stop cur tgt todo h freed :
  snd (unload_loop cur tgt todo h freed) = todo
  \/ fle (fsub cur (freed_after h freed (snd (unload_loop cur tgt todo h freed))))
         tgt = true.
Proof.
  revert h freed. induction todo as [|[n r] todo IH]; intros h freed; simpl.
  - by left.
  - destruct (fle (fsub cur freed) tgt) eqn:E; simpl; [by right|].
    specialize (IH (alter (set_status "unloaded") r h)
                   (fadd freed (Fin (size_gb (h !!! r))))).
    destruct (unload_loop cur tgt todo _ _) as [[h' freed'] log]. simpl in *.
    rewrite freed_after_alter in IH.
    destruct IH as [->|IH]; [by left | by right].
Qed.

(** X3. Eviction frees what it reports, whatever the rounding: the sum
    of the sizes of the loaded models goes down by exactly the sizes of
    the models unloaded. It stops only when its own test passes, on the
    floats it has computed, or when nothing is left to unload. *)
Theorem eviction_accounting req st :
  NoDup (values (loaded_models st)) ->
  let log := snd (_free_memory_for_model req st) in
  let target_usage := fsub (Fin (max_memory_gb st)) (Fin req) in
  resident_gb (fst (_free_memory_for_model req st))
  == resident_gb st - sizes (objects st) log
  /\ (log = models_to_unload st
      \/ (log = [] /\ fle (_get_current_memory_usage st) target_usage = true)
      \/ fle (fsub (_get_current_memory_usage st)
                   (freed_after (objects st) (Fin 0) log))
             target_usage = true).
Proof.
  intros Hnd log target_usage. split; [by apply free_memory_accounting|].
  subst log target_usage. unfold _free_memory_for_model.
  destruct (fle (_get_current_memory_usage st) _) eqn:E; simpl.
  - right. by left.
  - pose proof (unload_loop_stop (_get_current_memory_usage st)
                  (fsub (Fin (max_memory_gb st)) (Fin req))
                  (models_to_unload st) (objects st) (Fin 0)) as Hstop.
    destruct (unload_loop _ _ _ _ _) as [[h' freed'] log]. simpl in *.
    destruct Hstop as [->|Hstop]; [by left|]. right. by right.
Qed.

Lemma eviction_accounting_witness :
  resident_gb (fst (_free_memory_for_model (lit (6 # 10)) two_models))
  == resident_gb two_models
     - sizes (objects two_models)
             (snd (_free_memory_for_model (lit (6 # 10)) two_models)).
Proof.
  apply (eviction_accounting (lit (6 # 10)) two_models).
  apply (wf_loaded_refs _ (init_wf _ _ _)).
Defined.

Lemma unload_loop_needed cur tgt todo h freed l X l' :
  snd (unload_loop cur tgt todo h freed) = l ++ X :: l' ->
  fle (fsub cur (freed_after h freed l)) tgt = false.
Proof.
  revert h freed l. induction todo as [|[n r] todo IH]; intros h freed l;
    simpl.
  - intros Heq. by destruct l.
  - destruct (fle (fsub cur freed) tgt) eqn:E; simpl.
    + intros Heq. by destruct l.
    + specialize (IH (alter (set_status "unloaded") r h)
                     (fadd freed (Fin (size_gb (h !!! r))))).
      destruct (unload_loop cur tgt todo _ _) as [[h' freed'] log]. simpl in *.
      destruct l as [|e l]; simpl.
      * intros _. done.
      * intros [= <- Heq]. specialize (IH l Heq).
        by rewrite freed_after_alter in IH.
Qed.

(** X4. Eviction unloads a model only when its test says so: each model
    in the list of unloaded models was unloaded when the float
    [current_usage - freed_memory], with the sizes of the models before
    it added up in [freed_memory], was not at most the float
    [max_memory_gb - required_gb]. *)
Theorem eviction_is_needed req st l X l' :
  snd (_free_memory_for_model req st) = l ++ X :: l' ->
  fle (fsub (_get_current_memory_usage st)
            (freed_after (objects st) (Fin 0) l))
      (fsub (Fin (max_memory_gb st)) (Fin req)) = false.
Proof.
  unfold _free_memory_for_model.
  destruct (fle _ _); simpl; [intros Heq; by destruct l|].
  pose proof (unload_loop_needed (_get_current_memory_usage st)
                (fsub (Fin (max_memory_gb st)) (Fin req))
                (models_to_unload st) (objects st) (Fin 0) l X l') as Hn.
  destruct (unload_loop _ _ _ _ _) as [[h' freed'] log]. simpl in *.
  intros Heq. by apply Hn.
Qed.

Lemma eviction_is_needed_witness :
  fle (fsub (_get_current_memory_usage two_models)
            (freed_after (objects two_models) (Fin 0) [("A", 1%nat)]))
      (fsub (Fin (max_memory_gb two_models)) (Fin 2)) = false.
Proof.
  apply (eviction_is_needed 2 two_models [("A", 1%nat)] ("B", 2%nat) []).
  vm_compute. reflexivity.
Defined.

Lemma lookup_unload_all_in log h r :
  r ∈ map snd log -> (r < length h)%nat ->
  unload_all log h !!! r = set_status "unloaded" (h !!! r).
Proof.
  revert h. induction log as [|e log IH]; intros h Hin Hlt; simpl in *.
  - by apply elem_of_nil in Hin.
  - change (unload_all (e :: log) h)
      with (unload_all log (alter (set_status "unloaded") (snd e) h)).
    destruct (decide (r ∈ map snd log)) as [Hin'|Hnin].
    + rewrite IH by (by rewrite ?length_alter).
      destruct (decide (snd e = r)) as [->|Hne].
      * by rewrite list_lookup_total_alter_eq.
      * by rewrite list_lookup_total_alter_ne.
    + apply elem_of_cons in Hin as [->|?]; [|done].
      rewrite lookup_unload_all_notin by done.
      by rewrite list_lookup_total_alter_eq.
Qed.

(** X5. Eviction removes nothing and rewrites nothing but a status: the
    dictionaries, the budget and the number of objects stay, an object
    that was not unloaded is left as it was, and an unloaded one differs
    from before in its status only, which is "unloaded". *)
Theorem eviction_changes_status_only req st :
  loaded_models (fst (_free_memory_for_model req st)) = loaded_models st
  /\ model_specs (fst (_free_memory_for_model req st)) = model_specs st
  /\ max_memory_gb (fst (_free_memory_for_model req st)) = max_memory_gb st
  /\ length (objects (fst (_free_memory_for_model req st)))
     = length (objects st)
  /\ (forall r, r ∉ map snd (snd (_free_memory_for_model req st)) ->
        objects (fst (_free_memory_for_model req st)) !!! r
        = objects st !!! r)
  /\ (forall n r, (n, r) ∈ snd (_free_memory_for_model req st) ->
        (n, r) ∈ loaded_models st
        /\ status (objects st !!! r) = "loaded"
        /\ objects (fst (_free_memory_for_model req st)) !!! r
           = set_status "unloaded" (objects st !!! r)).
Proof.
  rewrite free_memory_objects. simpl.
  repeat split; try done.
  - apply length_unload_all.
  - intros r Hr. by apply lookup_unload_all_notin.
  - destruct (free_memory_log_prefix req st) as [rest Hpre].
    assert (Hin : (n, r) ∈ loaded_refs (objects st) (loaded_models st)).
    { rewrite <- models_to_unload_Permutation, Hpre.
      apply elem_of_app. by left. }
    by apply elem_loaded_refs in Hin as [? _].
  - destruct (free_memory_log_prefix req st) as [rest Hpre].
    assert (Hin : (n, r) ∈ loaded_refs (objects st) (loaded_models st)).
    { rewrite <- models_to_unload_Permutation, Hpre.
      apply elem_of_app. by left. }
    apply elem_loaded_refs in Hin as [_ Hl]. simpl in Hl.
    unfold is_loaded in Hl. by apply String.eqb_eq in Hl.
  - destruct (free_memory_log_prefix req st) as [rest Hpre].
    assert (Hin : (n, r) ∈ loaded_refs (objects st) (loaded_models st)).
    { rewrite <- models_to_unload_Permutation, Hpre.
      apply elem_of_app. by left. }
    apply elem_loaded_refs in Hin as [_ Hl]. simpl in Hl.
    apply lookup_unload_all_in; [|by apply is_loaded_valid].
    apply list_elem_of_fmap. by exists (n, r).
Qed.
Lemma status_alter_failed h (rs : ref) r :
  status (alter failed_obj rs h !!! r) = status (h !!! r)
  \/ status (alter failed_obj rs h !!! r) = "unloaded".
Proof. alter_lookup; [by right | by left | by left]. Qed.

(** What a call that returned [False] was: an unknown model, or a probe
    that raised. *)
Lemma failed_load_cases name env st :
  snd (smart_model_load name env st) = Some false ->
  already_loaded name st = None
  /\ (dict_get name (model_specs st) = None
      /\ fst (smart_model_load name env st) = st
      \/ exists rs log,
           dict_get name (model_specs st) = Some rs
           /\ chat env = Raises
           /\ fst (smart_model_load name env st)
              = with_objects
                  (alter failed_obj rs (unload_all log (objects st))) st).
Proof.
  intros Hfail.
  destruct (already_loaded name st) as [r|] eqn:Hal.
  { unfold smart_model_load in Hfail. by rewrite Hal in Hfail. }
  split; [done|].
  destruct (dict_get name (model_specs st)) as [rs|] eqn:Hspec.
  - right. destruct (smart_model_load_probe name env st rs Hal Hspec)
      as [log Hrun]. rewrite Hrun in *.
    destruct (chat env); [done| |done]. by exists rs, log.
  - left. split; [done|]. unfold smart_model_load. by rewrite Hal, Hspec.
Qed.

(** What a call that did not return was: a probe that was interrupted. *)
Lemma interrupted_load_cases name env st :
  snd (smart_model_load name env st) = None ->
  already_loaded name st = None /\ chat env = Interrupted.
Proof.
  intros Hnone.
  destruct (already_loaded name st) as [r|] eqn:Hal.
  { unfold smart_model_load in Hnone. by rewrite Hal in Hnone. }
  split; [done|].
  destruct (dict_get name (model_specs st)) as [rs|] eqn:Hspec.
  - destruct (smart_model_load_probe name env st rs Hal Hspec)
      as [log Hrun]. rewrite Hrun in *.
    by destruct (chat env).
  - unfold smart_model_load in Hnone. by rewrite Hal, Hspec in Hnone.
Qed.

Lemma failed_load_frame name env st :
  snd (smart_model_load name env st) = Some false ->
  loaded_models (fst (smart_model_load name env st)) = loaded_models st
  /\ (forall r, is_loaded (objects (fst (smart_model_load name env st))) r
                = true ->
                is_loaded (objects st) r = true)
  /\ (forall r, status (objects (fst (smart_model_load name env st)) !!! r)
                = "loading" ->
                status (objects st !!! r) = "loading").
Proof.
  intros Hfail.
  destruct (failed_load_cases name env st Hfail)
    as (_ & [(_ & ->)|(rs & log & _ & _ & ->)]); [done|].
  unfold with_objects. cbn [objects loaded_models]. split; [done|].
  assert (Hst : forall r,
    status (alter failed_obj rs (unload_all log (objects st)) !!! r)
    = status (objects st !!! r)
    \/ status (alter failed_obj rs (unload_all log (objects st)) !!! r)
       = "unloaded").
  { intros r.
    destruct (status_alter_failed (unload_all log (objects st)) rs r)
      as [->|?]; [|by right].
    apply status_unload_all. }
  split; intros r; unfold is_loaded; destruct (Hst r) as [->| ->]; done.
Qed.

(** X6. A call that returns [False] registers nothing and loads nothing:
    [loaded_models] is as before, every model that is loaded afterwards
    was loaded before, and no model is left in "loading" that was not
    there before. *)
Theorem failed_load_loads_nothing name env st :
  snd (smart_model_load name env st) = Some false ->
  loaded_models (fst (smart_model_load name env st)) = loaded_models st
  /\ (forall r, is_loaded (objects (fst (smart_model_load name env st))) r
                = true ->
                is_loaded (objects st) r = true)
  /\ (forall r, status (objects (fst (smart_model_load name env st)) !!! r)
                = "loading" ->
                status (objects st !!! r) = "loading").
Proof. apply failed_load_frame. Qed.

Lemma failed_load_loads_nothing_witness :
  loaded_models (fst (smart_model_load "tinyllama" probe_raises two_models))
  = loaded_models two_models.
Proof.
  apply (failed_load_loads_nothing "tinyllama" probe_raises two_models).
  reflexivity.
Defined.

Lemma smart_model_load_specs name env st :
  model_specs (fst (smart_model_load name env st)) = model_specs st
  /\ max_memory_gb (fst (smart_model_load name env st)) = max_memory_gb st.
Proof.
  unfold smart_model_load.
  destruct (already_loaded name st); [done|].
  destruct (dict_get name (model_specs st)) as [rs|]; [|done].
  destruct (make_room_shape (size_gb (objects st !!! rs)) st)
    as (log & -> & _).
  rewrite probe_and_register_eq. by destruct (chat env).
Qed.

(** X7. Every manager reached from [__init__] by [smart_model_load]
    calls is well formed: one entry per name, no object registered under
    two names, and the catalog object of a model registered under that
    model's name only. *)
Theorem reachable_wf arg detected state_file calls :
  wf (init arg detected state_file)
  /\ Forall wf (run_loads calls (init arg detected state_file)).
Proof.
  split; [apply init_wf|].
  generalize (init_wf arg detected state_file).
  generalize (init arg detected state_file).
  induction calls as [|[n env] calls IH]; intros st Hwf; simpl;
    [constructor|].
  constructor; [by apply smart_model_load_wf|].
  by apply IH, smart_model_load_wf.
Qed.

Lemma get_optimal_model_tinyllama task urgency st :
  get_optimal_model task urgency st = "tinyllama".
Proof.
  unfold get_optimal_model. by destruct (String.eqb urgency "high" && _).
Qed.

(** X9. The model [get_optimal_model] selects is known to the catalog of
    every manager reached from [__init__]: [check_model_availability]
    accepts it, so [smart_model_load] never rejects it as unknown. *)
Theorem optimal_model_available arg detected state_file calls task urgency :
  Forall (fun st =>
            check_model_availability (get_optimal_model task urgency st) st
            = true)
         (init arg detected state_file
          :: run_loads calls (init arg detected state_file)).
Proof.
  assert (H0 : model_specs (init arg detected state_file)
               = [("tinyllama", 0%nat)]).
  { unfold init.
    by destruct (load_state_inv state_file _ (catalog_only_wf
         (match arg with
          | Some q => if Qeq_bool q 0 then detected else q
          | None => detected
          end))) as (_ & _ & -> & _). }
  revert H0. generalize (init arg detected state_file). intros st Hspecs.
  assert (Hall : forall st', model_specs st' = [("tinyllama", 0%nat)] ->
            check_model_availability (get_optimal_model task urgency st') st'
            = true).
  { intros st' Hs. rewrite get_optimal_model_tinyllama.
    unfold check_model_availability. by rewrite Hs. }
  constructor; [by apply Hall|].
  revert st Hspecs. induction calls as [|[n env] calls IH]; intros st Hs;
    simpl; [constructor|].
  assert (Hs' : model_specs (fst (smart_model_load n env st))
                = [("tinyllama", 0%nat)]).
  { by rewrite (proj1 (smart_model_load_specs n env st)). }
  constructor; [by apply Hall|]. by apply IH.
Qed.
(** ** The checkpoint *)

Lemma keys_save_state st : keys (_save_state st) = keys (loaded_models st).
Proof.
  unfold _save_state, keys. rewrite map_map. by apply map_ext.
Qed.

Lemma save_state_app_objects st (extra : list ModelInfo) d :
  (forall n r, (n, r) ∈ d -> (r < length (objects st))%nat) ->
  map (fun e : string * ref => (fst e, (objects st ++ extra) !!! snd e)) d
  = map (fun e : string * ref => (fst e, objects st !!! snd e)) d.
Proof.
  intros Hvalid. induction d as [|[n r] d IH]; simpl; [done|].
  rewrite lookup_total_app_l by (apply (Hvalid n); left).
  rewrite IH; [done|]. intros n' r' Hin. apply (Hvalid n'). by right.
Qed.

Lemma load_state_save entries st :
  NoDup (keys entries) ->
  (forall k, k ∈ keys entries -> k ∉ keys (loaded_models st)) ->
  (forall n r, (n, r) ∈ loaded_models st -> (r < length (objects st))%nat) ->
  _save_state (_load_state entries st) = _save_state st ++ entries.
Proof.
  revert st. induction entries as [|[n m] entries IH];
    intros st Hnd Hfresh Hvalid; simpl.
  - by rewrite app_nil_r.
  - unfold keys in Hnd. simpl in Hnd. apply NoDup_cons in Hnd as [Hn Hnd].
    assert (Hnew : n ∉ keys (loaded_models st)) by (apply Hfresh; left).
    assert (Hset : dict_set n (length (objects st)) (loaded_models st)
                   = loaded_models st ++ [(n, length (objects st))]).
    { destruct (dict_set_shape n (length (objects st)) (loaded_models st))
        as [(d1 & v0 & d2 & Hd & _ & _)|[_ ->]]; [|done].
      exfalso. apply Hnew. rewrite Hd. unfold keys. rewrite map_app. simpl.
      apply elem_of_app. right. left. }
    rewrite IH; [| done | |].
    + unfold _save_state at 1. simpl. rewrite Hset, map_app. simpl.
      rewrite save_state_app_objects by done.
      rewrite list_lookup_total_middle by done.
      by rewrite <- app_assoc.
    + simpl. intros k Hk. rewrite Hset. unfold keys. rewrite map_app. simpl.
      rewrite elem_of_app, list_elem_of_singleton.
      intros [Hin| ->]; [|done].
      revert Hin. apply Hfresh. by right.
    + simpl. intros n' r Hin. rewrite Hset in Hin. rewrite length_app. simpl.
      apply elem_of_app in Hin as [Hin|Hin].
      * apply Hvalid in Hin. lia.
      * apply list_elem_of_singleton in Hin. inversion Hin. lia.
Qed.

Lemma usage_of_checkpoint st :
  _get_current_memory_usage st
  = fsum (map size_gb
            (List.filter (fun m => String.eqb (status m) "loaded")
                         (values (_save_state st)))).
Proof.
  unfold _get_current_memory_usage, _save_state, loaded_refs, values.
  f_equal. induction (loaded_models st) as [|[n r] d IH]; simpl; [done|].
  unfold is_loaded at 1.
  destruct (String.eqb (status (objects st !!! r)) "loaded"); simpl;
    by rewrite IH.
Qed.

(** X8. The checkpoint survives a restart: a manager built by
    [__init__] from the checkpoint that [_save_state] wrote holds the
    same model records under the same names in the same order, and
    reports the same memory usage. *)
Theorem checkpoint_round_trip arg detected st :
  NoDup (keys (loaded_models st)) ->
  _save_state (init arg detected (_save_state st)) = _save_state st
  /\ _get_current_memory_usage (init arg detected (_save_state st))
     = _get_current_memory_usage st.
Proof.
  intros Hnd.
  assert (Hrt : _save_state (init arg detected (_save_state st))
                = _save_state st).
  { unfold init. rewrite load_state_save; [done| | |].
    - by rewrite keys_save_state.
    - intros k _. apply not_elem_of_nil.
    - intros n r Hin. by apply elem_of_nil in Hin. }
  split; [done|]. by rewrite !usage_of_checkpoint, Hrt.
Qed.

Lemma checkpoint_round_trip_witness :
  _save_state
    (init None 8
       (_save_state (fst (smart_model_load "tinyllama" probe_ok two_models))))
  = _save_state (fst (smart_model_load "tinyllama" probe_ok two_models)).
Proof.
  apply (checkpoint_round_trip None 8
           (fst (smart_model_load "tinyllama" probe_ok two_models))).
  apply (wf_loaded_keys _ (smart_model_load_wf _ _ _ (init_wf _ _ _))).
Defined.

(** ** [initialize] and the callers *)

(** X10. [initialize] returns [True] only when the Ollama check passed
    and the approved model is loaded afterwards; when the check fails it
    returns [False] and leaves the manager as it was. *)
Theorem initialize_loads_primary ollama_status env st :
  wf st ->
  (snd (initialize ollama_status env st) = Some true ->
   ollama_status = true
   /\ exists r,
        already_loaded "tinyllama" (fst (initialize ollama_status env st))
        = Some r)
  /\ (ollama_status = false ->
      initialize ollama_status env st = (st, Some false)).
Proof.
  intros Hwf. unfold initialize. destruct ollama_status; split; try done.
  intros Hok. split; [done|]. by apply success_is_loaded.
Qed.

Lemma initialize_loads_primary_witness :
  exists r, already_loaded "tinyllama" (fst (initialize true probe_ok two_models))
            = Some r.
Proof.
  apply (proj1 (initialize_loads_primary true probe_ok two_models
                  (init_wf _ _ _))).
  reflexivity.
Defined.
Lemma failed_load_keeps_unloaded name env st :
  snd (smart_model_load name env st) = Some false ->
  already_loaded name (fst (smart_model_load name env st)) = None.
Proof.
  intros Hfail.
  destruct (failed_load_frame name env st Hfail) as (Hd & Hl).
  destruct (failed_load_cases name env st Hfail) as (Hal & _).
  unfold already_loaded in *. rewrite Hd.
  destruct (dict_get name (loaded_models st)) as [r|]; [|done].
  destruct (is_loaded (objects (fst (smart_model_load name env st))) r) eqn:E;
    [|done].
  apply Hl in E. by rewrite E in Hal.
Qed.

Import NaturalLanguageAnalytics.

(** X11. The loading steps of [process_query] end with 'tinyllama'
    loaded, raise, or are left by an interrupted probe; they raise only
    when the model was not loaded and both probes raised, and they are
    interrupted only when a probe was. *)
Theorem load_for_query_result urgency env1 env2 st rs :
  wf st ->
  dict_get "tinyllama" (model_specs st) = Some rs ->
  match snd (load_for_query urgency env1 env2 st) with
  | Ready model_name =>
      model_name = "tinyllama"
      /\ exists r,
           already_loaded "tinyllama"
             (fst (load_for_query urgency env1 env2 st)) = Some r
  | GaveUp =>
      already_loaded "tinyllama" st = None
      /\ chat env1 = Raises /\ chat env2 = Raises
  | Aborted =>
      already_loaded "tinyllama" st = None
      /\ (chat env1 = Interrupted
          \/ (chat env1 = Raises /\ chat env2 = Interrupted))
  end.
Proof.
  intros Hwf Hspec. unfold load_for_query.
  rewrite get_optimal_model_tinyllama.
  pose proof (success_is_loaded "tinyllama" env1 st Hwf) as H1.
  pose proof (failed_load_cases "tinyllama" env1 st) as F1.
  pose proof (failed_load_keeps_unloaded "tinyllama" env1 st) as K1.
  pose proof (interrupted_load_cases "tinyllama" env1 st) as I1.
  pose proof (smart_model_load_wf "tinyllama" env1 st Hwf) as Hwf1.
  pose proof (smart_model_load_specs "tinyllama" env1 st) as [Hs1 _].
  destruct (smart_model_load "tinyllama" env1 st) as [st1 [[|]|]];
    simpl in *.
  - split; [done|]. by apply H1.
  - pose proof (success_is_loaded "tinyllama" env2 st1 Hwf1) as H2.
    pose proof (failed_load_cases "tinyllama" env2 st1) as F2.
    pose proof (interrupted_load_cases "tinyllama" env2 st1) as I2.
    destruct (F1 eq_refl) as (Hal & [(Hnone & _)|(? & ? & _ & Hc1 & _)]);
      [congruence|].
    destruct (smart_model_load "tinyllama" env2 st1) as [st2 [[|]|]];
      simpl in *.
    + split; [done|]. by apply H2.
    + destruct (F2 eq_refl) as (_ & [(Hnone & _)|(? & ? & _ & Hc2 & _)]);
        [congruence|]. done.
    + destruct (I2 eq_refl) as (_ & Hc2). split; [done|]. right. done.
  - destruct (I1 eq_refl) as (Hal & Hc1). split; [done|]. by left.
Qed.

Lemma load_for_query_result_witness :
  snd (load_for_query "high" probe_raises probe_ok two_models)
  = Ready "tinyllama".
Proof.
  pose proof (load_for_query_result "high" probe_raises probe_ok two_models
                0%nat (init_wf _ _ _) eq_refl) as Hres.
  destruct (snd (load_for_query "high" probe_raises probe_ok two_models))
    as [model_name| |] eqn:E.
  - destruct Hres as [-> _]. reflexivity.
  - destruct Hres as (_ & _ & Hraise). discriminate Hraise.
  - destruct Hres as (_ & [Hc|[_ Hc]]); discriminate Hc.
Defined.

End AIMemoryManagerProps.

(* ===================================================================== *)
(** * Properties of AdaptiveBatchingEngine                               *)
(* ===================================================================== *)

Module AdaptiveBatchingEngineProps.

Import PyFacts AdaptiveBatchingEngine.
Local Open Scope list_scope.
Local Open Scope Q_scope.

Implicit Types (e : Engine) (p b : list Request).

(** The [while] loop moves the first [optimal_size - len(batch)] requests,
    or all of them, from the queue to the batch. *)
Lemma drain_loop_take s p b :
  drain_loop s p b
  = (drop (Z.to_nat (s - Z.of_nat (length b))) p,
     b ++ take (Z.to_nat (s - Z.of_nat (length b))) p).
Proof.
  revert b. induction p as [|req p IH]; intros b; simpl.
  - by rewrite drop_nil, take_nil, app_nil_r.
  - destruct (Z.ltb_spec (Z.of_nat (length b)) s) as [Hlt|Hge].
    + rewrite IH, length_app. simpl.
      replace (Z.to_nat (s - Z.of_nat (length b)))
        with (S (Z.to_nat (s - Z.of_nat (length b + 1)))) by lia.
      simpl. by rewrite <- app_assoc.
    + replace (Z.to_nat (s - Z.of_nat (length b))) with 0%nat by lia.
      simpl. by rewrite app_nil_r.
Qed.

Lemma get_optimal_batch_take cpu mem e :
  get_optimal_batch cpu mem e
  = (with_pending
       (drop (Z.to_nat (_predict_optimal_batch_size cpu mem e))
             (pending_requests e)) e,
     take (Z.to_nat (_predict_optimal_batch_size cpu mem e))
          (pending_requests e)).
Proof.
  unfold get_optimal_batch.
  destruct (pending_requests e) as [|req p] eqn:E.
  - rewrite drop_nil, take_nil. destruct e. simpl in *. by subst.
  - rewrite drain_loop_take. simpl. by rewrite Z.sub_0_r.
Qed.

Lemma try_size_ge_1 model features best size :
  (1 <= fst best)%Z -> (1 <= size)%Z ->
  (1 <= fst (try_size model features best size))%Z.
Proof.
  intros Hb Hs. unfold try_size.
  destruct (model _); [|done].
  destruct (snd best); [|done].
  by destruct (Qlt_bool _ _).
Qed.

Lemma fold_try_size_ge_1 model features sizes best :
  (1 <= fst best)%Z -> Forall (fun s => (1 <= s)%Z) sizes ->
  (1 <= fst (fold_left (try_size model features) sizes best))%Z.
Proof.
  revert best. induction sizes as [|s sizes IH]; intros best Hb Hs; simpl.
  - done.
  - apply Forall_cons in Hs as [Hs1 Hs]. apply IH; [|done].
    by apply try_size_ge_1.
Qed.

(** When every prediction raises, the loop leaves [best_size] at 1. *)
Lemma fold_try_size_raises model features sizes best :
  (forall f, model f = None) ->
  fold_left (try_size model features) sizes best = best.
Proof.
  intros Hraise. induction sizes as [|s sizes IH]; simpl; [done|].
  unfold try_size at 2. by rewrite Hraise.
Qed.

Lemma predict_with_model_ge_1 cpu mem e model :
  performance_model e = Some model -> pending_requests e <> [] ->
  (1 <= _predict_optimal_batch_size cpu mem e)%Z.
Proof.
  intros Hm Hp. unfold _predict_optimal_batch_size. rewrite Hm.
  destruct (pending_requests e) as [|req p] eqn:E; [done|].
  apply fold_try_size_ge_1; [simpl; lia|].
  apply Forall_forall. intros s Hs. apply elem_of_seqZ in Hs. lia.
Qed.

Lemma predict_without_model cpu mem e :
  performance_model e = None ->
  _predict_optimal_batch_size cpu mem e
  = Z.min (Z.of_nat (length (pending_requests e))) (max_batch_size e).
Proof. intros Hm. unfold _predict_optimal_batch_size. by rewrite Hm. Qed.

Lemma predict_raises cpu mem e model :
  performance_model e = Some model -> (forall f, model f = None) ->
  pending_requests e <> [] ->
  _predict_optimal_batch_size cpu mem e = 1%Z.
Proof.
  intros Hm Hraise Hp. unfold _predict_optimal_batch_size. rewrite Hm.
  destruct (pending_requests e) as [|req p] eqn:E; [done|].
  by rewrite fold_try_size_raises.
Qed.

(** ** C4: a released batch is not empty *)

(** C4 (amended). If the pending queue holds a request, and
    [max_batch_size] is at least 1 or an estimator is present, then
    [get_optimal_batch] returns a batch that is not empty, whatever the
    estimator predicts or raises. *)
Theorem batch_nonempty cpu mem e :
  pending_requests e <> [] ->
  (1 <= max_batch_size e)%Z \/ performance_model e <> None ->
  snd (get_optimal_batch cpu mem e) <> [].
Proof.
  intros Hp Hcfg. rewrite get_optimal_batch_take. simpl.
  assert (Hsize : (1 <= _predict_optimal_batch_size cpu mem e)%Z).
  { destruct (performance_model e) as [model|] eqn:Hm.
    - by apply (predict_with_model_ge_1 _ _ _ model).
    - destruct Hcfg as [Hmax|?]; [|done].
      rewrite predict_without_model by done.
      destruct (pending_requests e); [done|]. simpl length. lia. }
  destruct (pending_requests e) as [|req p]; [done|].
  destruct (Z.to_nat (_predict_optimal_batch_size cpu mem e)) eqn:E; [lia|].
  done.
Qed.

Lemma batch_nonempty_witness :
  snd (get_optimal_batch 50 50 broken_model) <> [].
Proof.
  apply batch_nonempty.
  - vm_compute. discriminate.
  - left. vm_compute. discriminate.
Defined.

(** An engine built with [max_batch_size=0] and no estimator yet: one
    request is pending and the batch is empty. *)
Lemma empty_batch_with_pending_request :
  pending_requests zero_batch_size <> []
  /\ snd (get_optimal_batch 50 50 zero_batch_size) = [].
Proof. split; [vm_compute; discriminate | reflexivity]. Qed.
(** ** C8: the numbers returned by [add_request] *)

Lemma run_enqueues reqs e :
  snd (run (map (fun dn => Enqueue (fst dn) (snd dn)) reqs) e)
  = seqZ (Z.of_nat (length (pending_requests e))) (Z.of_nat (length reqs)).
Proof.
  revert e. induction reqs as [|[d now] reqs IH]; intros e; simpl.
  - done.
  - specialize (IH (with_pending
             (pending_requests e ++
              [mkRequest d now (Z.of_nat (length (pending_requests e)))]) e)).
    destruct (run _ _) as [e2 ids]. simpl in *. rewrite IH.
    rewrite length_app. simpl.
    replace (Z.of_nat (S (length reqs))) with (Z.succ (Z.of_nat (length reqs)))
      by lia.
    rewrite (seqZ_cons _ (Z.succ _)) by lia. f_equal.
    f_equal; lia.
Qed.

(** C8 (amended). [add_request] returns the length of the pending queue
    before the request is appended. Successive calls with no
    [get_optimal_batch] between them return consecutive numbers; after a
    [get_optimal_batch] the next number falls back by the size of the
    batch that was taken. *)
Theorem enqueue_numbers cpu mem e :
  (forall d now,
     snd (add_request d now e) = Z.of_nat (length (pending_requests e)))
  /\ (forall reqs,
        snd (run (map (fun dn => Enqueue (fst dn) (snd dn)) reqs) e)
        = seqZ (Z.of_nat (length (pending_requests e)))
               (Z.of_nat (length reqs)))
  /\ (forall d now,
        (snd (add_request d now (fst (get_optimal_batch cpu mem e)))
         + Z.of_nat (length (snd (get_optimal_batch cpu mem e))))%Z
        = Z.of_nat (length (pending_requests e))).
Proof.
  split; [done|]. split; [intros reqs; apply run_enqueues|].
  intros d now. rewrite get_optimal_batch_take. simpl.
  rewrite length_drop, length_take. lia.
Qed.

(** Two requests, a drain, one more request: the numbers returned are
    0, 1 and 0 again. *)
Lemma enqueue_numbers_not_monotonic :
  snd (run [Enqueue "a" 1; Enqueue "b" 2; Drain 50 50; Enqueue "c" 3]
           (init 8 (1 # 2)))
  = [0; 1; 0]%Z
  /\ ~ Sorted Z.le
       (snd (run [Enqueue "a" 1; Enqueue "b" 2; Drain 50 50; Enqueue "c" 3]
                 (init 8 (1 # 2)))).
Proof.
  assert (E : snd (run [Enqueue "a" 1; Enqueue "b" 2; Drain 50 50;
                         Enqueue "c" 3] (init 8 (1 # 2))) = [0; 1; 0]%Z)
    by reflexivity.
  split; [done|]. rewrite E.
  intros Hs. apply Sorted_inv in Hs as [Hs _]. apply Sorted_inv in Hs as [_ Hle].
  apply HdRel_inv in Hle. lia.
Qed.

(** ** C9: failures of the prediction and of the fit *)

(** C9 (amended). With requests pending:
    - when an estimator is present and every prediction raises,
      [get_optimal_batch] returns normally with exactly the first request
      of the queue ([best_size] keeps its initial value 1);
    - the static size [min(len(pending_requests), max_batch_size)] is the
      size of the batch when no estimator is present;
    - when the targets can be computed (no record has a batch size that
      is zero or too large for a float) and [fit] raises,
      [record_batch_performance] ends with that exception, the record
      has been appended, and an unfitted estimator is left in
      [performance_model]. *)
Theorem prediction_failure `{Sklearn} cpu mem e :
  pending_requests e <> [] ->
  (forall model,
     performance_model e = Some model -> (forall f, model f = None) ->
     get_optimal_batch cpu mem e
     = (with_pending (drop 1 (pending_requests e)) e,
        take 1 (pending_requests e)))
  /\ (performance_model e = None ->
      snd (get_optimal_batch cpu mem e)
      = take (Z.to_nat (Z.min (Z.of_nat (length (pending_requests e)))
                              (max_batch_size e)))
             (pending_requests e))
  /\ (forall batch_size processing_time avg_query_length cpu' mem' now,
        let e1 :=
          with_history
            (history_append
               (mkSample batch_size processing_time avg_query_length
                         cpu' mem' now)
               (batch_history e)) e in
        (length (batch_history e1) mod 10 = 0)%nat ->
        (existsb bad_batch_size (batch_history e1) = true ->
         record_batch_performance batch_size processing_time
                                  avg_query_length cpu' mem' now e
         = (e1, Raised))
        /\ (existsb bad_batch_size (batch_history e1) = false ->
            ridge_fit (features_of (batch_history e1))
                      (targets_of (batch_history e1)) = None ->
            record_batch_performance batch_size processing_time
                                     avg_query_length cpu' mem' now e
            = (with_model (Some unfitted_ridge) e1, Raised))).
Proof.
  intros Hp. split; [|split].
  - intros model Hm Hraise.
    rewrite get_optimal_batch_take.
    by rewrite (predict_raises _ _ _ model).
  - intros Hm. rewrite get_optimal_batch_take. simpl.
    by rewrite predict_without_model.
  - intros bs pt aql cpu' mem' now e1 Hmod.
    unfold record_batch_performance. fold e1.
    apply Nat.eqb_eq in Hmod. rewrite Hmod.
    unfold _train_performance_model.
    assert (Hlen : (10 <= length (batch_history e1))%nat).
    { apply Nat.eqb_eq in Hmod.
      assert (length (batch_history e1) <> 0)%nat.
      { unfold e1, with_history. cbn [batch_history]. unfold history_append.
        destruct (100 <=? length (batch_history e))%nat;
          rewrite length_app; simpl; lia. }
      destruct (decide (length (batch_history e1) < 10)%nat) as [Hlt|]; [|lia].
      rewrite Nat.mod_small in Hmod by done. lia. }
    apply Nat.ltb_ge in Hlen. rewrite Hlen. split.
    + intros Hbad. by rewrite Hbad.
    + intros Hnz Hfit. by rewrite Hnz, Hfit.
Qed.

Lemma prediction_failure_witness :
  get_optimal_batch 50 50 broken_model
  = (with_pending (drop 1 (pending_requests broken_model)) broken_model,
     take 1 (pending_requests broken_model))
  /\ @record_batch_performance failing_fit 2 1 10 50 50 7 nine_samples
     = (with_model (Some unfitted_ridge)
          (with_history
             (history_append (mkSample 2 1 10 50 50 7)
                             (batch_history nine_samples))
             nine_samples),
        Raised)
  /\ @record_batch_performance failing_fit (10 ^ 400) 1 10 50 50 7
       nine_samples
     = (with_history
          (history_append (mkSample (10 ^ 400) 1 10 50 50 7)
                          (batch_history nine_samples))
          nine_samples,
        Raised).
Proof.
  split; [|split].
  - apply (proj1 (@prediction_failure failing_fit 50 50 broken_model
                    ltac:(vm_compute; discriminate))
                 unfitted_ridge); reflexivity.
  - apply (proj2 (proj2 (proj2 (@prediction_failure failing_fit 50 50
                                  nine_samples
                                  ltac:(vm_compute; discriminate)))
                          2%Z 1 10 50 50 7 eq_refl));
      vm_compute; reflexivity.
  - apply (proj1 (proj2 (proj2 (@prediction_failure failing_fit 50 50
                                  nine_samples
                                  ltac:(vm_compute; discriminate)))
                          (10 ^ 400)%Z 1 10 50 50 7 eq_refl)).
    vm_compute. reflexivity.
Defined.

(** Three requests are pending, the batch may hold eight, and every
    prediction raises: the batch holds one request, not three. When
    [fit] raises, the exception leaves [record_batch_performance]. *)
Lemma prediction_failure_is_not_static_fallback :
  length (snd (get_optimal_batch 50 50 broken_model)) = 1%nat
  /\ Z.min (Z.of_nat (length (pending_requests broken_model)))
           (max_batch_size broken_model) = 3%Z
  /\ snd (@record_batch_performance failing_fit 2 1 10 50 50 7 nine_samples)
     = Raised.
Proof. repeat split; reflexivity. Qed.

(** ** Further properties of the batching engine *)

(** X12. [get_optimal_batch] takes the batch from the front of the queue
    and loses nothing: the batch followed by the requests left pending is
    the queue as it was, and nothing else of the engine changes. *)
Theorem batch_is_queue_prefix cpu mem e :
  snd (get_optimal_batch cpu mem e)
  ++ pending_requests (fst (get_optimal_batch cpu mem e))
  = pending_requests e
  /\ max_batch_size (fst (get_optimal_batch cpu mem e)) = max_batch_size e
  /\ batch_history (fst (get_optimal_batch cpu mem e)) = batch_history e
  /\ performance_model (fst (get_optimal_batch cpu mem e))
     = performance_model e.
Proof.
  rewrite get_optimal_batch_take. simpl. by rewrite take_drop.
Qed.

Lemma try_size_bound model features best size (hi : Z) :
  (fst best <= hi)%Z -> (size <= hi)%Z ->
  (fst (try_size model features best size) <= hi)%Z.
Proof.
  intros Hb Hs. unfold try_size.
  destruct (model _); [|done].
  destruct (snd best); [|done].
  by destruct (Qlt_bool _ _).
Qed.

Lemma fold_try_size_bound model features sizes best (hi : Z) :
  (fst best <= hi)%Z -> Forall (fun s => (s <= hi)%Z) sizes ->
  (fst (fold_left (try_size model features) sizes best) <= hi)%Z.
Proof.
  revert best. induction sizes as [|s sizes IH]; intros best Hb Hs; simpl.
  - done.
  - apply Forall_cons in Hs as [Hs1 Hs]. apply IH; [|done].
    by apply try_size_bound.
Qed.

Lemma predict_eq cpu mem e model :
  performance_model e = Some model -> pending_requests e <> [] ->
  _predict_optimal_batch_size cpu mem e
  = fst (fold_left (try_size model (current_features cpu mem e))
                   (candidate_sizes e) (1%Z, None)).
Proof.
  intros Hm Hp.
  unfold _predict_optimal_batch_size, current_features, candidate_sizes.
  rewrite Hm. by destruct (pending_requests e).
Qed.

Lemma predict_bound cpu mem e :
  (_predict_optimal_batch_size cpu mem e <= Z.max 1 (max_batch_size e))%Z.
Proof.
  destruct (performance_model e) as [model|] eqn:Hm.
  - destruct (pending_requests e) as [|req p] eqn:Hp.
    + unfold _predict_optimal_batch_size. rewrite Hm, Hp. simpl. lia.
    + rewrite (predict_eq _ _ _ model) by (by rewrite ?Hp).
      apply fold_try_size_bound; [simpl; lia|].
      apply Forall_forall. intros s Hs. unfold candidate_sizes in Hs.
      apply elem_of_seqZ in Hs. lia.
  - rewrite predict_without_model by done. lia.
Qed.

(** X13. A batch never holds more requests than [max_batch_size], except
    that with an estimator present it holds one request even when
    [max_batch_size] is below 1; and it never holds more than are
    pending. *)
Theorem batch_size_bound cpu mem e :
  (Z.of_nat (length (snd (get_optimal_batch cpu mem e)))
   <= Z.max 1 (max_batch_size e))%Z
  /\ (length (snd (get_optimal_batch cpu mem e))
      <= length (pending_requests e))%nat.
Proof.
  rewrite get_optimal_batch_take. simpl. rewrite length_take.
  pose proof (predict_bound cpu mem e). lia.
Qed.

(** The loop keeps the least total seen so far, and the first size that
    reaches it. *)
Lemma fold_try_size_min model features sizes seen acc :
  StronglySorted Z.lt (seen ++ sizes) ->
  (snd acc = None ->
   forall s, s ∈ seen -> predicted_total model features s = None) ->
  (forall eff, snd acc = Some eff ->
     fst acc ∈ seen
     /\ predicted_total model features (fst acc) = Some eff
     /\ forall s t, s ∈ seen -> predicted_total model features s = Some t ->
          eff <= t /\ ((s < fst acc)%Z -> eff < t)) ->
  let res := fold_left (try_size model features) sizes acc in
  (snd res = None ->
   fst res = fst acc
   /\ forall s, s ∈ seen ++ sizes ->
        predicted_total model features s = None)
  /\ (forall eff, snd res = Some eff ->
        fst res ∈ seen ++ sizes
        /\ predicted_total model features (fst res) = Some eff
        /\ forall s t, s ∈ seen ++ sizes ->
             predicted_total model features s = Some t ->
             eff <= t /\ ((s < fst res)%Z -> eff < t)).
Proof.
  revert seen acc. induction sizes as [|x sizes IH];
    intros seen acc Hsorted Hnone Hsome; simpl.
  - rewrite app_nil_r. split; [|done]. intros Hn. split; [done|]. auto.
  - replace (seen ++ x :: sizes) with ((seen ++ [x]) ++ sizes) in *
      by (by rewrite <- app_assoc).
    assert (Hlt : forall s, s ∈ seen -> (s < x)%Z).
    { intros s Hs. apply StronglySorted_app_1_l in Hsorted.
      apply (StronglySorted_app_1_elem_of _ _ _ _ _ Hsorted Hs). left. }
    assert (Hstep := IH (seen ++ [x]) (try_size model features acc x) Hsorted).
    unfold try_size in *. unfold predicted_total in Hstep at 1 2.
    fold (predicted_total model features) in *.
    destruct acc as [b o]. simpl in *.
    destruct (model (<[0%nat:=inject_Z x]> features)) as [tx|] eqn:Ex.
    + assert (Hpx : predicted_total model features x
                     = Some (tx * inject_Z x)).
      { unfold predicted_total. by rewrite Ex. }
      destruct o as [eff|].
      * destruct (Hsome eff eq_refl) as (Hb & Hpb & Hmin).
        destruct (Qlt_bool (tx * inject_Z x) eff) eqn:Elt; simpl in *.
        -- apply Qlt_bool_true in Elt.
           destruct Hstep as [Hres_none Hres_some].
           { done. }
           { intros eff' [= <-]. split; [apply elem_of_app; right; left|].
             split; [done|]. intros s t Hs Ht.
             apply elem_of_app in Hs as [Hs|Hs].
             - destruct (Hmin s t Hs Ht) as [Hle _]. split; [lra|]. intros _. lra.
             - apply list_elem_of_singleton in Hs. subst s.
               rewrite Hpx in Ht. injection Ht as <-. split; [lra|lia]. }
           split; [|done].
           intros Hn. destruct (Hres_none Hn) as [-> Hall].
           specialize (Hall x). rewrite Hpx in Hall.
           discriminate Hall. rewrite elem_of_app. left.
           rewrite elem_of_app. right. left.
        -- apply Qlt_bool_false in Elt.
           destruct Hstep as [Hres_none Hres_some].
           { done. }
           { intros eff' [= <-]. split; [apply elem_of_app; by left|].
             split; [done|]. intros s t Hs Ht.
             apply elem_of_app in Hs as [Hs|Hs].
             - by apply Hmin.
             - apply list_elem_of_singleton in Hs. subst s.
               rewrite Hpx in Ht. injection Ht as <-. split; [done|].
               intros Hxb. specialize (Hlt b Hb). lia. }
           split; [|done].
           intros Hn. destruct (Hres_none Hn) as [-> Hall].
           specialize (Hall x). rewrite Hpx in Hall.
           discriminate Hall. rewrite elem_of_app. left.
           rewrite elem_of_app. right. left.
      * simpl in *. destruct Hstep as [Hres_none Hres_some].
        { done. }
        { intros eff' [= <-]. split; [apply elem_of_app; right; left|].
          split; [done|]. intros s t Hs Ht.
          apply elem_of_app in Hs as [Hs|Hs].
          - rewrite (Hnone eq_refl s Hs) in Ht. discriminate.
          - apply list_elem_of_singleton in Hs. subst s.
            rewrite Hpx in Ht. injection Ht as <-. split; [lra|lia]. }
        split; [|done].
        intros Hn. destruct (Hres_none Hn) as [-> Hall].
        specialize (Hall x). rewrite Hpx in Hall.
        discriminate Hall. rewrite elem_of_app. left.
        rewrite elem_of_app. right. left.
    + assert (Hpx : predicted_total model features x = None).
      { unfold predicted_total. by rewrite Ex. }
      apply Hstep.
      * intros Hn s Hs. apply elem_of_app in Hs as [Hs|Hs]; [by apply Hnone|].
        apply list_elem_of_singleton in Hs. by subst s.
      * intros eff Heff. destruct (Hsome eff Heff) as (Hb & Hpb & Hmin).
        split; [apply elem_of_app; by left|]. split; [done|].
        intros s t Hs Ht. apply elem_of_app in Hs as [Hs|Hs]; [by apply Hmin|].
        apply list_elem_of_singleton in Hs. subst s. congruence.
Qed.

Lemma StronglySorted_seqZ (m n : Z) : StronglySorted Z.lt (seqZ m n).
Proof.
  unfold seqZ. generalize 0%nat.
  induction (Z.to_nat n) as [|k IH]; intros start; simpl.
  - constructor.
  - constructor; [apply IH|].
    apply Forall_fmap, Forall_seq. intros j Hj. simpl. lia.
Qed.

(** X14. With an estimator whose prediction succeeds for some candidate
    size, [_predict_optimal_batch_size] returns a candidate whose
    predicted total time (time per item times size) is the least among
    the candidates that could be predicted, and the smallest such
    candidate: every smaller one has a strictly larger total. *)
Theorem predicted_size_minimises_total cpu mem e model (s : Z) (t : Q) :
  performance_model e = Some model ->
  s ∈ candidate_sizes e ->
  predicted_total model (current_features cpu mem e) s = Some t ->
  let best := _predict_optimal_batch_size cpu mem e in
  best ∈ candidate_sizes e
  /\ exists tb,
       predicted_total model (current_features cpu mem e) best = Some tb
       /\ tb <= t
       /\ ((s < best)%Z -> tb < t).
Proof.
  intros Hm Hs Ht best.
  assert (Hp : pending_requests e <> []).
  { intros Hp. unfold candidate_sizes in Hs. rewrite Hp in Hs.
    apply elem_of_seqZ in Hs. simpl in Hs. lia. }
  subst best. rewrite (predict_eq cpu mem e model Hm Hp).
  destruct (fold_try_size_min model (current_features cpu mem e)
              (candidate_sizes e) [] (1%Z, None)) as [Hnone Hsome].
  { apply StronglySorted_seqZ. }
  { intros _ x Hx. by apply elem_of_nil in Hx. }
  { intros eff Heff. discriminate Heff. }
  simpl in Hnone, Hsome.
  destruct (snd (fold_left (try_size model (current_features cpu mem e))
                           (candidate_sizes e) (1%Z, None)))
    as [tb|] eqn:Eres.
  - destruct (Hsome tb eq_refl) as (Hin & Hpt & Hmin).
    split; [done|]. exists tb. split; [done|]. by apply Hmin.
  - destruct (Hnone eq_refl) as [_ Hall].
    rewrite (Hall s Hs) in Ht. discriminate Ht.
Qed.

Lemma predicted_size_minimises_total_witness :
  _predict_optimal_batch_size 0 0 falling_model
    ∈ candidate_sizes falling_model
  /\ exists tb,
       predicted_total falling_estimator (current_features 0 0 falling_model)
         (_predict_optimal_batch_size 0 0 falling_model)
       = Some tb
       /\ tb <= 4
       /\ ((2 < _predict_optimal_batch_size 0 0 falling_model)%Z -> tb < 4).
Proof.
  apply (predicted_size_minimises_total 0 0 falling_model
           falling_estimator 2%Z 4).
  - reflexivity.
  - vm_compute. right. left.
  - reflexivity.
Defined.

Section Training.
Context `{Sklearn}.

Lemma train_history e :
  batch_history (fst (_train_performance_model e)) = batch_history e
  /\ pending_requests (fst (_train_performance_model e)) = pending_requests e
  /\ max_batch_size (fst (_train_performance_model e)) = max_batch_size e.
Proof.
  unfold _train_performance_model.
  destruct (_ <? _)%nat; [done|].
  destruct (existsb _ _); [done|].
  by destruct (ridge_fit _ _).
Qed.

Lemma record_history batch_size processing_time avg_query_length cpu mem now e :
  batch_history
    (fst (record_batch_performance batch_size processing_time
            avg_query_length cpu mem now e))
  = history_append
      (mkSample batch_size processing_time avg_query_length cpu mem now)
      (batch_history e).
Proof.
  unfold record_batch_performance.
  destruct (_ =? _)%nat; [|done].
  by rewrite (proj1 (train_history _)).
Qed.

Lemma history_append_drop s h :
  (length h <= 100)%nat ->
  history_append s h = drop (length h + 1 - 100) (h ++ [s]).
Proof.
  intros Hlen. unfold history_append.
  destruct (100 <=? length h)%nat eqn:E.
  - apply Nat.leb_le in E.
    replace (length h + 1 - 100)%nat with 1%nat by lia.
    destruct h as [|x h]; [simpl in E; lia|]. done.
  - apply Nat.leb_gt in E.
    by replace (length h + 1 - 100)%nat with 0%nat by lia.
Qed.

Lemma length_history_append s h :
  (length h <= 100)%nat ->
  length (history_append s h) = Nat.min 100 (length h + 1).
Proof.
  intros Hlen. unfold history_append.
  destruct (100 <=? length h)%nat eqn:E.
  - apply Nat.leb_le in E. rewrite length_app, length_drop.
    cbn [length]. lia.
  - apply Nat.leb_gt in E. rewrite length_app. cbn [length]. lia.
Qed.

(** X15. The batch history is a window of the last 100 records: a record
    is appended at the end whatever the training does, the oldest record
    is dropped once 100 are held, the order of the others is kept, and
    the history never grows beyond 100. *)
Theorem history_keeps_last_100
    batch_size processing_time avg_query_length cpu mem now e :
  (length (batch_history e) <= 100)%nat ->
  let record :=
    mkSample batch_size processing_time avg_query_length cpu mem now in
  let e' :=
    fst (record_batch_performance batch_size processing_time
           avg_query_length cpu mem now e) in
  batch_history e'
  = drop (length (batch_history e) + 1 - 100) (batch_history e ++ [record])
  /\ last (batch_history e') = Some record
  /\ length (batch_history e')
     = Nat.min 100 (length (batch_history e) + 1).
Proof.
  intros Hlen record e'. subst e'. rewrite record_history.
  fold record. split; [by apply history_append_drop|]. split.
  - unfold history_append. destruct (_ <=? _)%nat; apply last_snoc.
  - by apply length_history_append.
Qed.

(** X16. A record with [batch_size = 0] that completes a multiple of ten
    makes the training raise on the division by the batch size, so
    [record_batch_performance] raises with the record stored and the
    estimator left as it was. *)
Theorem zero_batch_size_record_raises
    processing_time avg_query_length cpu mem now e :
  (length (batch_history e) <= 100)%nat ->
  (Nat.min 100 (length (batch_history e) + 1) mod 10 = 0)%nat ->
  let record := mkSample 0 processing_time avg_query_length cpu mem now in
  record_batch_performance 0 processing_time avg_query_length cpu mem now e
  = (with_history (history_append record (batch_history e)) e, Raised).
Proof.
  intros Hlen Hmod record. unfold record_batch_performance. fold record.
  cbn [batch_history with_history].
  rewrite length_history_append by done. rewrite Hmod. simpl.
  unfold _train_performance_model. cbn [batch_history with_history].
  rewrite length_history_append by done.
  assert (Hge : (10 <= Nat.min 100 (length (batch_history e) + 1))%nat).
  { destruct (Nat.min 100 (length (batch_history e) + 1)) as [|k] eqn:E;
      [lia|].
    apply Nat.Div0.mod_divides in Hmod as [c Hc]. lia. }
  apply Nat.ltb_ge in Hge. rewrite Hge.
  assert (Hex : existsb bad_batch_size
                  (history_append record (batch_history e)) = true).
  { apply existsb_exists. exists record. split; [|done].
    unfold history_append. destruct (_ <=? _)%nat;
      apply in_or_app; right; by left. }
  by rewrite Hex.
Qed.

(** X17. Once 100 records are held, every further record retrains: the
    history stays at 100, and when no record in it has a batch size that
    is zero or too large for a float, the estimator is replaced by the
    one fitted on exactly those 100 records. *)
Theorem full_history_retrains_every_record
    batch_size processing_time avg_query_length cpu mem now e fitted :
  length (batch_history e) = 100%nat ->
  let record :=
    mkSample batch_size processing_time avg_query_length cpu mem now in
  let history := drop 1 (batch_history e) ++ [record] in
  existsb bad_batch_size history = false ->
  ridge_fit (features_of history) (targets_of history) = Some fitted ->
  record_batch_performance batch_size processing_time avg_query_length
    cpu mem now e
  = (with_model (Some fitted) (with_history history e), Returned).
Proof.
  intros Hlen record history Hnz Hfit.
  unfold record_batch_performance. fold record.
  assert (Hh : history_append record (batch_history e) = history).
  { unfold history_append. by rewrite Hlen. }
  rewrite Hh. cbn [batch_history with_history].
  assert (Hl : length history = 100%nat).
  { unfold history. rewrite length_app, length_drop, Hlen. done. }
  rewrite Hl. simpl.
  unfold _train_performance_model. cbn [batch_history with_history].
  rewrite Hl. simpl. by rewrite Hnz, Hfit.
Qed.

End Training.

Lemma history_keeps_last_100_witness :
  let record := mkSample 2 1 10 50 50 7 in
  let e' :=
    fst (@record_batch_performance constant_fit 2 1 10 50 50 7
           full_history) in
  batch_history e'
  = drop (length (batch_history full_history) + 1 - 100)
         (batch_history full_history ++ [record])
  /\ last (batch_history e') = Some record
  /\ length (batch_history e')
     = Nat.min 100 (length (batch_history full_history) + 1).
Proof.
  apply (@history_keeps_last_100 constant_fit 2 1 10 50 50 7 full_history).
  vm_compute. lia.
Defined.

Lemma zero_batch_size_record_raises_witness :
  @record_batch_performance constant_fit 0 1 10 50 50 7 nine_samples
  = (with_history
       (history_append (mkSample 0 1 10 50 50 7)
                       (batch_history nine_samples))
       nine_samples,
     Raised).
Proof.
  apply (@zero_batch_size_record_raises constant_fit 1 10 50 50 7
           nine_samples).
  - vm_compute. lia.
  - reflexivity.
Defined.

Lemma full_history_retrains_every_record_witness :
  @record_batch_performance constant_fit 2 1 10 50 50 7 full_history
  = (with_model (Some constant_estimator)
       (with_history
          (drop 1 (batch_history full_history) ++ [mkSample 2 1 10 50 50 7])
          full_history),
     Returned).
Proof.
  apply (@full_history_retrains_every_record constant_fit 2 1 10 50 50 7
           full_history constant_estimator); reflexivity.
Defined.

End AdaptiveBatchingEngineProps.

(* ===================================================================== *)
(** * Properties of SemanticCacheEngine                                  *)
(* ===================================================================== *)

Module SemanticCacheEngineProps.

Import PyFacts SemanticCacheEngine.
Local Open Scope list_scope.
Local Open Scope Q_scope.

Section WithOracle.
Context `{TextOracle}.
Implicit Types (c : Cache) (q f : string).

(** Computing an embedding touches the vectorizer only. *)
Lemma embedding_frame q c :
  cache (fst (_get_query_embedding q c)) = cache c
  /\ embeddings (fst (_get_query_embedding q c)) = embeddings c
  /\ cache_size (fst (_get_query_embedding q c)) = cache_size c
  /\ similarity_threshold (fst (_get_query_embedding q c))
     = similarity_threshold c.
Proof.
  unfold _get_query_embedding.
  destruct (is_vectorizer_fitted c).
  - by destruct (tfidf_transform (vectorizer c) q).
  - destruct (tfidf_fit _ _) as [v [|]]; simpl; [|done].
    by destruct (tfidf_transform v q).
Qed.

Lemma cache_response_cache q f r clk c :
  cache (cache_response q f r clk c)
  = dict_set (cache_key_of q f)
      (mkCacheEntry r (t_entry clk) 1 (t_access clk)
                    (String.substring 0 100 q))
      (if (cache_size c <=? Z.of_nat (length (cache c)))%Z
       then cache (_evict_lru_entries (fst (_get_query_embedding q c)))
       else cache c).
Proof.
  unfold cache_response.
  destruct (embedding_frame q c) as (Hc & _ & Hs & _).
  destruct (_get_query_embedding q c) as [c1 emb]. simpl in *.
  rewrite Hs, Hc. destruct (_ <=? _)%Z; simpl; by rewrite ?Hc.
Qed.

(** ** C5: a stored response is found again *)

(** C5. After [cache_response(Q, F, R)], [get_cached_response(Q, F)] is
    an exact hit: it returns [R], and the entry's [access_count] goes from
    1 to 2 and its [last_accessed] is set to the time of the lookup. *)
Theorem exact_round_trip q f r clk now c :
  snd (get_cached_response q f now (cache_response q f r clk c)) = Some r
  /\ dict_get (cache_key_of q f)
       (cache (fst (get_cached_response q f now (cache_response q f r clk c))))
     = Some (mkCacheEntry r (t_entry clk) 2 now (String.substring 0 100 q)).
Proof.
  unfold get_cached_response.
  destruct (embedding_frame q (cache_response q f r clk c)) as (Hc & _).
  destruct (_get_query_embedding q (cache_response q f r clk c))
    as [c1 emb]. simpl in Hc.
  rewrite Hc, cache_response_cache, dict_get_set_eq. simpl.
  split; [done|]. by rewrite dict_get_set_eq.
Qed.

(** ** C6: the similarity threshold *)

(** The early return on an empty [embeddings] gives what the loop would. *)
Lemma find_similar_eq emb c :
  _find_similar_queries emb c
  = take 3 (sorted by_similarity_desc
              (omap (candidate emb (similarity_threshold c)) (embeddings c))).
Proof. unfold _find_similar_queries. by destruct (embeddings c). Qed.

Lemma by_similarity_desc_asym a b :
  by_similarity_desc a b = true -> by_similarity_desc b a = false.
Proof.
  unfold by_similarity_desc. intros Hab.
  apply Qlt_bool_true in Hab. apply Qlt_bool_false. lra.
Qed.

Lemma by_similarity_desc_trans (x y z : string * Q) :
  le_of by_similarity_desc x y -> le_of by_similarity_desc y z ->
  le_of by_similarity_desc x z.
Proof.
  unfold le_of, by_similarity_desc. intros H1 H2.
  apply Qlt_bool_false in H1, H2. apply Qlt_bool_false. lra.
Qed.

(** The first element of the sorted candidates has the highest
    similarity. *)
Lemma sorted_desc_head (l : list (string * Q)) x t :
  sorted by_similarity_desc l = x :: t ->
  x ∈ l /\ forall y, y ∈ l -> snd y <= snd x.
Proof.
  intros Hs.
  pose proof (sorted_Permutation by_similarity_desc l) as Hp.
  pose proof (sorted_StronglySorted by_similarity_desc
                by_similarity_desc_asym by_similarity_desc_trans l) as Hss.
  rewrite Hs in Hp, Hss. split.
  - rewrite <- Hp. left.
  - intros y Hy. rewrite <- Hp in Hy.
    apply elem_of_cons in Hy as [->|Hy]; [lra|].
    apply StronglySorted_inv in Hss as [_ Hall].
    rewrite Forall_forall in Hall. specialize (Hall y Hy).
    unfold le_of, by_similarity_desc in Hall.
    by apply Qlt_bool_false in Hall.
Qed.

Lemma omap_all_None {A B} (g : A -> option B) (l : list A) :
  (forall x, x ∈ l -> g x = None) -> omap g l = [].
Proof.
  induction l as [|x l IH]; intros Hn; simpl; [done|].
  rewrite (Hn x) by left. apply IH. intros y Hy. apply Hn. by right.
Qed.

Lemma candidate_Some emb threshold kv k s :
  candidate emb threshold kv = Some (k, s) <->
  k = fst kv /\ cosine_similarity emb (embedding (snd kv)) = Some s
  /\ threshold <= s.
Proof.
  unfold candidate.
  destruct (cosine_similarity emb (embedding (snd kv))) as [s'|].
  - destruct (Qle_bool threshold s') eqn:E.
    + apply Qle_bool_iff in E. split.
      * intros [= <- <-]. done.
      * intros (-> & [= ->] & _). done.
    + apply Qle_bool_false in E. split; [done|].
      intros (_ & [= ->] & Hle). lra.
  - split; [done|]. by intros (_ & ? & _).
Qed.

(** C6. For a lookup with no exact match: if every stored embedding has
    a cosine similarity below the threshold, the lookup is a miss and the
    cache is left as it was; if some stored embedding reaches the
    threshold (and every embedding has its cache entry), the lookup
    returns the response of a stored entry whose similarity is the
    highest, annotated with that similarity and the marker 'semantic',
    and refreshes that entry. *)
Theorem similarity_threshold_lookup q f now c :
  dict_get (cache_key_of q f) (cache c) = None ->
  ((forall k e s,
      (k, e) ∈ embeddings c ->
      cosine_similarity (snd (_get_query_embedding q c)) (embedding e)
      = Some s ->
      s < similarity_threshold c) ->
   snd (get_cached_response q f now c) = None
   /\ cache (fst (get_cached_response q f now c)) = cache c)
  /\ ((forall k, k ∈ keys (embeddings c) -> k ∈ keys (cache c)) ->
      (exists k e s,
         (k, e) ∈ embeddings c
         /\ cosine_similarity (snd (_get_query_embedding q c)) (embedding e)
            = Some s
         /\ similarity_threshold c <= s) ->
      exists k e s entry,
        (k, e) ∈ embeddings c
        /\ cosine_similarity (snd (_get_query_embedding q c)) (embedding e)
           = Some s
        /\ similarity_threshold c <= s
        /\ (forall k' e' s',
              (k', e') ∈ embeddings c ->
              cosine_similarity (snd (_get_query_embedding q c))
                                (embedding e') = Some s' ->
              s' <= s)
        /\ dict_get k (cache c) = Some entry
        /\ snd (get_cached_response q f now c)
           = Some (annotate s (response entry))
        /\ cache (fst (get_cached_response q f now c))
           = dict_set k (touch now entry) (cache c)).
Proof.
  intros Hmiss. unfold get_cached_response.
  destruct (embedding_frame q c) as (Hc & He & _ & Ht).
  destruct (_get_query_embedding q c) as [c1 emb]. simpl in *.
  rewrite Hc, Hmiss, find_similar_eq, He, Ht. split.
  - intros Hbelow. rewrite omap_all_None; [by simpl|].
    intros [k e] Hin. unfold candidate. simpl.
    destruct (cosine_similarity emb (embedding e)) as [s|] eqn:Es; [|done].
    specialize (Hbelow k e s Hin Es).
    apply Qle_bool_false in Hbelow. by rewrite Hbelow.
  - intros Hsync (k0 & e0 & s0 & Hin0 & Hs0 & Hle0).
    set (sims := omap (candidate emb (similarity_threshold c)) (embeddings c)).
    assert (Hin_sims : (k0, s0) ∈ sims).
    { apply list_elem_of_omap. exists (k0, e0). split; [done|].
      by apply candidate_Some. }
    destruct (sorted by_similarity_desc sims) as [|[k s] t] eqn:Hsorted.
    { pose proof (sorted_Permutation by_similarity_desc sims) as Hp.
      rewrite Hsorted in Hp. apply Permutation_nil_l in Hp.
      rewrite <- Hp in Hin_sims. by apply elem_of_nil in Hin_sims. }
    destruct (sorted_desc_head _ _ _ Hsorted) as [Hhead Hmax].
    apply list_elem_of_omap in Hhead as ([k' e] & Hin & Hcand).
    apply candidate_Some in Hcand as (-> & Hs & Hle). simpl in *.
    assert (Hk : is_Some (dict_get k' (cache c))).
    { destruct (dict_get k' (cache c)) eqn:E; [by eexists|].
      apply dict_get_None_keys in E. exfalso. apply E, Hsync.
      unfold keys. apply list_elem_of_fmap. by exists (k', e). }
    destruct Hk as [entry Hentry].
    exists k', e, s, entry. simpl. rewrite Hc, Hentry. simpl. rewrite ?Hc.
    repeat split; try done.
    intros k'' e' s' Hin' Hs'.
    destruct (Qle_bool (similarity_threshold c) s') eqn:E.
    + apply Qle_bool_iff in E.
      apply (Hmax (k'', s')). apply list_elem_of_omap.
      exists (k'', e'). split; [done|]. by apply candidate_Some.
    + apply Qle_bool_false in E. lra.
Qed.

(** ** C7: bulk eviction *)

Lemma older_asym a b : older a b = true -> older b a = false.
Proof.
  unfold older. intros Hab.
  apply Qlt_bool_true in Hab. apply Qlt_bool_false. lra.
Qed.

Lemma older_trans (x y z : string * CacheEntry) :
  le_of older x y -> le_of older y z -> le_of older x z.
Proof.
  unfold le_of, older. intros H1 H2.
  apply Qlt_bool_false in H1, H2. apply Qlt_bool_false. lra.
Qed.

Lemma by_last_accessed_Permutation (d : odict CacheEntry) :
  by_last_accessed d ≡ₚ d.
Proof. apply sorted_Permutation. Qed.

Lemma by_last_accessed_sorted (d : odict CacheEntry) :
  StronglySorted (le_of older) (by_last_accessed d).
Proof. apply sorted_StronglySorted; [apply older_asym | apply older_trans]. Qed.

Lemma evict_keys_cache ks c :
  cache (evict_keys ks c) = fold_left (fun d k => dict_del k d) ks (cache c).
Proof.
  revert c. induction ks as [|k ks IH]; intros c; simpl; [done|].
  by rewrite IH.
Qed.

Lemma evict_lru_cache c :
  cache (_evict_lru_entries c)
  = fold_left (fun d k => dict_del k d)
      (map fst (take (Nat.max 1 (length (cache c) / 5))
                     (by_last_accessed (cache c))))
      (cache c).
Proof.
  unfold _evict_lru_entries. destruct (cache c) as [|e d] eqn:E.
  - by rewrite E.
  - rewrite evict_keys_cache, E.
    by rewrite (Permutation_length (by_last_accessed_Permutation (e :: d))).
Qed.

(** C7 (amended). Storing a new entry into a cache that holds exactly
    [N = cache_size] entries, [N] divisible by 5, first removes the
    [N / 5] entries that come first when sorting by [last_accessed]
    ascending - none of the entries kept is older than any of them - and
    then inserts the new entry with [access_count = 1]; the cache is left
    with [0.8 N + 1] entries, which is fewer than [N] when [N > 5] and is
    [N] itself when [N = 5]. *)
Theorem bulk_eviction q f r clk c (N : nat) :
  NoDup (keys (cache c)) ->
  length (cache c) = N ->
  cache_size c = Z.of_nat N ->
  (N mod 5 = 0)%nat ->
  dict_get (cache_key_of q f) (cache c) = None ->
  let oldest := take (N / 5) (by_last_accessed (cache c)) in
  let c' := cache_response q f r clk c in
  (5 * length (cache c') = 4 * N + 5)%nat
  /\ ((5 < N)%nat -> (length (cache c') < N)%nat)
  /\ dict_get (cache_key_of q f) (cache c')
     = Some (mkCacheEntry r (t_entry clk) 1 (t_access clk)
                          (String.substring 0 100 q))
  /\ (forall k e, (k, e) ∈ oldest -> dict_get k (cache c') = None)
  /\ (forall k e, (k, e) ∈ cache c -> (k, e) ∉ oldest ->
                  dict_get k (cache c') = Some e)
  /\ (forall x y, x ∈ oldest -> y ∈ cache c -> y ∉ oldest ->
                  last_accessed (snd x) <= last_accessed (snd y)).
Proof.
  intros Hnd Hlen Hsize Hmod Hnew oldest c'.
  set (key := cache_key_of q f) in *.
  set (entry := mkCacheEntry r (t_entry clk) 1 (t_access clk)
                             (String.substring 0 100 q)).
  set (ks := map fst oldest).
  set (kept := fold_left (fun d k => dict_del k d) ks (cache c)).
  assert (Hdiv : (N = 5 * (N / 5))%nat).
  { pose proof (Nat.div_mod_eq N 5). lia. }
  assert (Hperm := by_last_accessed_Permutation (cache c)).
  assert (Hc' : cache c' = dict_set key entry kept).
  { unfold c'. rewrite cache_response_cache.
    rewrite Hsize, Hlen, (proj2 (Z.leb_le _ _)) by lia.
    rewrite evict_lru_cache.
    destruct (embedding_frame q c) as (-> & _).
    rewrite Hlen. unfold kept, ks, oldest.
    destruct (decide (N = 0)%nat) as [->|Hpos].
    - apply length_zero_iff_nil in Hlen. rewrite Hlen. done.
    - by replace (Nat.max 1 (N / 5)) with (N / 5)%nat by lia. }
  assert (Hsub : oldest ⊆ cache c).
  { intros x Hx. rewrite <- Hperm. by apply (subseteq_take (N / 5)). }
  assert (Hks_nd : NoDup ks).
  { unfold ks, oldest.
    apply (sublist_NoDup _ (map fst (by_last_accessed (cache c)))).
    - unfold keys in Hnd. by rewrite Hperm.
    - apply (fmap_sublist fst), sublist_take. }
  assert (Hks_sub : ks ⊆ keys (cache c)).
  { intros k Hk. unfold ks in Hk.
    apply list_elem_of_fmap in Hk as (x & -> & Hx).
    unfold keys. apply list_elem_of_fmap. exists x. split; [done|].
    by apply Hsub. }
  assert (Hkept_len : (length kept + N / 5 = N)%nat).
  { pose proof (del_all_length ks (cache c) Hnd Hks_nd Hks_sub) as Hl.
    fold kept in Hl. rewrite Hlen in Hl.
    assert (length ks = N / 5)%nat as <-; [|done].
    unfold ks, oldest.
    rewrite length_map, length_take, (Permutation_length Hperm), Hlen.
    lia. }
  assert (Hkey_kept : dict_get key kept = None).
  { unfold kept. rewrite del_all_get by done.
    by destruct (bool_decide _). }
  assert (Hkey_ks : key ∉ ks).
  { intros Hin. apply Hks_sub in Hin. by apply dict_get_None_keys in Hnew. }
  rewrite Hc'. repeat split.
  - rewrite length_dict_set_new by done. lia.
  - intros Hbig. rewrite length_dict_set_new by done. lia.
  - apply dict_get_set_eq.
  - intros k e Hin.
    assert (Hk : k ∈ ks).
    { unfold ks. apply list_elem_of_fmap. by exists (k, e). }
    rewrite dict_get_set_ne by (intros ->; done).
    unfold kept. rewrite del_all_get by done.
    by rewrite bool_decide_eq_true_2.
  - intros k e Hin Hnot.
    assert (Hk : k ∉ ks).
    { intros Hk. unfold ks in Hk.
      apply list_elem_of_fmap in Hk as ([k' e'] & -> & Hin'). simpl in *.
      assert (e' = e) as ->; [|done].
      apply Hsub in Hin'.
      pose proof (elem_dict_get _ _ _ Hnd Hin) as E1.
      pose proof (elem_dict_get _ _ _ Hnd Hin') as E2. congruence. }
    rewrite dict_get_set_ne.
    + unfold kept. rewrite del_all_get by done.
      rewrite bool_decide_eq_false_2 by done. by apply elem_dict_get.
    + intros <-. apply dict_get_None_keys in Hnew. apply Hnew.
      unfold keys. apply list_elem_of_fmap. by exists (key, e).
  - intros x y Hx Hy Hnot.
    pose proof (by_last_accessed_sorted (cache c)) as Hs.
    rewrite <- (take_drop (N / 5) (by_last_accessed (cache c))) in Hs.
    assert (Hy' : y ∈ drop (N / 5) (by_last_accessed (cache c))).
    { rewrite <- Hperm in Hy.
      rewrite <- (take_drop (N / 5) (by_last_accessed (cache c))) in Hy.
      apply elem_of_app in Hy as [?|?]; done. }
    pose proof (StronglySorted_app_1_elem_of _ _ _ _ _ Hs Hx Hy') as Hle.
    unfold le_of, older in Hle. by apply Qlt_bool_false in Hle.
Qed.

(** ** The caches built by the operations are well formed *)

Lemma evict_keys_embeddings ks c :
  embeddings (evict_keys ks c)
  = fold_left (fun d k => dict_del k d) ks (embeddings c).
Proof.
  revert c. induction ks as [|k ks IH]; intros c; simpl; [done|].
  rewrite IH. simpl. destruct (dict_mem k (embeddings c)) eqn:E; [done|].
  rewrite dict_del_absent; [done|].
  intros Hin. apply dict_mem_keys in Hin. congruence.
Qed.

Lemma evict_keys_wf ks c : cache_wf c -> cache_wf (evict_keys ks c).
Proof.
  intros [Hc He Hs]. constructor.
  - rewrite evict_keys_cache. by apply del_all_NoDup.
  - rewrite evict_keys_embeddings. by apply del_all_NoDup.
  - intros k. rewrite evict_keys_cache, evict_keys_embeddings.
    rewrite !elem_keys_get, !del_all_get by done.
    case_bool_decide; [done|]. rewrite <- !elem_keys_get. apply Hs.
Qed.

Lemma init_cache_wf cache_size threshold v :
  cache_wf (init cache_size threshold v).
Proof. constructor; simpl; [constructor | constructor | done]. Qed.

Lemma cache_response_wf q f r clk c :
  cache_wf c -> cache_wf (cache_response q f r clk c).
Proof.
  intros Hwf. unfold cache_response.
  destruct (embedding_frame q c) as (Hc & He & _).
  destruct (_get_query_embedding q c) as [c1 emb]. simpl in *.
  assert (Hwf1 : cache_wf c1).
  { destruct Hwf. constructor; by rewrite ?Hc, ?He. }
  set (c2 := if (_ <=? _)%Z then _ else _).
  assert (Hwf2 : cache_wf c2).
  { unfold c2. destruct (_ <=? _)%Z; [|done].
    unfold _evict_lru_entries. destruct (cache c1); [done|].
    by apply evict_keys_wf. }
  destruct Hwf2 as [Hk2 He2 Hs2]. constructor; simpl.
  - by apply NoDup_keys_dict_set.
  - by apply NoDup_keys_dict_set.
  - intros k. rewrite !keys_dict_set_elem. intros [?|?]; [by left|right; auto].
Qed.

Lemma semantic_loop_wf now sims c :
  cache_wf c -> cache_wf (fst (semantic_loop now sims c)).
Proof.
  intros Hwf. induction sims as [|[k s] sims IH]; simpl; [done|].
  destruct (dict_get k (cache c)) as [e|] eqn:E; [|done]. simpl.
  destruct Hwf as [Hk He Hs]. constructor; simpl.
  - by apply NoDup_keys_dict_set.
  - done.
  - intros k' Hk'. apply keys_dict_set_elem. right. auto.
Qed.

Lemma get_cached_response_wf q f now c :
  cache_wf c -> cache_wf (fst (get_cached_response q f now c)).
Proof.
  intros Hwf. unfold get_cached_response.
  destruct (embedding_frame q c) as (Hc & He & _).
  destruct (_get_query_embedding q c) as [c1 emb]. simpl in *.
  assert (Hwf1 : cache_wf c1).
  { destruct Hwf. constructor; by rewrite ?Hc, ?He. }
  destruct (dict_get _ (cache c1)) as [e|] eqn:E.
  - simpl. destruct Hwf1 as [Hk1 He1 Hs1]. constructor; simpl.
    + by apply NoDup_keys_dict_set.
    + done.
    + intros k' Hk'. apply keys_dict_set_elem. right. auto.
  - by apply semantic_loop_wf.
Qed.

End WithOracle.

(** ** Worked instances *)

Lemma two_entries_wf threshold : cache_wf (two_entries threshold).
Proof. unfold two_entries. do 2 apply cache_response_wf. apply init_cache_wf. Qed.

(** With similarity 0.80 against both stored entries, the lookup misses
    under the threshold 0.85 and hits under the threshold 0.75. *)
Lemma similarity_threshold_lookup_witness :
  snd (get_cached_response "gross margin" "ctx" 9 (two_entries (85 # 100)))
  = None
  /\ exists k e s entry,
       (k, e) ∈ embeddings (two_entries (75 # 100))
       /\ s == 8 # 10
       /\ dict_get k (cache (two_entries (75 # 100))) = Some entry
       /\ snd (get_cached_response "gross margin" "ctx" 9
                 (two_entries (75 # 100)))
          = Some (<["cache_type" := VStr "semantic"]>
                    (<["cache_similarity" := VFloat s]> (response entry))).
Proof.
  split.
  - apply (proj1 (similarity_threshold_lookup "gross margin" "ctx" 9
                    (two_entries (85 # 100)) eq_refl)).
    intros k e s _ Hs. injection Hs as <-. reflexivity.
  - destruct (proj2 (similarity_threshold_lookup "gross margin" "ctx" 9
                       (two_entries (75 # 100)) eq_refl))
      as (k & e & s & entry & Hin & Hs & _ & _ & Hentry & Hres & _).
    + apply two_entries_wf.
    + eexists _, _, (8 # 10). split; [left|]. split; [reflexivity|].
      vm_compute. discriminate.
    + exists k, e, s, entry. injection Hs as <-. by repeat split.
Defined.

Lemma full_cache_wf : cache_wf full_cache.
Proof. unfold full_cache. do 5 apply cache_response_wf. apply init_cache_wf. Qed.

Lemma ten_entries_wf : cache_wf ten_entries.
Proof.
  unfold ten_entries. simpl. do 10 apply cache_response_wf.
  apply init_cache_wf.
Qed.

(** An eleventh response stored into a full cache of capacity ten: the
    two entries accessed longest ago go, and nine entries remain. *)
Lemma bulk_eviction_witness :
  (5 * length (cache (cache_response "q11" "" (answer "a11") (at_time 11)
                                     ten_entries)) = 4 * 10 + 5)%nat
  /\ (length (cache (cache_response "q11" "" (answer "a11") (at_time 11)
                                    ten_entries)) < 10)%nat
  /\ dict_get "q1" (cache (cache_response "q11" "" (answer "a11")
                             (at_time 11) ten_entries)) = None
  /\ dict_get "q2" (cache (cache_response "q11" "" (answer "a11")
                             (at_time 11) ten_entries)) = None
  /\ dict_get "q11" (cache (cache_response "q11" "" (answer "a11")
                              (at_time 11) ten_entries))
     = Some (mkCacheEntry (answer "a11") 11 1 11 "q11").
Proof.
  destruct (bulk_eviction "q11" "" (answer "a11") (at_time 11) ten_entries 10)
    as (Hlen & Hless & Hnew & Hold & _).
  - apply (wf_cache_keys _ ten_entries_wf).
  - reflexivity.
  - reflexivity.
  - reflexivity.
  - reflexivity.
  - split; [exact Hlen|]. split; [apply Hless; lia|].
    split; [|split; [|exact Hnew]].
    + apply (Hold "q1" (mkCacheEntry (answer "q1") 1 1 1 "q1")). left.
    + apply (Hold "q2" (mkCacheEntry (answer "q2") 2 1 2 "q2")). right. left.
Defined.

(** A sixth response stored into a full cache of capacity five: the
    entry accessed longest ago goes and the new one comes, so the cache
    holds five entries again, which is its capacity. *)
Lemma five_entries_stay_five :
  length (cache full_cache) = 5%nat
  /\ cache_size full_cache = 5%Z
  /\ dict_get (@cache_key_of flat_similarity "q6" "") (cache full_cache)
     = None
  /\ length (cache (cache_response "q6" "" (answer "a6") (at_time 6)
                                   full_cache)) = 5%nat
  /\ dict_get "q1" (cache (cache_response "q6" "" (answer "a6") (at_time 6)
                                          full_cache)) = None
  /\ dict_get "q6" (cache (cache_response "q6" "" (answer "a6") (at_time 6)
                                          full_cache))
     = Some (mkCacheEntry (answer "a6") 6 1 6 "q6").
Proof. repeat split; vm_compute; reflexivity. Qed.

(** ** Further properties of the cache *)

Section CacheInUse.
Context `{TextOracle}.
Implicit Types (c : Cache) (q f : string).

Lemma keys_dict_set_sync {V W} k (v : V) (w : W) (d1 : odict V) (d2 : odict W) :
  keys d1 = keys d2 -> keys (dict_set k v d1) = keys (dict_set k w d2).
Proof.
  revert d2. induction d1 as [|[k1 v1] d1 IH]; intros [|[k2 w2] d2] Hk;
    simpl in *; try done.
  injection Hk as -> Hk. destruct (String.eqb k k2); simpl.
  - by f_equal.
  - f_equal. by apply IH.
Qed.

Lemma keys_dict_del_sync {V W} k (d1 : odict V) (d2 : odict W) :
  keys d1 = keys d2 -> keys (dict_del k d1) = keys (dict_del k d2).
Proof.
  revert d2. induction d1 as [|[k1 v1] d1 IH]; intros [|[k2 w2] d2] Hk;
    simpl in *; try done.
  injection Hk as -> Hk. destruct (String.eqb k k2); simpl.
  - done.
  - f_equal. by apply IH.
Qed.

Lemma Forall_dict_set {V} (P : string * V -> Prop) k v (d : odict V) :
  P (k, v) -> Forall P d -> Forall P (dict_set k v d).
Proof.
  intros Hkv Hd. apply Forall_forall. intros [k' v'] Hin.
  apply elem_dict_set in Hin as [->|Hin]; [done|].
  by apply (proj1 (Forall_forall _ _) Hd).
Qed.

Lemma Forall_dict_del {V} (P : string * V -> Prop) k (d : odict V) :
  Forall P d -> Forall P (dict_del k d).
Proof.
  intros Hd. apply Forall_forall. intros e Hin.
  apply elem_dict_del in Hin. by apply (proj1 (Forall_forall _ _) Hd).
Qed.

Lemma length_dict_del_le {V} k (d : odict V) :
  (length (dict_del k d) <= length d)%nat.
Proof.
  induction d as [|[k' v'] d IH]; simpl; [done|].
  destruct (String.eqb k k'); simpl; lia.
Qed.

(** Evicting keys keeps the two dictionaries in step. *)
Lemma evict_keys_inv ks c :
  keys (embeddings c) = keys (cache c) ->
  NoDup (keys (cache c)) ->
  Forall (fun kv => (1 <= access_count (snd kv))%Z) (cache c) ->
  keys (embeddings (evict_keys ks c)) = keys (cache (evict_keys ks c))
  /\ NoDup (keys (cache (evict_keys ks c)))
  /\ Forall (fun kv => (1 <= access_count (snd kv))%Z)
            (cache (evict_keys ks c))
  /\ cache_size (evict_keys ks c) = cache_size c.
Proof.
  revert c. induction ks as [|k ks IH]; intros c Hsync Hnd Hacc; simpl.
  - done.
  - destruct (IH (mkCache _ (cache_size c) (similarity_threshold c)
                    (dict_del k (cache c))
                    (if dict_mem k (embeddings c)
                     then dict_del k (embeddings c) else embeddings c)
                    (vectorizer c) (is_vectorizer_fitted c)))
      as (? & ? & ? & ?); simpl.
    + destruct (dict_mem k (embeddings c)) eqn:E.
      * by apply keys_dict_del_sync.
      * assert (k ∉ keys (embeddings c)) as Hk.
        { intros Hin. apply dict_mem_keys in Hin. congruence. }
        rewrite Hsync in Hk. by rewrite (dict_del_absent k (cache c)).
    + by apply NoDup_keys_dict_del.
    + by apply Forall_dict_del.
    + done.
Qed.

(** On a cache that holds an entry, [_evict_lru_entries] removes at least
    one. *)
Lemma evict_lru_shrinks c :
  NoDup (keys (cache c)) -> cache c <> [] ->
  (length (cache (_evict_lru_entries c)) < length (cache c))%nat.
Proof.
  intros Hnd Hne. rewrite evict_lru_cache.
  set (n := Nat.max 1 (length (cache c) / 5)).
  set (ks := map fst (take n (by_last_accessed (cache c)))).
  assert (Hperm := by_last_accessed_Permutation (cache c)).
  assert (Hks_nd : NoDup ks).
  { unfold ks.
    apply (sublist_NoDup _ (map fst (by_last_accessed (cache c)))).
    - unfold keys in Hnd. by rewrite Hperm.
    - apply (fmap_sublist fst), sublist_take. }
  assert (Hks_sub : ks ⊆ keys (cache c)).
  { intros k Hk. unfold ks in Hk.
    apply list_elem_of_fmap in Hk as (x & -> & Hx).
    unfold keys. apply list_elem_of_fmap. exists x. split; [done|].
    rewrite <- Hperm. by apply (subseteq_take n). }
  pose proof (del_all_length ks (cache c) Hnd Hks_nd Hks_sub) as Hl.
  assert (Hlen : (1 <= length ks)%nat).
  { unfold ks. rewrite length_map, length_take, (Permutation_length Hperm).
    destruct (cache c); [done|]. simpl. lia. }
  lia.
Qed.

Lemma evict_lru_inv c :
  keys (embeddings c) = keys (cache c) ->
  NoDup (keys (cache c)) ->
  Forall (fun kv => (1 <= access_count (snd kv))%Z) (cache c) ->
  keys (embeddings (_evict_lru_entries c)) = keys (cache (_evict_lru_entries c))
  /\ NoDup (keys (cache (_evict_lru_entries c)))
  /\ Forall (fun kv => (1 <= access_count (snd kv))%Z)
            (cache (_evict_lru_entries c))
  /\ cache_size (_evict_lru_entries c) = cache_size c.
Proof.
  unfold _evict_lru_entries.
  destruct (cache c) eqn:E; rewrite <- ?E; intros Hsync Hnd Hacc; [done|].
  by apply evict_keys_inv.
Qed.

Lemma cache_response_inv q f r clk c :
  cache_inv c -> cache_inv (cache_response q f r clk c).
Proof.
  intros [Hsync Hnd Hcap Hacc]. unfold cache_response.
  destruct (embedding_frame q c) as (Hc & He & Hs & _).
  destruct (_get_query_embedding q c) as [c1 emb]. simpl in *.
  rewrite <- Hc, <- He in Hsync. rewrite <- Hc in Hnd, Hacc, Hcap.
  rewrite <- Hs in Hcap. clear Hc He Hs.
  set (c2 := if (_ <=? _)%Z then _ else _).
  assert (H2 : keys (embeddings c2) = keys (cache c2)
               /\ NoDup (keys (cache c2))
               /\ Forall (fun kv => (1 <= access_count (snd kv))%Z) (cache c2)
               /\ cache_size c2 = cache_size c1
               /\ (Z.of_nat (length (cache c2)) < Z.max (cache_size c1) 1
                   \/ cache c2 = [])%Z).
  { unfold c2. destruct (_ <=? _)%Z eqn:E.
    - destruct (evict_lru_inv c1 Hsync Hnd Hacc) as (? & ? & ? & ?).
      repeat split; try done.
      destruct (decide (cache c1 = [])) as [E1|E1].
      + right. unfold _evict_lru_entries. rewrite E1. exact E1.
      + left. pose proof (evict_lru_shrinks c1 Hnd E1) as Hlt. lia.
    - apply Z.leb_gt in E. repeat split; try done. left. lia. }
  destruct H2 as (Hsync2 & Hnd2 & Hacc2 & Hsz2 & Hlen2).
  constructor; simpl.
  - by apply keys_dict_set_sync.
  - by apply NoDup_keys_dict_set.
  - rewrite Hsz2.
    destruct Hlen2 as [Hlt| ->]; [|simpl; lia].
    destruct (dict_get (cache_key_of q f) (cache c2)) eqn:E.
    + rewrite length_dict_set_old by done. lia.
    + rewrite length_dict_set_new by done. lia.
  - by apply Forall_dict_set.
Qed.

(** A lookup either misses and leaves the dictionary of entries as it is,
    or touches one entry. *)
Lemma semantic_loop_effect now sims c :
  embeddings (fst (semantic_loop now sims c)) = embeddings c
  /\ cache_size (fst (semantic_loop now sims c)) = cache_size c
  /\ similarity_threshold (fst (semantic_loop now sims c))
     = similarity_threshold c
  /\ ((snd (semantic_loop now sims c) = None
       /\ cache (fst (semantic_loop now sims c)) = cache c)
      \/ exists k s e,
           (k, s) ∈ sims
           /\ dict_get k (cache c) = Some e
           /\ snd (semantic_loop now sims c) = Some (annotate s (response e))
           /\ cache (fst (semantic_loop now sims c))
              = dict_set k (touch now e) (cache c)).
Proof.
  induction sims as [|[k s] sims IH]; simpl.
  - repeat split; try done. by left.
  - destruct (dict_get k (cache c)) as [e|] eqn:E; simpl.
    + repeat split; try done. right. exists k, s, e.
      repeat split; try done. left.
    + destruct IH as (? & ? & ? & [?|(k' & s' & e' & ? & ? & ? & ?)]).
      * repeat split; try done. by left.
      * repeat split; try done. right. exists k', s', e'.
        repeat split; try done. by right.
Qed.

Lemma lookup_effect q f now c :
  embeddings (fst (get_cached_response q f now c)) = embeddings c
  /\ cache_size (fst (get_cached_response q f now c)) = cache_size c
  /\ similarity_threshold (fst (get_cached_response q f now c))
     = similarity_threshold c
  /\ ((snd (get_cached_response q f now c) = None
       /\ cache (fst (get_cached_response q f now c)) = cache c)
      \/ exists k e r,
           dict_get k (cache c) = Some e
           /\ snd (get_cached_response q f now c) = Some r
           /\ cache (fst (get_cached_response q f now c))
              = dict_set k (touch now e) (cache c)).
Proof.
  unfold get_cached_response.
  destruct (embedding_frame q c) as (Hc & He & Hs & Ht).
  destruct (_get_query_embedding q c) as [c1 emb]. simpl in *.
  destruct (dict_get _ (cache c1)) as [e|] eqn:E; simpl.
  - repeat split; try done. right. exists (cache_key_of q f), e, (response e).
    rewrite <- Hc. done.
  - destruct (semantic_loop_effect now (_find_similar_queries emb c1) c1)
      as (-> & -> & -> & Hcase).
    repeat split; try done. rewrite <- Hc.
    destruct Hcase as [?|(k & s & e & ? & ? & ? & ?)]; [by left|].
    right. by exists k, e, (annotate s (response e)).
Qed.

Lemma get_cached_response_inv q f now c :
  cache_inv c -> cache_inv (fst (get_cached_response q f now c)).
Proof.
  intros [Hsync Hnd Hcap Hacc].
  destruct (lookup_effect q f now c) as (He & Hs & _ & Hcase).
  destruct Hcase as [[_ Hc]|(k & e & r & Hk & _ & Hc)];
    constructor; rewrite ?He, ?Hs, ?Hc; try done.
  - rewrite keys_dict_set_old by done. done.
  - by apply NoDup_keys_dict_set.
  - rewrite length_dict_set_old by done. done.
  - apply Forall_dict_set; [|done]. simpl.
    apply dict_get_Some_elem in Hk.
    apply (proj1 (Forall_forall _ _) Hacc) in Hk. simpl in Hk. lia.
Qed.

Lemma run_ops_inv ops c : cache_inv c -> cache_inv (run_ops ops c).
Proof.
  revert c. induction ops as [|o ops IH]; intros c Hinv; [done|].
  unfold run_ops. simpl. apply IH. destruct o; simpl.
  - by apply cache_response_inv.
  - by apply get_cached_response_inv.
Qed.

Lemma init_inv size threshold v : cache_inv (init size threshold v).
Proof. constructor; simpl; [done|constructor|lia|constructor]. Qed.

Lemma evict_keys_config ks c :
  cache_size (evict_keys ks c) = cache_size c
  /\ similarity_threshold (evict_keys ks c) = similarity_threshold c.
Proof.
  revert c. induction ks as [|k ks IH]; intros c; [done|]. simpl.
  by destruct (IH (mkCache _ (cache_size c) (similarity_threshold c)
                  (dict_del k (cache c))
                  (if dict_mem k (embeddings c)
                   then dict_del k (embeddings c) else embeddings c)
                  (vectorizer c) (is_vectorizer_fitted c))) as [-> ->].
Qed.

Lemma run_ops_config ops c :
  cache_size (run_ops ops c) = cache_size c
  /\ similarity_threshold (run_ops ops c) = similarity_threshold c.
Proof.
  revert c. induction ops as [|o ops IH]; intros c; [done|].
  unfold run_ops. simpl. fold (run_ops ops (step c o)).
  destruct (IH (step c o)) as [-> ->]. destruct o; simpl.
  - unfold cache_response.
    destruct (embedding_frame query c) as (_ & _ & Hs & Ht).
    destruct (_get_query_embedding query c) as [c1 emb]. simpl in *.
    destruct (_ <=? _)%Z; [|done].
    unfold _evict_lru_entries. destruct (cache c1); [done|].
    rewrite <- Hs, <- Ht. apply evict_keys_config.
  - by destruct (lookup_effect query context_hash now c) as (_ & -> & -> & _).
Qed.

(** X18. In any cache built from [__init__] by calls of [cache_response]
    and [get_cached_response], [cache] and [embeddings] hold the same
    keys in the same order, each key once: every entry has its embedding
    and every embedding its entry. *)
Theorem cache_and_embeddings_in_step ops size threshold v :
  let c := run_ops ops (init size threshold v) in
  keys (embeddings c) = keys (cache c) /\ NoDup (keys (cache c)).
Proof.
  intros c. destruct (run_ops_inv ops _ (init_inv size threshold v)).
  done.
Qed.

(** X19. Such a cache never holds more than [cache_size] entries, or
    one entry when [cache_size] is below 1. *)
Theorem cache_capacity_bound ops size threshold v :
  (Z.of_nat (length (cache (run_ops ops (init size threshold v))))
   <= Z.max size 1)%Z.
Proof.
  destruct (run_ops_inv ops _ (init_inv size threshold v)) as [_ _ Hcap _].
  by rewrite (proj1 (run_ops_config ops _)) in Hcap.
Qed.

(** X20. A lookup never changes the stored embeddings or the settings.
    A miss leaves the entries as they are; a hit changes one entry, and
    of it only the access count, which goes up by one, and the time of
    last access. No entry is added, removed or moved. *)
Theorem lookup_touches_one_entry q f now c :
  let c' := fst (get_cached_response q f now c) in
  embeddings c' = embeddings c
  /\ cache_size c' = cache_size c
  /\ similarity_threshold c' = similarity_threshold c
  /\ keys (cache c') = keys (cache c)
  /\ (snd (get_cached_response q f now c) = None -> cache c' = cache c)
  /\ (forall r, snd (get_cached_response q f now c) = Some r ->
        exists k e,
          dict_get k (cache c) = Some e
          /\ cache c'
             = dict_set k
                 (mkCacheEntry (response e) (timestamp e)
                    (access_count e + 1) now (query_sample e))
                 (cache c)).
Proof.
  intros c'. subst c'.
  destruct (lookup_effect q f now c) as (He & Hs & Ht & Hcase).
  repeat split; try done.
  - destruct Hcase as [[_ ->] | (k & e & r & Hk & _ & ->)]; [done|].
    by rewrite keys_dict_set_old.
  - intros Hnone. destruct Hcase as [[_ ?]|(k & e & r & _ & Hr & _)]; [done|].
    congruence.
  - intros r Hr. destruct Hcase as [[Hn _]|(k & e & r' & Hk & _ & Hc)];
      [congruence|]. by exists k, e.
Qed.

(** X21. The key of an entry is the digest of the query followed by the
    context hash, with nothing between them: a response stored under one
    query and context is returned, as an exact hit, for any query and
    context whose concatenation is the same text. *)
Theorem key_is_digest_of_concatenation q1 f1 q2 f2 r clk now c :
  (q1 ++ f1)%string = (q2 ++ f2)%string ->
  snd (get_cached_response q2 f2 now (cache_response q1 f1 r clk c))
  = Some r.
Proof.
  intros Hcat. unfold get_cached_response.
  destruct (embedding_frame q2 (cache_response q1 f1 r clk c)) as (Hc & _).
  destruct (_get_query_embedding q2 _) as [c1 emb]. simpl in *.
  rewrite Hc, cache_response_cache.
  unfold cache_key_of. rewrite <- Hcat.
  by rewrite dict_get_set_eq.
Qed.

(** X22. Below capacity, storing a response evicts nothing: every other
    key keeps its entry and its embedding, and the cache grows by one
    entry when the key is new and keeps its size when it is not. *)
Theorem store_below_capacity q f r clk c :
  (Z.of_nat (length (cache c)) < cache_size c)%Z ->
  let c' := cache_response q f r clk c in
  (forall k, k <> cache_key_of q f ->
     dict_get k (cache c') = dict_get k (cache c)
     /\ dict_get k (embeddings c') = dict_get k (embeddings c))
  /\ length (cache c')
     = (if dict_mem (cache_key_of q f) (cache c)
        then length (cache c) else S (length (cache c))).
Proof.
  intros Hlt c'. subst c'. unfold cache_response.
  destruct (embedding_frame q c) as (Hc & He & Hs & _).
  destruct (_get_query_embedding q c) as [c1 emb]. simpl in *.
  rewrite Hs, Hc. rewrite (proj2 (Z.leb_gt _ _)) by lia. simpl.
  rewrite Hc, He. split.
  - intros k Hk. by rewrite !dict_get_set_ne.
  - unfold dict_mem.
    destruct (dict_get (cache_key_of q f) (cache c)) eqn:E.
    + by rewrite length_dict_set_old.
    + by rewrite length_dict_set_new.
Qed.

(** X23. A response returned for a key that has no entry of its own is a
    semantic hit: it is the stored response of an entry whose embedding
    has a similarity to the query of at least the threshold, with
    [cache_similarity] set to that similarity and [cache_type] to
    ["semantic"]. *)
Theorem semantic_hit_is_above_threshold q f now c r :
  dict_get (cache_key_of q f) (cache c) = None ->
  snd (get_cached_response q f now c) = Some r ->
  exists k e s entry,
    (k, e) ∈ embeddings c
    /\ cosine_similarity (snd (_get_query_embedding q c)) (embedding e)
       = Some s
    /\ similarity_threshold c <= s
    /\ dict_get k (cache c) = Some entry
    /\ r = <["cache_type" := VStr "semantic"]>
             (<["cache_similarity" := VFloat s]> (response entry))
    /\ r !! "cache_type" = Some (VStr "semantic")
    /\ r !! "cache_similarity" = Some (VFloat s).
Proof.
  intros Hnew Hr. unfold get_cached_response in Hr.
  destruct (embedding_frame q c) as (Hc & He & _ & Ht).
  destruct (_get_query_embedding q c) as [c1 emb]. simpl in *.
  rewrite Hc, Hnew in Hr.
  destruct (semantic_loop_effect now (_find_similar_queries emb c1) c1)
    as (_ & _ & _ & [[Hn _]|(k & s & entry & Hin & Hk & Hres & _)]);
    [congruence|].
  rewrite Hres in Hr. injection Hr as <-.
  rewrite find_similar_eq in Hin.
  apply (subseteq_take 3) in Hin.
  rewrite sorted_Permutation in Hin.
  apply list_elem_of_omap in Hin as ([k' e] & Hin & Hcand).
  apply candidate_Some in Hcand as (-> & Hcos & Hle). simpl in *.
  exists k', e, s, entry. rewrite <- He, <- Ht, <- Hc.
  repeat split; try done.
  - apply lookup_insert_eq.
  - unfold annotate. rewrite lookup_insert_ne by done.
    apply lookup_insert_eq.
Qed.

End CacheInUse.

Lemma store_below_capacity_witness :
  length (cache (cache_response "q6" "" (answer "a6") (at_time 6)
                   (two_entries (85 # 100))))
  = 3%nat.
Proof.
  apply (proj2 (@store_below_capacity flat_similarity "q6" ""
                  (answer "a6") (at_time 6) (two_entries (85 # 100))
                  ltac:(vm_compute; reflexivity))).
Defined.

Lemma key_is_digest_of_concatenation_witness :
  snd (get_cached_response "profit" " marginctx" 9
         (cache_response "profit margin" "ctx" (answer "a1") (at_time 1)
            (@init flat_similarity 1000 (85 # 100) tt)))
  = Some (answer "a1").
Proof.
  apply (@key_is_digest_of_concatenation flat_similarity
           "profit margin" "ctx" "profit" " marginctx").
  reflexivity.
Defined.

Lemma semantic_hit_is_above_threshold_witness :
  exists k e s entry,
    (k, e) ∈ embeddings (two_entries (75 # 100))
    /\ @cosine_similarity flat_similarity
         (snd (@_get_query_embedding flat_similarity "gross margin"
                 (two_entries (75 # 100))))
         (embedding e)
       = Some s
    /\ 75 # 100 <= s
    /\ dict_get k (cache (two_entries (75 # 100))) = Some entry
    /\ <["cache_type" := VStr "semantic"]>
         (<["cache_similarity" := VFloat (8 # 10)]> (answer "a1"))
       = <["cache_type" := VStr "semantic"]>
           (<["cache_similarity" := VFloat s]> (response entry))
    /\ (<["cache_type" := VStr "semantic"]>
          (<["cache_similarity" := VFloat (8 # 10)]> (answer "a1")) : Response)
         !! "cache_type" = Some (VStr "semantic")
    /\ (<["cache_type" := VStr "semantic"]>
          (<["cache_similarity" := VFloat (8 # 10)]> (answer "a1")) : Response)
         !! "cache_similarity" = Some (VFloat s).
Proof.
  apply (@semantic_hit_is_above_threshold flat_similarity
           "gross margin" "ctx" 9 (two_entries (75 # 100))).
  - reflexivity.
  - reflexivity.
Defined.

End SemanticCacheEngineProps.

(* ===================================================================== *)
(** * Properties of the privacy engine                                   *)
(* ===================================================================== *)

Module PrivacyPreservingEngineProps.

Import PyFacts SemanticCacheEngine PrivacyPreservingEngine.
Local Open Scope Q_scope.

Lemma clamp_range x : 0 <= clamp x /\ clamp x <= 1.
Proof.
  destruct x as [q| | |]; simpl; try lra.
  destruct (Qlt_bool q 1) eqn:E1.
  - apply Qlt_bool_true in E1.
    destruct (Qlt_bool 0 q) eqn:E2.
    + apply Qlt_bool_true in E2. lra.
    + lra.
  - destruct (Qlt_bool 0 1) eqn:E2; lra.
Qed.

(** X24. When the confidence is a number that can be converted to a
    float and the draw returns, the response gets a confidence between 0
    and 1 whatever was drawn, an infinity or [nan] included, and the
    keys [privacy_applied] and [privacy_epsilon]; every other key is
    left as it was. When the confidence is an int too large for a float
    the call raises, and nothing is spent or changed. *)
Theorem noised_confidence_in_unit_interval noise resp p v confidence :
  resp !! "confidence" = Some v ->
  numeric v = Some confidence ->
  if overflows v
  then add_differential_privacy_noise (Some noise) resp p = None
  else
  exists resp',
    add_differential_privacy_noise (Some noise) resp p
    = Some (spend p, resp')
    /\ (exists c, resp' !! "confidence" = Some (VFloat c)
                  /\ 0 <= c /\ c <= 1)
    /\ resp' !! "privacy_applied" = Some (VBool true)
    /\ resp' !! "privacy_epsilon" = Some (VFloat (epsilon p))
    /\ forall k, k <> "confidence" -> k <> "privacy_applied" ->
                 k <> "privacy_epsilon" -> resp' !! k = resp !! k.
Proof.
  intros Hv Hn. unfold add_differential_privacy_noise. rewrite Hv, Hn.
  destruct (overflows v); [done|].
  eexists. split; [done|]. repeat split.
  - exists (clamp (add_noise confidence noise)).
    rewrite !lookup_insert_ne by done. rewrite lookup_insert_eq.
    split; [done|]. apply clamp_range.
  - rewrite lookup_insert_ne by done. apply lookup_insert_eq.
  - apply lookup_insert_eq.
  - intros k H1 H2 H3. by rewrite !lookup_insert_ne.
Qed.

Lemma noised_confidence_in_unit_interval_witness :
  exists resp',
    add_differential_privacy_noise (Some PosInf) (confident (9 # 10))
      (init 1 (1 # 100000))
    = Some (spend (init 1 (1 # 100000)), resp')
    /\ (exists c, resp' !! "confidence" = Some (VFloat c)
                  /\ 0 <= c /\ c <= 1)
    /\ resp' !! "privacy_applied" = Some (VBool true)
    /\ resp' !! "privacy_epsilon"
       = Some (VFloat (epsilon (init 1 (1 # 100000))))
    /\ forall k, k <> "confidence" -> k <> "privacy_applied" ->
                 k <> "privacy_epsilon" ->
                 resp' !! k = confident (9 # 10) !! k.
Proof.
  apply (noised_confidence_in_unit_interval PosInf (confident (9 # 10))
           (init 1 (1 # 100000)) (VFloat (9 # 10)) (9 # 10));
    reflexivity.
Defined.

(** X25. The privacy budget is bookkeeping only. A call that returns
    leaves [epsilon] and [delta] alone and a budget that started
    non-negative stays between 0 and its old value when [epsilon] is not
    negative; a response without [confidence] costs nothing and comes
    back unchanged; and the response returned does not depend on the
    budget, so an exhausted budget withholds nothing. *)
Theorem privacy_budget_is_bookkeeping draw resp p p' resp' :
  add_differential_privacy_noise draw resp p = Some (p', resp') ->
  epsilon p' = epsilon p
  /\ delta p' = delta p
  /\ (0 <= epsilon p -> 0 <= privacy_budget p ->
      0 <= privacy_budget p' /\ privacy_budget p' <= privacy_budget p)
  /\ (resp !! "confidence" = None -> p' = p /\ resp' = resp)
  /\ (forall budget,
        exists p'',
          add_differential_privacy_noise draw resp
            (mkEngine (epsilon p) (delta p) budget)
          = Some (p'', resp')).
Proof.
  unfold add_differential_privacy_noise. intros Hrun.
  assert (Hspend : 0 <= epsilon p -> 0 <= privacy_budget p ->
            0 <= privacy_budget (spend p)
            /\ privacy_budget (spend p) <= privacy_budget p).
  { intros He Hb. unfold spend. simpl.
    destruct (Qlt_bool 0 (privacy_budget p - epsilon p)) eqn:E.
    - apply Qlt_bool_true in E. lra.
    - lra. }
  destruct (resp !! "confidence") as [v|] eqn:Hv.
  - destruct (numeric v) as [confidence|] eqn:Hn.
    + destruct draw as [noise|]; [|done].
      destruct (overflows v); [done|]. simplify_eq.
      repeat split; try done; try (by apply Hspend).
      intros budget. eexists. done.
    + simplify_eq. repeat split; try done; try (by apply Hspend).
      intros budget. eexists. done.
  - simplify_eq. repeat split; try lra; try done.
    intros budget. eexists. done.
Qed.

Lemma privacy_budget_is_bookkeeping_witness :
  let p := mkEngine 1 (1 # 100000) 0 in
  let resp' :=
    <["privacy_epsilon" := VFloat 1]>
      (<["privacy_applied" := VBool true]>
         (<["confidence" := VFloat (50 # 100)]> (confident (9 # 10)))) in
  epsilon (spend p) = epsilon p
  /\ delta (spend p) = delta p
  /\ (0 <= epsilon p -> 0 <= privacy_budget p ->
      0 <= privacy_budget (spend p)
      /\ privacy_budget (spend p) <= privacy_budget p)
  /\ (confident (9 # 10) !! "confidence" = None ->
      spend p = p /\ resp' = confident (9 # 10))
  /\ (forall budget,
        exists p'',
          add_differential_privacy_noise (Some (Finite (- (4 # 10))))
            (confident (9 # 10)) (mkEngine (epsilon p) (delta p) budget)
          = Some (p'', resp')).
Proof.
  apply (privacy_budget_is_bookkeeping (Some (Finite (- (4 # 10))))
           (confident (9 # 10)) (mkEngine 1 (1 # 100000) 0)).
  reflexivity.
Defined.

End PrivacyPreservingEngineProps.

(* ===================================================================== *)
(** * Properties of the compression engine                               *)
(* ===================================================================== *)

Module ModelCompressionEngineProps.

Import PyFacts ModelCompressionEngine.
Local Open Scope Q_scope.

(** X26. [simulate_quantization_effects] raises for zero bits and for
    a width of [2^1080] bits or more, positive or negative, where the
    compression ratio is rounded to zero. Otherwise it returns, and in
    exact arithmetic the compressed size is the model size times
    [bits / 32], the memory saved is the rest of the model size, a
    width of at most 32 bits never enlarges a model, and a width above
    32 bits reports a negative saving. *)
Theorem quantization_accounting (model_size_gb : Q) (bits : Z) :
  match simulate_quantization_effects model_size_gb bits with
  | None => bits = 0%Z \/ (2 ^ 1080 <= Z.abs bits)%Z
  | Some r =>
      bits <> 0%Z
      /\ (Z.abs bits < 2 ^ 1080)%Z
      /\ original_size_gb r = model_size_gb
      /\ quantization_bits r = bits
      /\ compressed_size_gb r == model_size_gb * inject_Z bits / 32
      /\ memory_saved_gb r + compressed_size_gb r == model_size_gb
      /\ ((0 < bits <= 32)%Z -> 0 <= model_size_gb ->
          0 <= compressed_size_gb r /\ compressed_size_gb r <= model_size_gb)
      /\ ((32 < bits)%Z -> 0 < model_size_gb -> memory_saved_gb r < 0)
  end.
Proof.
  unfold simulate_quantization_effects.
  destruct (bits =? 0)%Z eqn:E0; [left; by apply Z.eqb_eq in E0|].
  apply Z.eqb_neq in E0.
  destruct (2 ^ 1080 <=? Z.abs bits)%Z eqn:E1;
    [right; by apply Z.leb_le in E1|].
  apply Z.leb_gt in E1.
  assert (Hb : ~ inject_Z bits == 0).
  { intros Hq. apply E0. unfold Qeq, inject_Z in Hq. simpl in Hq. lia. }
  assert (Hc : model_size_gb / (inject_Z 32 / inject_Z bits)
               == model_size_gb * inject_Z bits / 32).
  { change (inject_Z 32) with 32. by field. }
  set (rates := if (bits =? 8)%Z then _ else _).
  destruct rates as [accuracy speedup]. simpl.
  repeat split; try done.
  - lra.
  - rewrite Hc. assert (0 < inject_Z bits).
    { change 0 with (inject_Z 0). rewrite <- Zlt_Qlt. lia. }
    apply Qle_shift_div_l; [lra|]. nra.
  - rewrite Hc. assert (inject_Z bits <= 32).
    { change 32 with (inject_Z 32). rewrite <- Zle_Qle. lia. }
    apply Qle_shift_div_r; [lra|]. nra.
  - intros Hbig Hpos. rewrite Hc.
    assert (32 < inject_Z bits).
    { change 32 with (inject_Z 32). rewrite <- Zlt_Qlt. lia. }
    assert (model_size_gb < model_size_gb * inject_Z bits / 32).
    { apply Qlt_shift_div_l; [lra|]. nra. }
    lra.
Qed.

End ModelCompressionEngineProps.

(* ===================================================================== *)
(** * Properties of the optimizer                                        *)
(* ===================================================================== *)

Module AdvancedMLOptimizerProps.

Import PyFacts AdaptiveBatchingEngine.
Import SemanticCacheEngine SemanticCacheEngineProps.
Import ModelCompressionEngine AdvancedMLOptimizer.
Local Open Scope list_scope.
Local Open Scope Q_scope.

Section WithOracles.
Context `{TextOracle} `{QueryOracle} `{StatsOracle}.

(** With the model size [optimize_query] passes, the early-exit path is
    out of reach. *)
Lemma small_model_path (query_complexity model_size : Q) :
  model_size <= 2 ->
  optimize_inference_path query_complexity model_size
  = (if Qlt_bool (8 # 10) query_complexity
     then mkInferencePath "full_precision"
            "Complex query requires full model precision" "1x"
     else mkInferencePath "quantized_inference"
            "Balanced query complexity, using quantized path" "1.5x").
Proof.
  intros Hsmall. unfold optimize_inference_path.
  assert (Qlt_bool 2 model_size = false) as ->.
  { unfold Qlt_bool. apply negb_false_iff, Qle_bool_iff. done. }
  by rewrite andb_false_r.
Qed.

(** X27. [optimize_query] either answers from the cache or enqueues,
    never both. On a hit the response is the non-empty one the cache
    returned and the queue is left alone. On a miss exactly one request
    is appended, its [batch_id] is the length of the queue before, and
    the inference path is never the early-exit one. In both cases the
    cache keeps its keys and embeddings, and the privacy engine is not
    touched. *)
Theorem optimize_query_hit_or_enqueue query context_hash complexity clk
    (o : Optimizer) :
  let o' := fst (optimize_query query context_hash complexity clk o) in
  privacy_engine o' = privacy_engine o
  /\ embeddings (cache_engine o') = embeddings (cache_engine o)
  /\ keys (cache (cache_engine o')) = keys (cache (cache_engine o))
  /\ match snd (optimize_query query context_hash complexity clk o) with
     | CacheHit resp _ =>
         resp <> ∅
         /\ snd (get_cached_response (sanitize_query query) context_hash
                   (t_lookup clk) (cache_engine o)) = Some resp
         /\ batching_engine o' = batching_engine o
     | CacheMiss sanitized path batch_id _ =>
         sanitized = sanitize_query query
         /\ batch_id
            = Z.of_nat (length (pending_requests (batching_engine o)))
         /\ pending_requests (batching_engine o')
            = pending_requests (batching_engine o)
              ++ [mkRequest (request_text sanitized context_hash complexity)
                            (t_request clk) batch_id]
         /\ optimization path <> "early_exit"
     end.
Proof.
  intros o'. subst o'. unfold optimize_query.
  destruct (lookup_effect (sanitize_query query) context_hash
              (t_lookup clk) (cache_engine o)) as (He & _ & _ & Hcase).
  assert (Hk : keys (cache (fst (get_cached_response (sanitize_query query)
                                   context_hash (t_lookup clk)
                                   (cache_engine o))))
               = keys (cache (cache_engine o))).
  { destruct Hcase as [[_ ->] | (k & e & r & Hk & _ & ->)]; [done|].
    by rewrite keys_dict_set_old. }
  clear Hcase.
  destruct (get_cached_response _ _ _ (cache_engine o)) as [c1 cached].
  simpl in He, Hk.
  assert (Hpath : optimization (optimize_inference_path complexity (6 # 10))
                  <> "early_exit").
  { rewrite small_model_path by lra. by destruct (Qlt_bool _ _). }
  destruct cached as [resp|]; [destruct (size resp =? 0)%nat eqn:E|]; simpl.
  - done.
  - repeat split; try done. intros ->. by rewrite map_size_empty in E.
  - done.
Qed.

(** X28. A stored response that is an empty dictionary is never served:
    the lookup finds it and counts the access, and [optimize_query]
    still reports a miss and enqueues the query. *)
Theorem empty_response_counts_as_miss query context_hash complexity clk
    (o : Optimizer) (e : CacheEntry) :
  dict_get (cache_key_of (sanitize_query query) context_hash)
           (cache (cache_engine o)) = Some e ->
  response e = ∅ ->
  let o' := fst (optimize_query query context_hash complexity clk o) in
  snd (optimize_query query context_hash complexity clk o)
  = CacheMiss (sanitize_query query)
      (optimize_inference_path complexity (6 # 10))
      (Z.of_nat (length (pending_requests (batching_engine o))))
      (t_return clk - t_start clk)
  /\ dict_get (cache_key_of (sanitize_query query) context_hash)
              (cache (cache_engine o'))
     = Some (mkCacheEntry ∅ (timestamp e) (access_count e + 1)
                          (t_lookup clk) (query_sample e))
  /\ length (pending_requests (batching_engine o'))
     = S (length (pending_requests (batching_engine o))).
Proof.
  intros Hk Hempty o'. subst o'. unfold optimize_query, get_cached_response.
  destruct (embedding_frame (sanitize_query query) (cache_engine o))
    as (Hc & _).
  destruct (_get_query_embedding _ (cache_engine o)) as [c1 emb].
  simpl in Hc. rewrite Hc, Hk, Hempty. simpl.
  rewrite map_size_empty. simpl. repeat split.
  - rewrite dict_get_set_eq. unfold touch. by rewrite Hempty.
  - rewrite length_app. simpl. lia.
Qed.

Lemma total_accesses_ge (d : odict CacheEntry) (acc : Z) :
  Forall (fun kv => (1 <= access_count (snd kv))%Z) d ->
  (acc + Z.of_nat (length d)
   <= fold_left Z.add (map access_count (values d)) acc)%Z.
Proof.
  revert acc. induction d as [|[k e] d IH]; intros acc Hd; simpl; [lia|].
  apply Forall_cons in Hd as [He Hd]. simpl in He.
  specialize (IH (acc + access_count e)%Z Hd). lia.
Qed.

(** X29. On a cache built from [__init__] by stores and lookups the hit
    rate carries no information about hits: it is 0.0 while the cache
    is empty and 1.0 as soon as it holds an entry, whatever the lookups
    returned; it raises only when the statistics do. *)
Theorem hit_rate_is_zero_or_one ops size threshold v :
  let c := run_ops ops (SemanticCacheEngine.init size threshold v) in
  _calculate_cache_hit_rate c
  = match cache c with
    | [] => Some 0
    | _ :: _ =>
        match np_mean (map quality_score (values (embeddings c))) with
        | Some _ => Some 1
        | None => None
        end
    end.
Proof.
  intros c.
  destruct (run_ops_inv ops _ (init_inv size threshold v))
    as [_ _ _ Hacc]. fold c in Hacc.
  unfold _calculate_cache_hit_rate, get_cache_stats.
  destruct (cache c) as [|kv d] eqn:E; [done|].
  destruct (np_mean _); [|done].
  set (n := length (kv :: d)).
  set (total := fold_left Z.add _ _).
  assert (Hn : (1 <= Z.of_nat n)%Z) by (unfold n; simpl; lia).
  assert (Ht : (Z.of_nat n <= total)%Z).
  { pose proof (total_accesses_ge (kv :: d) 0 Hacc) as Hge.
    fold n in Hge. unfold total. lia. }
  rewrite (proj2 (Z.eqb_neq _ _)) by lia.
  rewrite Z.max_r by lia.
  assert (Hrate : 1 <= inject_Z total / inject_Z (Z.of_nat n)).
  { assert (0 < inject_Z (Z.of_nat n)).
    { change 0 with (inject_Z 0). rewrite <- Zlt_Qlt. lia. }
    apply Qle_shift_div_l; [done|]. rewrite Qmult_1_l.
    rewrite <- Zle_Qle. done. }
  assert (Qlt_bool (inject_Z total / inject_Z (Z.of_nat n)) 1 = false) as ->.
  { unfold Qlt_bool. apply negb_false_iff, Qle_bool_iff. done. }
  done.
Qed.

End WithOracles.

Lemma empty_response_counts_as_miss_witness :
  let o' :=
    fst (@optimize_query flat_similarity plain_queries
           "profit margin" "ctx" (1 # 2) (mkQueryClock 5 6 7 8)
           empty_response_cached) in
  snd (@optimize_query flat_similarity plain_queries
         "profit margin" "ctx" (1 # 2) (mkQueryClock 5 6 7 8)
         empty_response_cached)
  = CacheMiss "profit margin"
      (optimize_inference_path (1 # 2) (6 # 10)) 0 (8 - 5)
  /\ dict_get "profit marginctx" (cache (cache_engine o'))
     = Some (mkCacheEntry ∅ 1 (1 + 1) 6 "profit margin")
  /\ length (pending_requests (batching_engine o')) = 1%nat.
Proof.
  apply (@empty_response_counts_as_miss flat_similarity plain_queries
           "profit margin" "ctx" (1 # 2) (mkQueryClock 5 6 7 8)
           empty_response_cached
           (mkCacheEntry ∅ 1 1 1 "profit margin"));
    reflexivity.
Defined.

End AdvancedMLOptimizerProps.

